(** * MCCD utilities: a shallow embedding of [mccd_utils.py]

    The development follows the Python module function by function.

    - Python [int]s are [Z]; NumPy / Python floats are modelled by the real
      numbers [R] (exact arithmetic: rounding, NaN and infinities are not
      represented).
    - A NumPy array is the list of its entries along the axis the code
      iterates or indexes; shapes are carried by the list lengths.
    - A Python exception is a value of [PyError]; a function that may raise
      returns [result A]. *)

From stdpp Require Import list.
From Stdlib Require Import String Ascii ZArith List Bool Reals Lra Lia.
From Stdlib Require Import Sorting.Permutation Sorting.Sorted.
From Stdlib Require OrdersEx.
Import ListNotations.

Open Scope Z_scope.

(** ** Exceptions *)

Inductive PyError : Set :=
| TypeError
| IndexError
| ValueError
| KeyError
| AttributeError
| ZeroDivisionError
| OSError.

Inductive result (A : Type) : Type :=
| Ok (a : A)
| Raise (e : PyError).
Arguments Ok {A} a.
Arguments Raise {A} e.

Definition bind {A B : Type} (m : result A) (k : A -> result B) : result B :=
  match m with
  | Ok a => k a
  | Raise e => Raise e
  end.

Notation "'let*' x ':=' m 'in' k" := (bind m (fun x => k))
  (at level 10, x pattern, m at level 100, k at level 200).

(** ** Class [Loc2Glob]: MegaCam geometry *)

Record Loc2Glob : Set := mkLoc2Glob {
  x_gap : Z;
  y_gap : Z;
  x_npix : Z;
  y_npix : Z
}.

(** [Loc2Glob()] with the CFIS default values. *)
Definition Loc2Glob_default : Loc2Glob := mkLoc2Glob 70 425 2048 4612.

(** [ccd_n in [36, 37]] *)
Definition in_36_37 (ccd_n : Z) : bool := (ccd_n =? 36) || (ccd_n =? 37).

(** The test of [flip_coord], also used by [MomentInterpolator.__init__]. *)
Definition flipped (ccd_n : Z) : bool := (ccd_n <? 18) || in_36_37 ccd_n.

Definition flip_coord (self : Loc2Glob) (ccd_n : Z) (x_coor y_coor : R) : R * R :=
  if flipped ccd_n
  then ((IZR (x_npix self) - x_coor + 1)%R, (IZR (y_npix self) - y_coor + 1)%R)
  else (x_coor, y_coor).

(** [shift_coord] has no final [else]: past the last [elif] the Python
    function returns [None], here the Rocq [None]. *)
Definition shift_coord (self : Loc2Glob) (ccd_n : Z) : option (R * R) :=
  if ccd_n <? 9 then
    Some (IZR ((ccd_n - 4) * (x_gap self + x_npix self)),
          IZR (y_gap self + y_npix self))
  else if ccd_n <? 18 then
    Some (IZR ((ccd_n - 13) * (x_gap self + x_npix self)), 0%R)
  else if ccd_n <? 27 then
    Some (IZR ((ccd_n - 22) * (x_gap self + x_npix self)),
          (-1 * IZR (y_gap self + y_npix self))%R)
  else if ccd_n <? 36 then
    Some (IZR ((ccd_n - 31) * (x_gap self + x_npix self)),
          (-2 * IZR (y_gap self + y_npix self))%R)
  else if ccd_n <? 37 then
    Some ((-5 * IZR (x_gap self + x_npix self))%R, 0%R)
  else if ccd_n <? 38 then
    Some ((5 * IZR (x_gap self + x_npix self))%R, 0%R)
  else if ccd_n <? 39 then
    Some ((-5 * IZR (x_gap self + x_npix self))%R,
          (-1 * IZR (y_gap self + y_npix self))%R)
  else if ccd_n <? 40 then
    Some ((5 * IZR (x_gap self + x_npix self))%R,
          (-1 * IZR (y_gap self + y_npix self))%R)
  else None.

(** [x_shift, y_shift = self.shift_coord(ccd_n)] raises [TypeError] when the
    right-hand side is [None]. *)
Definition loc2glob_img_coord (self : Loc2Glob) (ccd_n : Z) (x_coor y_coor : R)
  : result (R * R) :=
  let '(x_coor, y_coor) := flip_coord self ccd_n x_coor y_coor in
  match shift_coord self ccd_n with
  | None => Raise TypeError
  | Some (x_shift, y_shift) => Ok ((x_coor + x_shift)%R, (y_coor + y_shift)%R)
  end.

(** ** NumPy helpers *)

(** [a < b] on floats, as a boolean. *)
Definition Rltb (a b : R) : bool := if Rlt_dec a b then true else false.

(** [a > b] on floats, as a boolean. *)
Definition Rgtb (a b : R) : bool := if Rgt_dec a b then true else false.

(** [np.ones(arr.shape)] *)
Definition np_ones_like (arr : list R) : list R := map (fun _ => 1%R) arr.

(** [arr[cond] = v]: boolean-mask assignment of a scalar. *)
Fixpoint set_where (cond : list bool) (v : R) (arr : list R) : list R :=
  match cond, arr with
  | c :: cond', a :: arr' => (if c then v else a) :: set_where cond' v arr'
  | _, _ => arr
  end.

(** [arr < thresh], elementwise. *)
Definition np_less (arr : list R) (thresh : R) : list bool :=
  map (fun a => Rltb a thresh) arr.

(** ** Class [MccdInputs] *)

(** [handle_mask] writes into [stars] when [apply_to_stars] is set: the
    function returns the mask together with the array [stars] as it is after
    the call. *)
Definition handle_mask (stars : list R) (thresh : R) (apply_to_stars : bool)
  : list R * list R :=
  let mask := np_ones_like stars in
  let mask := set_where (np_less stars thresh) 0%R mask in
  let stars :=
    if apply_to_stars then set_where (np_less stars thresh) 0%R stars
    else stars in
  (mask, stars).

(** *** Python strings and lists *)

(** [s.split(sep)] for a non-empty separator: [skip] counts the characters
    of a matched separator still to be dropped, [cur] is the current token
    in reverse. *)
Fixpoint split_go (sep : string) (skip : nat) (cur : list ascii) (s : string)
  : list string :=
  match s with
  | EmptyString => [string_of_list_ascii (rev cur)]
  | String c s' =>
      match skip with
      | S n => split_go sep n cur s'
      | O =>
          if String.prefix sep s
          then string_of_list_ascii (rev cur)
               :: split_go sep (String.length sep - 1) [] s'
          else split_go sep 0 (c :: cur) s'
      end
  end.

(** [s.split(sep)]: an empty separator raises [ValueError]. *)
Definition py_split (s sep : string) : result (list string) :=
  match sep with
  | EmptyString => Raise ValueError
  | _ => Ok (split_go sep 0 [] s)
  end.

(** [l[i]] with Python's negative indices. *)
Definition py_index {A : Type} (l : list A) (i : Z) : result A :=
  let n := Z.of_nat (length l) in
  let j := if i <? 0 then i + n else i in
  if (j <? 0) || (n <=? j) then Raise IndexError
  else match nth_error l (Z.to_nat j) with
       | Some a => Ok a
       | None => Raise IndexError
       end.

(** The fields of the object the model needs. *)
Record MccdInputs : Type := mkMccdInputs {
  separator : string;
  coord_x_descriptor : string;
  coord_y_descriptor : string;
  mask_thresh : R;
  loc2glob : Loc2Glob;
  num_catalogs : option nat;
  catalog_ids : option (list string);
  starcat_list : option (list (list (string * string * string)))
}.

(** [MccdInputs()] with the default arguments. *)
Definition MccdInputs_default : MccdInputs :=
  mkMccdInputs "-" "XWIN_IMAGE" "YWIN_IMAGE" (-100000)%R Loc2Glob_default
               None None None.

Definition parse_path (self : MccdInputs) (path : string)
  : result (string * string) :=
  let* parts := py_split path "." in
  let* my_path := py_index parts 0 in
  let* splitted_str := py_split my_path (separator self) in
  let* ccd_n := py_index splitted_str (-1) in
  let* starcat_id := py_index splitted_str (-2) in
  Ok (starcat_id, ccd_n).

(** A row of [complete_list]: [(starcat_id, ccd_n, path)]. *)
Definition row : Set := (string * string * string)%type.
Definition row_id (r : row) : string := fst (fst r).
Definition row_ccd (r : row) : string := snd (fst r).
Definition row_path (r : row) : string := snd r.

(** [[f(x) for x in l]] when [f] may raise. *)
Fixpoint mapM {A B : Type} (f : A -> result B) (l : list A) : result (list B) :=
  match l with
  | [] => Ok []
  | a :: l' =>
      let* b := f a in
      let* bs := mapM f l' in
      Ok (b :: bs)
  end.

(** [for x in l: st = step(st, x)] when a turn may raise. *)
Fixpoint foldM {S A : Type} (step : S -> A -> result S) (st : S) (l : list A)
  : result S :=
  match l with
  | [] => Ok st
  | a :: l' => let* st' := step st a in foldM step st' l'
  end.

(** [np.unique] on strings: the sorted list of the distinct entries. *)
Fixpoint insert_unique (x : string) (l : list string) : list string :=
  match l with
  | [] => [x]
  | y :: l' =>
      match String.compare x y with
      | Lt => x :: l
      | Eq => l
      | Gt => y :: insert_unique x l'
      end
  end.

Definition np_unique (l : list string) : list string :=
  fold_right insert_unique [] l.

(** [complete_list[:, 0]]: an array built from an empty list is
    one-dimensional, and indexing it with two indices raises. *)
Definition column0 (complete_list : list row) : result (list string) :=
  match complete_list with
  | [] => Raise IndexError
  | _ => Ok (map row_id complete_list)
  end.

(** The part shared by [parse_folder] and [parse_pipeline_input_list], from
    [np.unique] on. *)
Definition group_starcats (self : MccdInputs) (complete_list : list row)
  : result MccdInputs :=
  let* col := column0 complete_list in
  let starcat_unique_ids := np_unique col in
  let starcat_list :=
    map (fun st_id =>
           List.filter (fun r => String.eqb (row_id r) st_id) complete_list)
        starcat_unique_ids in
  Ok (mkMccdInputs (separator self) (coord_x_descriptor self)
        (coord_y_descriptor self) (mask_thresh self) (loc2glob self)
        (Some (length starcat_list)) (Some starcat_unique_ids)
        (Some starcat_list)).

(** [file_paths.sort()] *)
Fixpoint insert_sorted (x : string) (l : list string) : list string :=
  match l with
  | [] => [x]
  | y :: l' => if String.leb x y then x :: l else y :: insert_sorted x l'
  end.

Definition sort_paths (l : list string) : list string :=
  fold_right insert_sorted [] l.

(** [parse_folder]: [glob_glob] is the file system seen through
    [glob.glob]. *)
Definition parse_folder (glob_glob : string -> list string)
  (self : MccdInputs) (folder_path pattern : string) : result MccdInputs :=
  let file_paths := glob_glob (folder_path ++ pattern)%string in
  let file_paths := sort_paths file_paths in
  let* complete_list :=
    mapM (fun path =>
            let* p0 := parse_path self path in
            let* p1 := parse_path self path in
            Ok (fst p0, snd p1, path))
         file_paths in
  group_starcats self complete_list.

Definition parse_pipeline_input_list (self : MccdInputs)
  (input_list : list (list string)) (element_position : Z)
  : result MccdInputs :=
  let* complete_list :=
    mapM (fun path =>
            let* e0 := py_index path element_position in
            let* p0 := parse_path self e0 in
            let* e1 := py_index path element_position in
            let* p1 := parse_path self e1 in
            let* e2 := py_index path element_position in
            Ok (fst p0, snd p1, e2))
         input_list in
  group_starcats self complete_list.

(** *** [prep_mccd_inputs] *)

(** The table [starcat[2].data] of an opened catalogue: a column name gives
    the column, and a missing column raises [KeyError]. *)
Definition StarCat : Type := string -> option (list R).

Definition data_get (starcat : StarCat) (name : string) : result (list R) :=
  match starcat name with
  | Some col => Ok col
  | None => Raise KeyError
  end.

(** [try: body except Exception: handler], where the handler only rebinds
    the variables the body computes. *)
Definition try_except {A : Type} (body : result A) (handler : A) : A :=
  match body with
  | Ok a => a
  | Raise _ => handler
  end.

(** [l.append(x)] on a variable that holds a list or [None]: the attribute
    lookup on [None] raises before the argument is evaluated. *)
Definition py_append {A : Type} (l : option (list A)) (x : result A)
  : result (option (list A)) :=
  match l with
  | None => Raise AttributeError
  | Some l => let* a := x in Ok (Some (l ++ [a]))
  end.

(** The seven lists [prep_mccd_inputs] returns. *)
Record PrepOut : Type := mkPrepOut {
  prep_star_list : list (list R);
  prep_position_list : list (list (R * R));
  prep_mask_list : list (list R);
  prep_ccd_list : list Z;
  prep_SNR_list : option (list (list R));
  prep_RA_list : option (list (list R));
  prep_DEC_list : option (list (list R))
}.

Section Prep.

(** External collaborators: [fits.open], the string to integer cast of
    NumPy and [utils.rca_format]. *)
Variable fits_open : string -> result StarCat.
Variable astype_int : string -> result Z.
Variable rca_format : list R -> list R.

(** One turn of the loop over the catalogues of an exposure. *)
Definition prep_step (self : MccdInputs) (st : PrepOut) (r : row)
  : result PrepOut :=
  let* starcat := fits_open (row_path r) in
  let* ccd := astype_int (row_ccd r) in
  let* xs := data_get starcat (coord_x_descriptor self) in
  let* ys := data_get starcat (coord_y_descriptor self) in
  let* positions :=
    mapM (fun xy => loc2glob_img_coord (loc2glob self) ccd (fst xy) (snd xy))
         (combine xs ys) in
  let* vignet := data_get starcat "VIGNET" in
  let stars := rca_format vignet in
  let '(masks, stars) := handle_mask stars (mask_thresh self) true in
  let star_list := prep_star_list st ++ [stars] in
  let position_list := prep_position_list st ++ [positions] in
  let mask_list := prep_mask_list st ++ [masks] in
  let ccd_list := prep_ccd_list st ++ [ccd] in
  let SNR_list :=
    try_except
      (let* SNR := data_get starcat "SNR_WIN" in
       py_append (prep_SNR_list st) (Ok SNR))
      None in
  let '(RA_list, DEC_list) :=
    try_except
      (let* ra := py_append (prep_RA_list st)
                            (data_get starcat "XWIN_WORLD") in
       let* dec := py_append (prep_DEC_list st)
                             (data_get starcat "YWIN_WORLD") in
       Ok (ra, dec))
      (None, None) in
  Ok (mkPrepOut star_list position_list mask_list ccd_list
                SNR_list RA_list DEC_list).

Definition prep_mccd_inputs (self : MccdInputs) (starcat_array : list row)
  : result PrepOut :=
  foldM (prep_step self)
        (mkPrepOut [] [] [] [] (Some []) (Some []) (Some []))
        starcat_array.

End Prep.

(** *** [outlier_rejection] *)

(** What the code reads of the result of [hsm.FindAdaptiveMom]. *)
Record Moments : Type := mkMoments {
  observed_shape_g1 : R;
  observed_shape_g2 : R;
  moments_sigma : R;
  error_message : string
}.

(** [np.concatenate(l, axis=2)] of per-CCD arrays, each seen as the list of
    its stars: an empty list of arrays raises [ValueError]. *)
Definition np_concatenate {A : Type} (l : list (list A)) : result (list A) :=
  match l with
  | [] => Raise ValueError
  | _ => Ok (concat l)
  end.

Definition np_sum (l : list R) : R := fold_right Rplus 0%R l.

(** [np.mean] *)
Definition np_mean (l : list R) : R := (np_sum l / INR (length l))%R.

(** [np.std]: the square root of the mean of [abs(x - x.mean())**2]. *)
Definition np_std (l : list R) : R :=
  sqrt (np_mean (map (fun x => (Rabs (x - np_mean l) ^ 2)%R) l)).

(** [np.nonzero(l)[0]]: the indices of the true entries, counted from
    [start]. *)
Fixpoint nonzero_from (start : nat) (l : list bool) : list nat :=
  match l with
  | [] => []
  | b :: l' =>
      if b then start :: nonzero_from (S start) l'
      else nonzero_from (S start) l'
  end.

Definition np_nonzero (l : list bool) : list nat := nonzero_from 0 l.

(** [abs(col) > thresh], elementwise. *)
Definition abs_greater (col : list R) (thresh : R) : list bool :=
  map (fun v => Rgtb (Rabs v) thresh) col.

(** [np.logical_or] of two arrays of one length. *)
Definition np_logical_or (a b : list bool) : list bool :=
  map (fun p => orb (fst p) (snd p)) (combine a b).

(** [l[i]] for [i] in [range(...)]. *)
Definition list_get {A : Type} (l : list A) (i : nat) : result A :=
  match l !! i with
  | Some a => Ok a
  | None => Raise IndexError
  end.

(** [l[i] = v] for [i] in [range(...)]. *)
Definition list_set {A : Type} (l : list A) (i : nat) (v : A)
  : result (list A) :=
  if (i <? length l)%nat then Ok (<[i := v]> l) else Raise IndexError.

(** [arr[..., mask]]: a boolean index whose length is not that of the
    indexed axis raises [IndexError]. *)
Fixpoint select {A : Type} (mask : list bool) (arr : list A) : list A :=
  match mask, arr with
  | b :: mask', a :: arr' =>
      if b then a :: select mask' arr' else select mask' arr'
  | _, _ => []
  end.

Definition bool_index {A : Type} (arr : list A) (mask : list bool)
  : result (list A) :=
  if (length mask =? length arr)%nat then Ok (select mask arr)
  else Raise IndexError.

(** The rows [glob_id, star_id, ccd_id] written for the stars of one CCD. *)
Fixpoint idx_ref_ccd {A : Type} (glob_id star_id ccd_id : nat) (stars : list A)
  : list (nat * nat * nat) :=
  match stars with
  | [] => []
  | _ :: stars' =>
      (glob_id, star_id, ccd_id)
        :: idx_ref_ccd (S glob_id) (S star_id) ccd_id stars'
  end.

(** The table [idx_ref] after the two nested loops: every row of the
    zero-initialised table is written once. *)
Fixpoint build_idx_ref {A : Type} (glob_id ccd_id : nat)
  (star_list : list (list A)) : list (nat * nat * nat) :=
  match star_list with
  | [] => []
  | stars :: star_list' =>
      idx_ref_ccd glob_id 0 ccd_id stars
        ++ build_idx_ref (glob_id + length stars) (S ccd_id) star_list'
  end.

(** [erase_masks[ccd_id][star_id] = True] *)
Definition mark_erased (idx_ref : list (nat * nat * nat))
  (erase_masks : list (list bool)) (bad_id : nat)
  : result (list (list bool)) :=
  let* ref := list_get idx_ref bad_id in
  let star_id := snd (fst ref) in
  let ccd_id := snd ref in
  let* m := list_get erase_masks ccd_id in
  let* m' := list_set m star_id true in
  list_set erase_masks ccd_id m'.

(** The lists [outlier_rejection] overwrites, and the eight values it
    returns. *)
Record StarData (Stamp : Type) : Type := mkStarData {
  star_list : list (list Stamp);
  pos_list : list (list (R * R));
  mask_list : list (list Stamp);
  ccd_list : list Z;
  SNR_list : option (list (list R));
  RA_list : option (list (list R));
  DEC_list : option (list (list R))
}.
Arguments mkStarData {Stamp}.
Arguments star_list {Stamp}.
Arguments pos_list {Stamp}.
Arguments mask_list {Stamp}.
Arguments ccd_list {Stamp}.
Arguments SNR_list {Stamp}.
Arguments RA_list {Stamp}.
Arguments DEC_list {Stamp}.

(** [l[i] = l[i][mask]] on a list that may be [None]; subscripting [None]
    raises [TypeError]. *)
Definition overwrite_selected {A : Type} (l : list (list A)) (i : nat)
  (mask : list bool) : result (list (list A)) :=
  let* a := list_get l i in
  let* a' := bool_index a mask in
  list_set l i a'.

Definition overwrite_selected_opt {A : Type} (l : option (list (list A)))
  (i : nat) (mask : list bool) : result (option (list (list A))) :=
  match l with
  | None => Raise TypeError
  | Some l => let* l' := overwrite_selected l i mask in Ok (Some l')
  end.

(** One turn of the loop [for it_star in range(len(star_list))]. *)
Definition erase_step {Stamp : Type} (erase_masks : list (list bool))
  (d : StarData Stamp) (it_star : nat) : result (StarData Stamp) :=
  let* e := list_get erase_masks it_star in
  let mask := map negb e in
  let* star_list' := overwrite_selected (star_list d) it_star mask in
  let* mask_list' := overwrite_selected (mask_list d) it_star mask in
  let* pos_list' := overwrite_selected (pos_list d) it_star mask in
  let* SNR_list' :=
    match SNR_list d with
    | Some _ => overwrite_selected_opt (SNR_list d) it_star mask
    | None => Ok None
    end in
  let* radec :=
    match RA_list d with
    | Some _ =>
        let* ra := overwrite_selected_opt (RA_list d) it_star mask in
        let* dec := overwrite_selected_opt (DEC_list d) it_star mask in
        Ok (ra, dec)
    | None => Ok (RA_list d, DEC_list d)
    end in
  Ok (mkStarData star_list' pos_list' mask_list' (ccd_list d)
                 SNR_list' (fst radec) (snd radec)).

Section Outlier.

(** A star image or a mask image. *)
Variable Stamp : Type.

(** External collaborators: [np.rint(np.abs(mask - 1))] on one mask image
    and [hsm.FindAdaptiveMom(Image(star), badpix=Image(bp),
    strict=False)]. *)
Variable badpix_mask : Stamp -> Stamp.
Variable FindAdaptiveMom : Stamp -> Stamp -> Moments.

(** The rows of [star_shapes]. *)
Definition shape_row (moms : Moments) : R * R * R * R :=
  (observed_shape_g1 moms,
   observed_shape_g2 moms,
   (2 * moments_sigma moms ^ 2)%R,
   if String.eqb (error_message moms) "" then 0%R else 1%R).

Definition shape_e1 (s : R * R * R * R) : R := fst (fst (fst s)).
Definition shape_e2 (s : R * R * R * R) : R := snd (fst (fst s)).
Definition shape_R2 (s : R * R * R * R) : R := snd (fst s).

(** [star_shapes], from the concatenated stars and masks. *)
Definition measure_shapes (all_stars all_masks : list Stamp)
  : list (R * R * R * R) :=
  let badpix_masks := map badpix_mask all_masks in
  let star_moms :=
    map (fun sb => FindAdaptiveMom (fst sb) (snd sb))
        (combine all_stars badpix_masks) in
  map shape_row star_moms.

(** [shape_std_max * np.std(col) + np.mean(col)] *)
Definition shape_thresh (shape_std_max : R) (col : list R) : R :=
  (shape_std_max * np_std col + np_mean col)%R.

(** [star_shapes[:, k]]: an array built from an empty list of rows is
    one-dimensional, and indexing it with two indices raises
    [IndexError]. *)
Definition shape_column (k : R * R * R * R -> R)
  (star_shapes : list (R * R * R * R)) : result (list R) :=
  match star_shapes with
  | [] => Raise IndexError
  | _ => Ok (map k star_shapes)
  end.

(** [bad_stars], from [star_shapes]. *)
Definition find_bad_stars (shape_std_max : R)
  (star_shapes : list (R * R * R * R)) : result (list bool) :=
  let* R2 := shape_column shape_R2 star_shapes in
  let R2_thresh := shape_thresh shape_std_max R2 in
  let R2_bad_stars := abs_greater R2 R2_thresh in
  let* e2 := shape_column shape_e2 star_shapes in
  let e2_thresh := shape_thresh shape_std_max e2 in
  let e2_bad_stars := abs_greater e2 e2_thresh in
  let* e1 := shape_column shape_e1 star_shapes in
  let e1_thresh := shape_thresh shape_std_max e1 in
  let e1_bad_stars := abs_greater e1 e1_thresh in
  let bad_stars := np_logical_or e1_bad_stars e2_bad_stars in
  Ok (np_logical_or bad_stars R2_bad_stars).

(** The messages sent to [print_fun] are not modelled. *)
Definition outlier_rejection (d : StarData Stamp) (shape_std_max : R)
  : result (StarData Stamp * list (list bool)) :=
  let* all_stars := np_concatenate (star_list d) in
  let* all_masks := np_concatenate (mask_list d) in
  let star_shapes := measure_shapes all_stars all_masks in
  let* bad_stars := find_bad_stars shape_std_max star_shapes in
  let bad_stars_idx := np_nonzero bad_stars in
  let erase_masks :=
    map (fun stars => repeat false (length stars)) (star_list d) in
  if (0 <? length bad_stars_idx)%nat then
    let idx_ref := build_idx_ref 0 0 (star_list d) in
    let* erase_masks :=
      foldM (mark_erased idx_ref) erase_masks bad_stars_idx in
    let* d' :=
      foldM (erase_step erase_masks) d (seq 0 (length (star_list d))) in
    Ok (d', erase_masks)
  else
    Ok (d, erase_masks).

End Outlier.

(** ** Nearest neighbours *)

(** One row of [np.linalg.norm(obs_pos - new_pos, axis=1)]. *)
Definition row_norm (new_pos obs : R * R) : R :=
  sqrt ((fst obs - fst new_pos) ^ 2 + (snd obs - snd new_pos) ^ 2).

Definition Rleb (a b : R) : bool := if Rle_dec a b then true else false.

(** [np.argsort]: the indices in ascending order of their keys. NumPy leaves
    the order of equal keys open; here the earlier index comes first. *)
Fixpoint insert_by_key (k : R * nat) (l : list (R * nat)) : list (R * nat) :=
  match l with
  | [] => [k]
  | k' :: l' =>
      if Rleb (fst k) (fst k') then k :: l else k' :: insert_by_key k l'
  end.

Definition sort_by_key (l : list (R * nat)) : list (R * nat) :=
  fold_right insert_by_key [] l.

Definition np_argsort (keys : list R) : list nat :=
  map snd (sort_by_key (combine keys (seq 0 (length keys)))).

(** [arr[idxs]]: indexing with an array of indices. *)
Definition take_indices {A : Type} (arr : list A) (idxs : list nat)
  : result (list A) :=
  mapM (list_get arr) idxs.

Definition return_loc_neighbors {V : Type} (new_pos : R * R)
  (obs_pos : list (R * R)) (vals : list V) (n_neighbors : nat)
  : result (list V * list (R * R)) :=
  let distances := map (row_norm new_pos) obs_pos in
  let* nbs := take_indices vals (take n_neighbors (np_argsort distances)) in
  let* pos := take_indices obs_pos (take n_neighbors (np_argsort distances)) in
  Ok (nbs, pos).

(** The three rows of one entry of [dist_list], column by column:
    distance, CCD index, index inside the CCD. *)
Definition dist_columns (new_pos : R * R) (obs_pos : list (R * R))
  (ccd_n : nat) : list (R * nat * nat) :=
  map (fun pi => (row_norm new_pos (fst pi), ccd_n, snd pi))
      (combine obs_pos (seq 0 (length obs_pos))).

(** [val_list[c]] holds one column per star: [val_list[c].T[i, :]] is the
    entry [i] of the list of its columns. *)
Definition return_glob_neighbors {V : Type} (new_pos : R * R)
  (obs_pos_list : list (list (R * R))) (val_list : list (list V))
  (n_neighbors : nat) : result (list V * list (R * R)) :=
  let dist_list :=
    map (fun pc => dist_columns new_pos (fst pc) (snd pc))
        (combine obs_pos_list (seq 0 (length obs_pos_list))) in
  let* distances := np_concatenate dist_list in
  let sort_idxs :=
    take n_neighbors (np_argsort (map (fun t => fst (fst t)) distances)) in
  let* ccd_idxs :=
    take_indices (map (fun t => snd (fst t)) distances) sort_idxs in
  let* inter_ccd_idxs :=
    take_indices (map (fun t => snd t) distances) sort_idxs in
  let* values :=
    mapM (fun it =>
            let* c := list_get ccd_idxs it in
            let* vals := list_get val_list c in
            let* i := list_get inter_ccd_idxs it in
            list_get vals i)
         (seq 0 n_neighbors) in
  let* positions :=
    mapM (fun it =>
            let* c := list_get ccd_idxs it in
            let* obs_pos := list_get obs_pos_list c in
            let* i := list_get inter_ccd_idxs it in
            list_get obs_pos i)
         (seq 0 n_neighbors) in
  Ok (values, positions).

(** ** [interpolation_Pi] *)

(** A matrix is the list of its rows. *)
Definition matrix : Type := list (list R).

(** Modelled from the spec: [utils.poly_pos(pos, max_degree, normalice=False,
    center=False)] of the package [mccd_rca], which is not part of this
    module. It builds the design matrix of all the monomials of total degree
    at most [max_degree] in (x, y), one row per monomial and one column per
    position, neither normalised nor centred; the row of the constant
    monomial comes first, then the degrees in ascending order. Here the row
    of the monomial [x ^ (d - p) * y ^ p]. *)
Definition monomial_row (pos : list (R * R)) (d p : nat) : list R :=
  map (fun xy => (fst xy ^ (d - p) * snd xy ^ p)%R) pos.

(** Modelled from the spec: the matrix of [utils.poly_pos], the rows of the
    monomials of degree 0, 1, ..., [max_degree], (count
    [(max_degree + 1) * (max_degree + 2) / 2]). *)
Definition poly_pos (pos : list (R * R)) (max_degree : nat) : matrix :=
  flat_map (fun d => map (fun p => monomial_row pos d p) (seq 0 (S d)))
           (seq 0 (S max_degree)).

(** [np.sum(M[it, :] ** 2)] *)
Definition row_sum_sq (M : matrix) (it : nat) : result R :=
  let* r := list_get M it in
  Ok (np_sum (map (fun v => (v ^ 2)%R) r)).

(** The inner loop over the CCDs for one monomial, then the square root. *)
Definition global_norm (interp_Pi : list matrix) (n_ccd it : nat) : result R :=
  let* acc :=
    foldM (fun acc it_ccd =>
             let* M := list_get interp_Pi it_ccd in
             let* s := row_sum_sq M it in
             Ok (acc + s)%R)
          0%R (seq 0 n_ccd) in
  Ok (sqrt acc).

(** [M / sum_vals.reshape(-1, 1)]: row [i] of [M] is divided by
    [sum_vals[i]]; the two must have as many rows. *)
Definition div_rows (M : matrix) (sum_vals : list R) : result matrix :=
  if (length M =? length sum_vals)%nat
  then Ok (map (fun rs => map (fun v => (v / snd rs)%R) (fst rs))
               (combine M sum_vals))
  else Raise ValueError.

(** [M /= c] *)
Definition div_scalar (M : matrix) (c : R) : matrix :=
  map (map (fun v => (v / c)%R)) M.

(** [M[i, j]] *)
Definition matrix_get (M : matrix) (i j : nat) : result R :=
  let* r := list_get M i in
  list_get r j.

Definition interpolation_Pi (position_list : list (list (R * R)))
  (d_comp_glob : nat) : result (list matrix) :=
  let n_comp_glob := ((d_comp_glob + 1) * (d_comp_glob + 2) / 2)%nat in
  let interp_Pi :=
    map (fun interp_pos => poly_pos interp_pos d_comp_glob) position_list in
  let* sum_vals :=
    mapM (global_norm interp_Pi (length position_list))
         (seq 0 n_comp_glob) in
  let* interp_Pi := mapM (fun M => div_rows M sum_vals) interp_Pi in
  let* M0 := list_get interp_Pi 0 in
  let* norm_val := matrix_get M0 0 0 in
  Ok (map (fun M => div_scalar M norm_val) interp_Pi).

(** ** Class [MomentInterpolator] *)

(** A three-dimensional array: its shape and its entries, CCD by CCD, row by
    row. *)
Record ndarray3 : Type := mkNdarray3 {
  shape0 : nat;
  shape1 : nat;
  shape2 : nat;
  items : list (list (list R))
}.

(** [np.zeros((n0, n1, n2))] *)
Definition np_zeros3 (n0 n1 n2 : nat) : list (list (list R)) :=
  repeat (repeat (repeat 0%R n2) n1) n0.

(** [a[c, x, y]] *)
Definition get3 (a : list (list (list R))) (c x y : nat) : result R :=
  let* tile := list_get a c in
  let* r := list_get tile x in
  list_get r y.

(** [a[c, x, y] = v] *)
Definition set3 (a : list (list (list R))) (c x y : nat) (v : R)
  : result (list (list (list R))) :=
  let* tile := list_get a c in
  let* r := list_get tile x in
  let* r' := list_set r y v in
  let* tile' := list_set tile x r' in
  list_set a c tile'.

(** The triples the three nested [for ... in range(...)] go through, in
    order. *)
Definition grid_cells (n_ccd x_grid y_grid : nat) : list (nat * nat * nat) :=
  flat_map (fun ccd_it =>
    flat_map (fun it_x =>
      map (fun it_y => (ccd_it, it_x, it_y)) (seq 0 y_grid))
      (seq 0 x_grid))
    (seq 0 n_ccd).

(** Where the cell [(it_x, it_y)] of CCD [ccd_it] is stored. Inside the
    loops [it_x < x_grid] and [it_y < y_grid]: the subtractions stay in the
    natural numbers. *)
Definition reoriented (x_grid y_grid ccd_it it_x it_y : nat) : nat * nat :=
  if flipped (Z.of_nat ccd_it) then (it_x, it_y)
  else ((x_grid - it_x - 1)%nat, (y_grid - it_y - 1)%nat).

(** The body of the loops that correct the origin conventions. *)
Definition reorient_step (x_grid y_grid : nat)
  (moment_map : list (list (list R))) (self_moment_map : list (list (list R)))
  (cell : nat * nat * nat) : result (list (list (list R))) :=
  let '(ccd_it, it_x, it_y) := cell in
  let '(x, y) := reoriented x_grid y_grid ccd_it it_x it_y in
  let* v := get3 moment_map ccd_it it_x it_y in
  set3 self_moment_map ccd_it x y v.

(** [np.linspace(start, stop, num)] *)
Definition np_linspace (start stop : R) (num : nat) : list R :=
  map (fun i => (start + INR i * ((stop - start) / INR (num - 1)))%R)
      (seq 0 num).

(** [np.meshgrid(x_lin, y_lin, indexing='ij')] *)
Definition np_meshgrid_ij (x_lin y_lin : list R) : matrix * matrix :=
  (map (fun x => map (fun _ => x) y_lin) x_lin,
   map (fun _ => y_lin) x_lin).

(** [M.flatten()] and [v.reshape(n_rows, n_cols)] *)
Definition flatten (M : matrix) : list R := concat M.

Definition reshape (v : list R) (n_rows n_cols : nat) : matrix :=
  map (fun i => take n_cols (drop (i * n_cols) v)) (seq 0 n_rows).

(** [loc2glob_img_coord] called on two arrays of coordinates: the flip and
    the shift act entry by entry, and the shift is looked up once. *)
Definition loc2glob_img_coord_array (self : Loc2Glob) (ccd_n : Z)
  (x_coor y_coor : list R) : result (list R * list R) :=
  let x_coor :=
    if flipped ccd_n
    then map (fun x => (IZR (x_npix self) - x + 1)%R) x_coor else x_coor in
  let y_coor :=
    if flipped ccd_n
    then map (fun y => (IZR (y_npix self) - y + 1)%R) y_coor else y_coor in
  match shift_coord self ccd_n with
  | None => Raise TypeError
  | Some (x_shift, y_shift) =>
      Ok (map (fun x => (x + x_shift)%R) x_coor,
          map (fun y => (y + y_shift)%R) y_coor)
  end.

Record MomentInterpolator : Type := mkMomentInterpolator {
  mi_loc2glob : Loc2Glob;
  mi_n_neighbors : nat;
  mi_rbf_function : string;
  mi_moment_map : list (list (list R));
  mi_n_ccd : nat;
  mi_x_grid : nat;
  mi_y_grid : nat;
  mi_bin_x : R;
  mi_bin_y : R;
  mi_xv : matrix;
  mi_yv : matrix;
  mi_x_pos : list matrix;
  mi_y_pos : list matrix
}.

(** [a / b] on two Python integers. *)
Definition int_truediv (a : Z) (b : nat) : result R :=
  match b with
  | O => Raise ZeroDivisionError
  | _ => Ok (IZR a / INR b)%R
  end.

(** [MomentInterpolator.__init__] *)
Definition MomentInterpolator_init (moment_map : ndarray3)
  (n_neighbors : nat) (rbf_function : string) : result MomentInterpolator :=
  let l2g := Loc2Glob_default in
  let self_moment_map :=
    np_zeros3 (shape0 moment_map) (shape1 moment_map) (shape2 moment_map) in
  let x_pix := x_npix l2g in
  let y_pix := y_npix l2g in
  let n_ccd := shape0 moment_map in
  let x_grid := shape1 moment_map in
  let y_grid := shape2 moment_map in
  let* bin_x := int_truediv x_pix x_grid in
  let* bin_y := int_truediv y_pix y_grid in
  let* self_moment_map :=
    foldM (reorient_step x_grid y_grid (items moment_map))
          self_moment_map (grid_cells n_ccd x_grid y_grid) in
  let x_lin := np_linspace (bin_x / 2) (IZR x_pix - bin_x / 2) x_grid in
  let y_lin := np_linspace (bin_y / 2) (IZR y_pix - bin_y / 2) y_grid in
  let '(xv, yv) := np_meshgrid_ij x_lin y_lin in
  let* pos :=
    mapM (fun ccd_it =>
            let* g := loc2glob_img_coord_array l2g (Z.of_nat ccd_it)
                        (flatten xv) (flatten yv) in
            Ok (reshape (fst g) x_grid y_grid, reshape (snd g) x_grid y_grid))
         (seq 0 n_ccd) in
  Ok (mkMomentInterpolator l2g n_neighbors rbf_function self_moment_map
        n_ccd x_grid y_grid bin_x bin_y xv yv (map fst pos) (map snd pos)).

(** ** The other functions of the module *)

(** [np.argwhere(idx)[0][0]]: the index of the first true entry; without a
    true entry [np.argwhere(idx)] is empty and its row 0 raises. *)
Definition first_true (idx : list bool) : result nat :=
  match np_nonzero idx with
  | [] => Raise IndexError
  | i :: _ => Ok i
  end.

Definition find_ccd_idx (ccd_id : Z) (ccd_list : list Z) : result nat :=
  let idx := map (fun ccd_i => Z.eqb ccd_id ccd_i) ccd_list in
  first_true idx.

(** [preprocess_data] and [proprocess_pipeline_data]: the object after the
    parsing and the ids they return. *)
Definition preprocess_data (glob_glob : string -> list string)
  (self : MccdInputs) (folder_path pattern : string)
  : result (MccdInputs * option (list string)) :=
  let* self := parse_folder glob_glob self folder_path pattern in
  Ok (self, catalog_ids self).

Definition proprocess_pipeline_data (self : MccdInputs)
  (input_list : list (list string)) (element_position : Z)
  : result (MccdInputs * option (list string)) :=
  let* self := parse_pipeline_input_list self input_list element_position in
  Ok (self, catalog_ids self).

(** [get_inputs]: iterating over [self.starcat_list] while it is [None]
    raises [TypeError]; [starcat[0, 0]] is the exposure id of the first row
    of a group. The message it prints is not modelled. *)
Definition get_inputs (fits_open : string -> result StarCat)
  (astype_int : string -> result Z) (rca_format : list R -> list R)
  (self : MccdInputs) (catalog_id : string) : result PrepOut :=
  match starcat_list self with
  | None => Raise TypeError
  | Some groups =>
      let* idx :=
        mapM (fun starcat =>
                let* r := list_get starcat 0 in
                Ok (String.eqb catalog_id (row_id r)))
             groups in
      let* idx := first_true idx in
      let* starcat_array := list_get groups idx in
      prep_mccd_inputs fits_open astype_int rca_format self starcat_array
  end.

(** [l[0:k]] and [l[k:]] with Python's negative bounds. *)
Definition py_slice_to {A : Type} (l : list A) (k : Z) : list A :=
  if k <? 0 then take (Z.to_nat (Z.of_nat (length l) + k)) l
  else take (Z.to_nat k) l.

Definition py_slice_from {A : Type} (l : list A) (k : Z) : list A :=
  if k <? 0 then drop (Z.to_nat (Z.of_nat (length l) + k)) l
  else drop (Z.to_nat k) l.

(** [random_indexes]: [sample] stands for the draw
    [np.random.randn(n_tot)]; [Int_part] is the floor of a real number. *)
Definition random_indexes (sample : list R) (n_tot : nat) (train_per : R)
  (min_n_train : Z) : list nat * list nat :=
  let train_star_nb := Z.max (Int_part (train_per * INR n_tot)) min_n_train in
  let rand_seq := np_argsort sample in
  let train_idx := py_slice_to rand_seq train_star_nb in
  let test_idx := py_slice_from rand_seq train_star_nb in
  (train_idx, test_idx).

(** [a.flatten()] of a three-dimensional array. *)
Definition flatten3 (a : list (list (list R))) : list R :=
  concat (map flatten a).

(** [interpolate_position]: [Rbf] stands for [scipy.interpolate.Rbf]; the
    construction of the interpolant from the samples and the kernel name
    may raise, and so may its evaluation at a point. *)
Definition interpolate_position
  (Rbf : list R -> list R -> list R -> string ->
         result (R -> R -> result R))
  (self : MomentInterpolator) (target_x target_y : R) : result R :=
  let res_x := map (fun x => (x - target_x)%R) (flatten3 (mi_x_pos self)) in
  let res_y := map (fun y => (y - target_y)%R) (flatten3 (mi_y_pos self)) in
  let dist :=
    map (fun r => sqrt (fst r ^ 2 + snd r ^ 2)) (combine res_x res_y) in
  let sort_idxs := take (mi_n_neighbors self) (np_argsort dist) in
  let* x_pos_interp := take_indices (flatten3 (mi_x_pos self)) sort_idxs in
  let* y_pos_interp := take_indices (flatten3 (mi_y_pos self)) sort_idxs in
  let* val_interp :=
    take_indices (flatten3 (mi_moment_map self)) sort_idxs in
  let* rbf :=
    Rbf x_pos_interp y_pos_interp val_interp (mi_rbf_function self) in
  let* output_val := rbf target_x target_y in
  Ok output_val.

(** ** The coordinate table as the specification words it *)

Definition spec_flip (self : Loc2Glob) (id : Z) (x y : R) : R * R :=
  if (id <? 18) || (id =? 36) || (id =? 37)
  then ((IZR (x_npix self) - x + 1)%R, (IZR (y_npix self) - y + 1)%R)
  else (x, y).

Definition spec_shift (self : Loc2Glob) (id : Z) : R * R :=
  let w := IZR (x_gap self + x_npix self) in
  let h := IZR (y_gap self + y_npix self) in
  if id <? 9 then ((IZR (id - 4) * w)%R, h)
  else if id <? 18 then ((IZR (id - 13) * w)%R, 0%R)
  else if id <? 27 then ((IZR (id - 22) * w)%R, (- h)%R)
  else if id <? 36 then ((IZR (id - 31) * w)%R, (- (2 * h))%R)
  else if id =? 36 then ((- (5 * w))%R, 0%R)
  else if id =? 37 then ((5 * w)%R, 0%R)
  else if id =? 38 then ((- (5 * w))%R, (- h)%R)
  else ((5 * w)%R, (- h)%R).

Definition toGlobal_spec (self : Loc2Glob) (id : Z) (x y : R) : R * R :=
  let '(x', y') := spec_flip self id x y in
  let '(dx, dy) := spec_shift self id in
  ((x' + dx)%R, (y' + dy)%R).

(** ** The all-or-nothing policy of the optional columns *)

(** The column [name] of the catalogue of a row, when the file opens and
    has it. *)
Definition row_column (fits_open : string -> result StarCat) (r : row)
  (name : string) : option (list R) :=
  match fits_open (row_path r) with
  | Ok starcat => starcat name
  | Raise _ => None
  end.

(** All the entries when every one is present, nothing otherwise. *)
Fixpoint all_or_nothing {A : Type} (l : list (option A)) : option (list A) :=
  match l with
  | [] => Some []
  | Some a :: l' =>
      match all_or_nothing l' with
      | Some r => Some (a :: r)
      | None => None
      end
  | None :: _ => None
  end.

(** The two sky columns of a row, when it has both. *)
Definition row_sky (fits_open : string -> result StarCat) (r : row)
  : option (list R * list R) :=
  match row_column fits_open r "XWIN_WORLD",
        row_column fits_open r "YWIN_WORLD" with
  | Some ra, Some dec => Some (ra, dec)
  | _, _ => None
  end.

(** A row [prep_mccd_inputs] can assemble: the file opens, the CCD id is an
    integer below 40, and the position and stamp columns are there. *)
Definition row_readable (fits_open : string -> result StarCat)
  (astype_int : string -> result Z) (self : MccdInputs) (r : row) : Prop :=
  exists starcat ccd xs ys vignet,
    fits_open (row_path r) = Ok starcat /\
    astype_int (row_ccd r) = Ok ccd /\ ccd < 40 /\
    starcat (coord_x_descriptor self) = Some xs /\
    starcat (coord_y_descriptor self) = Some ys /\
    starcat "VIGNET"%string = Some vignet.

(** What one turn of the loop does to the three optional lists. *)
Definition snr_after (acc : option (list (list R))) (c : option (list R))
  : option (list (list R)) :=
  match acc, c with
  | Some l, Some c => Some (l ++ [c])
  | _, _ => None
  end.

Definition sky_after (ra dec : option (list (list R)))
  (c : option (list R * list R))
  : option (list (list R)) * option (list (list R)) :=
  match ra, dec, c with
  | Some l, Some l', Some (a, b) => (Some (l ++ [a]), Some (l' ++ [b]))
  | _, _, _ => (None, None)
  end.

(** ** What the batcher produces *)

(** The row read from one path. *)
Definition parses_to (self : MccdInputs) (path : string) (r : row) : Prop :=
  parse_path self path = Ok (row_id r, row_ccd r) /\ row_path r = path.

(** One group per distinct exposure id: the ids are the distinct exposure
    ids of the rows, and the group of an id holds all the rows of that
    exposure, in the order of the rows. *)
Definition grouped_by_exposure (rows : list row) (st : MccdInputs) : Prop :=
  exists ids groups,
    catalog_ids st = Some ids /\
    starcat_list st = Some groups /\
    num_catalogs st = Some (length ids) /\
    NoDup ids /\
    (forall id, In id ids <-> exists r, In r rows /\ row_id r = id) /\
    Forall2 (fun id g =>
               g = List.filter (fun r => String.eqb (row_id r) id) rows /\
               g <> [])
            ids groups.

(** Sample input lists. *)
Definition sample_input_list : list (list string) :=
  [["x-1-04.fits"]; ["x-2-04.fits"]; ["y-2-05.fits"]]%string.

Definition sample_glob (_ : string) : list string :=
  ["y-2-05.fits"; "x-2-04.fits"; "x-1-04.fits"]%string.

Definition sample_rows : list row :=
  [("1", "04", "x-1-04.fits"); ("2", "04", "x-2-04.fits");
   ("2", "05", "y-2-05.fits")]%string.

(** A catalogue without the column [SNR_WIN], and readers that return it. *)
Definition sample_starcat : StarCat :=
  fun name => if String.eqb name "SNR_WIN" then None else Some [].

Definition sample_fits_open (_ : string) : result StarCat := Ok sample_starcat.

Definition sample_astype_int (_ : string) : result Z := Ok 4.

Definition duplicate_input_list : list (list string) :=
  [["a-1-04.fits"]; ["b-1-04.fits"]]%string.

(** ** What the outlier rejector decides *)

(** The threshold of one shape quantity, as the specification words it. *)
Definition spec_thresh (sigma : R) (col : list R) : R :=
  (np_mean col + sigma * np_std col)%R.

(** A star is an outlier of the batch whose shapes are [shapes] when the
    magnitude of one of its three shape quantities exceeds the threshold of
    that quantity. *)
Definition is_outlier (e1 e2 R2 : R * R * R * R -> R) (sigma : R)
  (shapes : list (R * R * R * R)) (s : R * R * R * R) : Prop :=
  (Rabs (e1 s) > spec_thresh sigma (map e1 shapes))%R \/
  (Rabs (e2 s) > spec_thresh sigma (map e2 shapes))%R \/
  (Rabs (R2 s) > spec_thresh sigma (map R2 shapes))%R.

(** Two per-CCD lists hold as many stars, CCD by CCD. *)
Definition same_counts {A B : Type} (l : list (list A)) (l' : list (list B))
  : Prop :=
  Forall2 (fun a b => length a = length b) l l'.

Definition same_counts_opt {A B : Type} (l : list (list A))
  (l' : option (list (list B))) : Prop :=
  match l' with
  | Some l' => same_counts l l'
  | None => True
  end.

(** An assembled batch: at least one CCD, parallel lists of one shape, and
    the two sky lists present together. *)
Definition assembled {Stamp : Type} (d : StarData Stamp) : Prop :=
  star_list d <> [] /\
  same_counts (star_list d) (mask_list d) /\
  same_counts (star_list d) (pos_list d) /\
  same_counts_opt (star_list d) (SNR_list d) /\
  same_counts_opt (star_list d) (RA_list d) /\
  same_counts_opt (star_list d) (DEC_list d) /\
  (RA_list d = None <-> DEC_list d = None).

(** The keep-mask of every CCD applied to a per-CCD list. *)
Definition select_all {A : Type} (keep : list (list bool)) (l : list (list A))
  : list (list A) :=
  map (fun ka => select (fst ka) (snd ka)) (combine keep l).

(** A batch of two CCDs, one star in the first and two in the second, with
    an estimator that reads [e1] off the stamp; the last star stands out. *)
Definition stamp_moments (star _ : R) : Moments := mkMoments star 0 0 "".

Definition two_ccd_batch : StarData R :=
  mkStarData [[0%R]; [0%R; 3%R]]
             [[(1%R, 1%R)]; [(2%R, 2%R); (3%R, 3%R)]]
             [[1%R]; [1%R; 1%R]]
             [4; 22]
             (Some [[10%R]; [20%R; 30%R]]) None None.


(** The keep-masks applied to the first [k] CCDs only: the lists as they
    are after [k] turns of the erasing loop. *)
Definition select_upto {A : Type} (k : nat) (keep : list (list bool))
  (l : list (list A)) : list (list A) :=
  select_all (take k keep) (take k l) ++ drop k l.

(** One selection applied to every list of a batch but the CCD ids. *)
Definition select_data {Stamp : Type}
  (sel : forall A : Type, list (list A) -> list (list A))
  (d : StarData Stamp) : StarData Stamp :=
  mkStarData (sel Stamp (star_list d)) (sel (R * R)%type (pos_list d))
             (sel Stamp (mask_list d)) (ccd_list d)
             (option_map (sel R) (SNR_list d))
             (option_map (sel R) (RA_list d))
             (option_map (sel R) (DEC_list d)).

(** A batch of one CCD with one star, measured by an estimator that
    returns the same moments for every image. *)
Definition sample_moments (_ _ : unit) : Moments := mkMoments 0 0 0 "".

Definition sample_batch : StarData unit :=
  mkStarData [[tt]] [[(0%R, 0%R)]] [[tt]] [4] None None None.

(** ** The two stages of the normalisation of the Pi matrices *)

(** The values of the monomial [m] on all the CCDs, side by side. *)
Definition row_across_ccds (position_list : list (list (R * R)))
  (d_comp_glob m : nat) : list R :=
  concat (map (fun pos => nth m (poly_pos pos d_comp_glob) []) position_list).

(** The L2 norm of the monomial [m] over all the CCDs together. *)
Definition global_row_norm (position_list : list (list (R * R)))
  (d_comp_glob m : nat) : R :=
  sqrt (np_sum (map (fun v => (v ^ 2)%R)
                    (row_across_ccds position_list d_comp_glob m))).

Definition spec_norms (position_list : list (list (R * R)))
  (d_comp_glob : nat) : list R :=
  map (global_row_norm position_list d_comp_glob)
      (seq 0 ((d_comp_glob + 1) * (d_comp_glob + 2) / 2)).

(** First stage: every monomial row of every matrix over its global norm. *)
Definition spec_stage1 (position_list : list (list (R * R)))
  (d_comp_glob : nat) : list matrix :=
  map (fun pos =>
         map (fun rs => map (fun v => (v / snd rs)%R) (fst rs))
             (combine (poly_pos pos d_comp_glob)
                      (spec_norms position_list d_comp_glob)))
      position_list.

(** Second stage: every entry over one scalar. *)
Definition spec_stage2 (Pi : list matrix) (c : R) : list matrix :=
  map (map (map (fun v => (v / c)%R))) Pi.

(** ** The reorientation of the moment grid *)

(** The entries of a three-dimensional array fill its shape. *)
Definition has_shape (n0 n1 n2 : nat) (a : list (list (list R))) : Prop :=
  length a = n0 /\
  Forall (fun tile => length tile = n1 /\
                      Forall (fun r => length r = n2) tile) a.

(** Where the specification puts the cell [(r, c)] of the tile [id]: the same
    place for the tiles that [flip_coord] flips, the place mirrored on both
    axes for the others. *)
Definition spec_reoriented (x_grid y_grid id r c : nat) : nat * nat :=
  if (id <? 18)%nat || (id =? 36)%nat || (id =? 37)%nat then (r, c)
  else ((x_grid - 1 - r)%nat, (y_grid - 1 - c)%nat).

(** The cell a turn of the reorientation loop writes. *)
Definition reorient_target (x_grid y_grid : nat) (cell : nat * nat * nat)
  : nat * nat * nat :=
  let '(ccd_it, it_x, it_y) := cell in
  (ccd_it, fst (reoriented x_grid y_grid ccd_it it_x it_y),
   snd (reoriented x_grid y_grid ccd_it it_x it_y)).

Definition in_grid (n0 n1 n2 : nat) (cell : nat * nat * nat) : Prop :=
  let '(c, x, y) := cell in (c < n0)%nat /\ (x < n1)%nat /\ (y < n2)%nat.

(** [a[c, x, y]] for a cell given as a triple. *)
Definition get_cell (a : list (list (list R))) (cell : nat * nat * nat)
  : result R :=
  let '(c, x, y) := cell in get3 a c x y.

(** A sample grid: two tiles of one row of two cells. *)
Definition sample_moment_map : ndarray3 :=
  mkNdarray3 2 1 2 [[[1%R; 2%R]]; [[3%R; 4%R]]].

(** The order of [np.argsort] on the pairs of a key and an index. *)
Definition key_le (a b : R * nat) : Prop := (fst a <= fst b)%R.

(** The order of [np.unique] on strings. *)
Definition str_lt (a b : string) : Prop := String.compare a b = Lt.

(** ** The layout of the mosaic *)

(** The column and the row of a tile in the mosaic, in units of the pitch
    of the tiles (gap plus extent), read off the branches of
    [shift_coord]. *)
Definition tile_col (id : Z) : Z :=
  if id <? 9 then id - 4
  else if id <? 18 then id - 13
  else if id <? 27 then id - 22
  else if id <? 36 then id - 31
  else if id =? 36 then -5
  else if id =? 37 then 5
  else if id =? 38 then -5
  else 5.

Definition tile_row (id : Z) : Z :=
  if id <? 9 then 1
  else if id <? 18 then 0
  else if id <? 27 then -1
  else if id <? 36 then -2
  else if id <? 38 then 0
  else -1.

(** A position on the chip, half a pixel of margin included. *)
Definition on_chip (self : Loc2Glob) (x y : R) : Prop :=
  (0 < x < IZR (x_npix self) + 1)%R /\ (0 < y < IZR (y_npix self) + 1)%R.

(** ** File names *)

(** The character [c] occurs in [s]. *)
Fixpoint has_char (c : ascii) (s : string) : bool :=
  match s with
  | EmptyString => false
  | String a s' => Ascii.eqb c a || has_char c s'
  end.

(** The token [split_go] is reading: the characters kept so far, then [t]. *)
Definition token (cur : list ascii) (t : string) : string :=
  string_of_list_ascii (rev cur ++ list_ascii_of_string t).

(** The rows [parse_pipeline_input_list] reads from its input list. *)
Definition pipeline_rows (self : MccdInputs) (input_list : list (list string))
  (element_position : Z) (rows : list row) : Prop :=
  Forall2 (fun path r =>
             exists e, py_index path element_position = Ok e /\
                       parses_to self e r)
          input_list rows.

(** What [prep_mccd_inputs] stores for the catalogue of one row: the cast
    tile id, the positions of the zipped coordinates in the mosaic, and the
    mask and the masked stamps of the formatted vignets. *)
Definition prep_entry (fits_open : string -> result StarCat)
  (astype_int : string -> result Z) (rca_format : list R -> list R)
  (self : MccdInputs) (r : row)
  (e : list R * list (R * R) * list R * Z) : Prop :=
  let '(stars, positions, masks, ccd) := e in
  exists starcat xs ys vignet,
    fits_open (row_path r) = Ok starcat /\
    astype_int (row_ccd r) = Ok ccd /\
    data_get starcat (coord_x_descriptor self) = Ok xs /\
    data_get starcat (coord_y_descriptor self) = Ok ys /\
    data_get starcat "VIGNET" = Ok vignet /\
    Forall2 (fun xy p =>
               loc2glob_img_coord (loc2glob self) ccd (fst xy) (snd xy) = Ok p)
            (combine xs ys) positions /\
    handle_mask (rca_format vignet) (mask_thresh self) true = (masks, stars).

(** A catalogue of one star whose every column is there, and a cast that
    reads tile 40 from every row. *)
Definition one_star_catalogue : StarCat := fun _ => Some [1%R].

Definition one_star_fits_open (_ : string) : result StarCat :=
  Ok one_star_catalogue.

Definition astype_int_40 (_ : string) : result Z := Ok 40.





(** The two coordinates of [loc2glob_img_coord] for a tile whose shift is
    known: the flip, then the shift. *)
Definition global_x (self : Loc2Glob) (ccd_n : Z) (x_shift x : R) : R :=
  ((if flipped ccd_n then IZR (x_npix self) - x + 1 else x) + x_shift)%R.

Definition global_y (self : Loc2Glob) (ccd_n : Z) (y_shift y : R) : R :=
  ((if flipped ccd_n then IZR (y_npix self) - y + 1 else y) + y_shift)%R.

(** The centre of the bin [i] of an axis of [pix] pixels cut in [n] bins. *)
Definition bin_centre (pix : Z) (n i : nat) : R :=
  ((INR i + 1 / 2) * (IZR pix / INR n))%R.

(** The distance of a point to the target of [interpolate_position]. *)
Definition bin_distance (target_x target_y : R) (p : R * R) : R :=
  sqrt ((fst p - target_x) ^ 2 + (snd p - target_y) ^ 2).

(** An interpolant that refuses an empty set of samples and else returns
    its first sample value, for want of [scipy]. *)
Definition sample_Rbf (_ _ vals : list R) (_ : string)
  : result (R -> R -> result R) :=
  match vals with
  | [] => Raise ValueError
  | v :: _ => Ok (fun _ _ => Ok v)
  end.

(** The order of [file_paths.sort()]. *)
Definition path_le (a b : string) : Prop := String.leb a b = true.

(** Two listings of one folder, in two orders. *)
Definition glob_ab (_ : string) : list string :=
  ["b-1-04.fits"; "a-1-05.fits"]%string.

Definition glob_ba (_ : string) : list string :=
  ["a-1-05.fits"; "b-1-04.fits"]%string.

(** The value of [bad_stars] once the three columns of [star_shapes] were
    read: the flags of the stars of a batch in which a star was measured. *)
Definition bad_stars_of (shape_std_max : R)
  (star_shapes : list (R * R * R * R)) : list bool :=
  let R2 := map shape_R2 star_shapes in
  let e2 := map shape_e2 star_shapes in
  let e1 := map shape_e1 star_shapes in
  np_logical_or
    (np_logical_or (abs_greater e1 (shape_thresh shape_std_max e1))
                   (abs_greater e2 (shape_thresh shape_std_max e2)))
    (abs_greater R2 (shape_thresh shape_std_max R2)).


Definition empty_ccds_batch : StarData unit :=
  mkStarData [[]; []] [[]; []] [[]; []] [4; 22] (Some [[]; []]) None None.

(** * Properties *)

(** ** Coordinate mapping *)

Ltac split_ltb :=
  repeat match goal with
         | |- context [Z.ltb ?a ?b] =>
             let H := fresh "H" in destruct (Z.ltb_spec a b) as [H | H]
         | |- context [Z.eqb ?a ?b] =>
             let H := fresh "H" in destruct (Z.eqb_spec a b) as [H | H]
         end.

Lemma flipped_spec (ccd_n : Z) :
  flipped ccd_n = (ccd_n <? 18) || (ccd_n =? 36) || (ccd_n =? 37).
Proof. unfold flipped, in_36_37. now rewrite orb_assoc. Qed.

Lemma shift_coord_spec (self : Loc2Glob) (id : Z) :
  0 <= id < 40 -> shift_coord self id = Some (spec_shift self id).
Proof.
  intros Hid. unfold shift_coord, spec_shift.
  split_ltb; try lia; cbn zeta;
    repeat rewrite mult_IZR; repeat f_equal; try lra.
Qed.

(** C1: on the tile ids 0..39 the mapping is the flip of the ids below 18
    and of 36 and 37, followed by the shift of the fixed table of rows and
    ears; it is a function of the tile id and the local position. *)
Theorem loc2glob_img_coord_table (self : Loc2Glob) (id : Z) (x y : R) :
  0 <= id < 40 ->
  loc2glob_img_coord self id x y = Ok (toGlobal_spec self id x y).
Proof.
  intros Hid. unfold loc2glob_img_coord, toGlobal_spec, flip_coord, spec_flip.
  rewrite (shift_coord_spec self id Hid), flipped_spec.
  destruct ((id <? 18) || (id =? 36) || (id =? 37));
    destruct (spec_shift self id); reflexivity.
Qed.

Lemma loc2glob_img_coord_table_witness :
  0 <= 36 < 40 /\
  loc2glob_img_coord Loc2Glob_default 36 1 1
  = Ok (toGlobal_spec Loc2Glob_default 36 1 1).
Proof.
  split; [lia | apply (loc2glob_img_coord_table Loc2Glob_default 36 1 1); lia].
Defined.

Ltac reference_point :=
  unfold loc2glob_img_coord, flip_coord, shift_coord; cbn;
  repeat f_equal;
  repeat (rewrite mult_IZR || rewrite plus_IZR || rewrite minus_IZR);
  lra.

(** The table at the local position (1, 1) of one tile of each row and of
    each ear, with the default geometry. *)
Example loc2glob_reference_points :
  loc2glob_img_coord Loc2Glob_default 4 1 1 = Ok (2048%R, 9649%R) /\
  loc2glob_img_coord Loc2Glob_default 13 1 1 = Ok (2048%R, 4612%R) /\
  loc2glob_img_coord Loc2Glob_default 22 1 1 = Ok (1%R, (-5036)%R) /\
  loc2glob_img_coord Loc2Glob_default 31 1 1 = Ok (1%R, (-10073)%R) /\
  loc2glob_img_coord Loc2Glob_default 36 1 1 = Ok ((-8542)%R, 4612%R) /\
  loc2glob_img_coord Loc2Glob_default 37 1 1 = Ok (12638%R, 4612%R) /\
  loc2glob_img_coord Loc2Glob_default 38 1 1 = Ok ((-10589)%R, (-5036)%R) /\
  loc2glob_img_coord Loc2Glob_default 39 1 1 = Ok (10591%R, (-5036)%R).
Proof. repeat split; reference_point. Qed.

Lemma shift_coord_none (self : Loc2Glob) (id : Z) :
  shift_coord self id = None <-> 40 <= id.
Proof.
  unfold shift_coord. split_ltb; split; intros; try lia; try discriminate;
    reflexivity.
Qed.

Lemma loc2glob_img_coord_total (self : Loc2Glob) (id : Z) (x y : R) :
  id < 40 -> exists g, loc2glob_img_coord self id x y = Ok g.
Proof.
  intros Hlt. unfold loc2glob_img_coord.
  destruct (flip_coord self id x y) as [x' y'].
  destruct (shift_coord self id) as [[dx dy] | ] eqn:Hs; [eauto | ].
  apply (proj1 (shift_coord_none self id)) in Hs. lia.
Qed.

(** C5, as the code has it: the mapping raises exactly from tile id 40 on,
    and what it raises is the [TypeError] of unpacking [None]; every id
    below 40, the negative ones included, gets a position. *)
Theorem loc2glob_img_coord_raises (self : Loc2Glob) (id : Z) (x y : R) :
  (loc2glob_img_coord self id x y = Raise TypeError <-> 40 <= id) /\
  ((exists g, loc2glob_img_coord self id x y = Ok g) <-> id < 40).
Proof.
  unfold loc2glob_img_coord.
  destruct (flip_coord self id x y) as [x' y'].
  destruct (shift_coord self id) as [[dx dy] | ] eqn:Hs.
  - assert (Hlt : id < 40).
    { destruct (Z_lt_ge_dec id 40) as [Hl | Hg]; [exact Hl | ].
      apply Z.ge_le in Hg. apply (proj2 (shift_coord_none self id)) in Hg.
      congruence. }
    split; split; intros H; try discriminate; try lia; eauto.
  - apply (proj1 (shift_coord_none self id)) in Hs.
    split; split; intros H; try lia; try reflexivity.
    destruct H as [g Hg]. discriminate.
Qed.

(** C5 fails below the range: the tile id -1 is mapped like a tile of the
    first row, five columns left of the centre. *)
Lemma loc2glob_img_coord_negative_id :
  ~ (0 <= -1 < 40) /\
  exists gx gy,
    loc2glob_img_coord Loc2Glob_default (-1) 0 0 = Ok (gx, gy) /\
    gx = (-8541)%R /\ gy = 9650%R.
Proof.
  split; [lia | ].
  unfold loc2glob_img_coord, flip_coord, shift_coord. cbn.
  do 2 eexists. split; [reflexivity | ].
  change ((-1 - 4) * (70 + 2048)) with (-10590).
  change (425 + 4612) with 5037. split; lra.
Qed.

(** ** Masks *)

Lemma set_where_lookup {A : Type} (f : A -> bool) (g : A -> R) (v : R)
  (l : list A) (i : nat) :
  set_where (map f l) v (map g l) !! i
  = (fun a => if f a then v else g a) <$> l !! i.
Proof.
  revert i; induction l as [ | a l IH]; intros i; [now destruct i | ].
  destruct i as [ | i]; cbn; [reflexivity | apply IH].
Qed.

(** C9: the mask is 0 where the stamp is strictly below the threshold and 1
    elsewhere, and with [apply_to_stars] the stamp is zeroed at these
    indices and kept elsewhere. *)
Theorem handle_mask_pointwise (stars : list R) (thresh : R)
  (apply_to_stars : bool) (i : nat) :
  fst (handle_mask stars thresh apply_to_stars) !! i
  = (fun s => if Rlt_dec s thresh then 0%R else 1%R) <$> stars !! i
  /\
  snd (handle_mask stars thresh apply_to_stars) !! i
  = (fun s => if apply_to_stars
              then (if Rlt_dec s thresh then 0%R else s)
              else s) <$> stars !! i.
Proof.
  unfold handle_mask, np_less, np_ones_like. cbn [fst snd]. split.
  - rewrite set_where_lookup. destruct (stars !! i) as [s | ]; cbn; [ | easy].
    unfold Rltb. now destruct (Rlt_dec s thresh).
  - destruct apply_to_stars.
    + rewrite <- (map_id stars) at 2. rewrite set_where_lookup.
      destruct (stars !! i) as [s | ]; cbn; [ | easy].
      unfold Rltb. now destruct (Rlt_dec s thresh).
    + now destruct (stars !! i).
Qed.

(** A pixel equal to the threshold stays valid. *)
Lemma handle_mask_at_thresh (stars : list R) (thresh : R) (b : bool) (i : nat) :
  stars !! i = Some thresh ->
  fst (handle_mask stars thresh b) !! i = Some 1%R /\
  snd (handle_mask stars thresh b) !! i = Some thresh.
Proof.
  intros Hi. unfold handle_mask, np_less, np_ones_like. cbn [fst snd].
  assert (Hge : Rltb thresh thresh = false).
  { unfold Rltb. destruct (Rlt_dec thresh thresh) as [Hlt | _];
      [exfalso; exact (Rlt_irrefl _ Hlt) | reflexivity]. }
  split.
  - rewrite set_where_lookup, Hi. cbn. now rewrite Hge.
  - destruct b; [ | exact Hi].
    rewrite <- (map_id stars) at 2. rewrite set_where_lookup, Hi. cbn.
    now rewrite Hge.
Qed.

(** ** Assembling an exposure *)

Lemma mapM_total {A B : Type} (f : A -> result B) (l : list A) :
  (forall a, In a l -> exists b, f a = Ok b) ->
  exists bs, mapM f l = Ok bs /\ length bs = length l.
Proof.
  induction l as [ | a l IH]; intros Hf; [now exists [] | ].
  destruct (Hf a (or_introl eq_refl)) as [b Hb].
  destruct IH as [bs [Hbs Hlen]]; [intros; apply Hf; now right | ].
  exists (b :: bs). cbn. rewrite Hb. cbn. rewrite Hbs. cbn.
  split; [reflexivity | now rewrite Hlen].
Qed.

Lemma all_or_nothing_none {A : Type} (l : list (option A)) :
  all_or_nothing l = None <-> In None l.
Proof.
  induction l as [ | [a | ] l IH]; cbn.
  - split; [discriminate | tauto].
  - destruct (all_or_nothing l).
    + split; [discriminate | ]. intros [H | H]; [discriminate | ].
      now apply IH in H.
    + split; [ | reflexivity ]. intros _. right. now apply IH.
  - split; [now left | reflexivity].
Qed.

Lemma all_or_nothing_length {A : Type} (l : list (option A)) (r : list A) :
  all_or_nothing l = Some r -> length r = length l.
Proof.
  revert r; induction l as [ | [a | ] l IH]; intros r; cbn.
  - now intros [= <-].
  - destruct (all_or_nothing l) as [r' | ]; [ | discriminate].
    intros [= <-]. cbn. now rewrite (IH r' eq_refl).
  - discriminate.
Qed.

Lemma all_or_nothing_some {A B : Type} (f : A -> option B) (l : list A) :
  (forall a, In a l -> f a <> None) ->
  exists r, all_or_nothing (map f l) = Some r /\
            Forall2 (fun a b => f a = Some b) l r.
Proof.
  induction l as [ | a l IH]; intros Hf; cbn.
  - exists []. split; [reflexivity | constructor].
  - destruct (f a) as [b | ] eqn:Hb;
      [ | exfalso; now apply (Hf a (or_introl eq_refl))].
    destruct IH as (r & Hr & HF); [intros; apply Hf; now right | ].
    rewrite Hr. exists (b :: r). split; [reflexivity | now constructor].
Qed.

Lemma combine_fst_snd_map {A B : Type} (l : list (A * B)) :
  combine (map fst l) (map snd l) = l.
Proof.
  induction l as [ | [a b] l IH]; cbn; [reflexivity | now rewrite IH].
Qed.

Section PrepProps.

Variable fits_open : string -> result StarCat.
Variable astype_int : string -> result Z.
Variable rca_format : list R -> list R.
Variable self : MccdInputs.

Local Abbreviation step := (prep_step fits_open astype_int rca_format self).
Local Abbreviation snr r := (row_column fits_open r "SNR_WIN").
Local Abbreviation sky r := (row_sky fits_open r).

Lemma prep_step_optional (st : PrepOut) (r : row) :
  row_readable fits_open astype_int self r ->
  exists st',
    step st r = Ok st' /\
    prep_SNR_list st' = snr_after (prep_SNR_list st) (snr r) /\
    (prep_RA_list st', prep_DEC_list st')
    = sky_after (prep_RA_list st) (prep_DEC_list st) (sky r).
Proof.
  intros (starcat & ccd & xs & ys & vignet & Ho & Hc & Hlt & Hx & Hy & Hv).
  unfold prep_step, row_sky, row_column, data_get.
  rewrite Ho; cbn [bind]. rewrite Hc; cbn [bind].
  rewrite Hx; cbn [bind]. rewrite Hy; cbn [bind].
  destruct (mapM_total
              (fun xy => loc2glob_img_coord (loc2glob self) ccd
                                            (fst xy) (snd xy))
              (combine xs ys)) as [positions [Hp _]].
  { intros a _.
    now apply loc2glob_img_coord_total. }
  rewrite Hp; cbn [bind]. rewrite Hv; cbn [bind].
  destruct (handle_mask (rca_format vignet) (mask_thresh self) true)
    as [masks stars].
  destruct (try_except _ (None, None)) as [ra dec] eqn:Hsky.
  eexists. split; [reflexivity | split].
  - cbn. destruct (starcat "SNR_WIN"%string), (prep_SNR_list st); reflexivity.
  - cbn [prep_RA_list prep_DEC_list]. rewrite <- Hsky.
    destruct (prep_RA_list st), (prep_DEC_list st),
      (starcat "XWIN_WORLD"%string), (starcat "YWIN_WORLD"%string);
      reflexivity.
Qed.

(** The optional lists after the whole loop, from any state the loop can
    be in. *)
Lemma prep_loop_optional (arr : list row) (st : PrepOut) :
  Forall (row_readable fits_open astype_int self) arr ->
  exists out,
    foldM step st arr = Ok out /\
    prep_SNR_list out
    = match prep_SNR_list st, all_or_nothing (map (fun r => snr r) arr) with
      | Some l, Some cs => Some (l ++ cs)
      | _, _ => None
      end /\
    (prep_RA_list out, prep_DEC_list out)
    = match prep_RA_list st, prep_DEC_list st,
            all_or_nothing (map (fun r => sky r) arr) with
      | Some l, Some l', Some cs =>
          (Some (l ++ map fst cs), Some (l' ++ map snd cs))
      | Some l, Some l', None => (None, None)
      | _, _, _ =>
          match arr with
          | [] => (prep_RA_list st, prep_DEC_list st)
          | _ => (None, None)
          end
      end.
Proof.
  revert st; induction arr as [ | r arr IH]; intros st Hall.
  - exists st. cbn. split; [reflexivity | split].
    + destruct (prep_SNR_list st); [now rewrite app_nil_r | reflexivity].
    + destruct (prep_RA_list st), (prep_DEC_list st);
        now rewrite ?app_nil_r.
  - inversion Hall as [ | ? ? Hr Hrest]; subst.
    destruct (prep_step_optional st r Hr) as (st' & Hst & Hsnr & Hsky).
    destruct (IH st' Hrest) as (out & Hout & Hosnr & Hosky).
    exists out. cbn [foldM map all_or_nothing]. rewrite Hst. cbn [bind].
    split; [exact Hout | split].
    + rewrite Hosnr, Hsnr. unfold snr_after.
      destruct (prep_SNR_list st) as [l | ], (snr r) as [c | ];
        try reflexivity;
        destruct (all_or_nothing (map (fun r0 => snr r0) arr));
        try reflexivity.
      now rewrite <- app_assoc.
    + pose proof (f_equal fst Hsky) as Hra.
      pose proof (f_equal snd Hsky) as Hdec. cbn [fst snd] in Hra, Hdec.
      rewrite Hosky, Hra, Hdec. unfold sky_after.
      destruct (prep_RA_list st) as [l | ], (prep_DEC_list st) as [l' | ],
        (sky r) as [[a b] | ]; cbn [fst snd];
        destruct (all_or_nothing (map (fun r0 => sky r0) arr)) as [cs | ];
        cbn [map fst snd]; rewrite <- ?app_assoc; try reflexivity;
        destruct arr; reflexivity.
Qed.

(** C4: a readable batch is assembled, and each optional output is there
    for the whole batch or not at all: [None] as soon as one record,
    whichever it is, lacks the column, and one entry per CCD, in the order
    of the records, when every record has it. *)
Theorem prep_mccd_inputs_all_or_nothing (arr : list row) :
  Forall (row_readable fits_open astype_int self) arr ->
  exists out,
    prep_mccd_inputs fits_open astype_int rca_format self arr = Ok out /\
    ((exists r, In r arr /\ snr r = None) -> prep_SNR_list out = None) /\
    ((exists r, In r arr /\ sky r = None) ->
     prep_RA_list out = None /\ prep_DEC_list out = None) /\
    ((forall r, In r arr -> snr r <> None) ->
     exists l, prep_SNR_list out = Some l /\ length l = length arr /\
               Forall2 (fun r c => snr r = Some c) arr l) /\
    ((forall r, In r arr -> sky r <> None) ->
     exists ra dec,
       prep_RA_list out = Some ra /\ prep_DEC_list out = Some dec /\
       length ra = length arr /\ length dec = length arr /\
       Forall2 (fun r c => sky r = Some c) arr (combine ra dec)).
Proof.
  intros Hall. unfold prep_mccd_inputs.
  destruct (prep_loop_optional arr
              (mkPrepOut [] [] [] [] (Some []) (Some []) (Some [])) Hall)
    as (out & Hout & Hsnr & Hsky).
  cbn [prep_SNR_list prep_RA_list prep_DEC_list app] in Hsnr, Hsky.
  exists out. split; [exact Hout | ].
  split; [ | split; [ | split]].
  - intros (r & Hin & Hnone). rewrite Hsnr.
    rewrite (proj2 (all_or_nothing_none (map (fun r => snr r) arr)));
      [reflexivity | ].
    rewrite <- Hnone. now apply (in_map (fun r => snr r)).
  - intros (r & Hin & Hnone).
    rewrite (proj2 (all_or_nothing_none (map (fun r => sky r) arr))) in Hsky.
    + now injection Hsky as -> ->.
    + rewrite <- Hnone. now apply (in_map (fun r => sky r)).
  - intros Hsome.
    destruct (all_or_nothing_some (fun r => snr r) arr Hsome) as (l & Hl & Hf).
    rewrite Hl in Hsnr. exists l. split; [exact Hsnr | ]. split; [ | exact Hf].
    apply all_or_nothing_length in Hl. now rewrite Hl, length_map.
  - intros Hsome.
    destruct (all_or_nothing_some (fun r => sky r) arr Hsome) as (l & Hl & Hf).
    rewrite Hl in Hsky. injection Hsky as Hra Hdec.
    exists (map fst l), (map snd l).
    apply all_or_nothing_length in Hl. rewrite length_map in Hl.
    rewrite !length_map, Hl. repeat split; try assumption.
    now rewrite combine_fst_snd_map.
Qed.

End PrepProps.

Lemma prep_mccd_inputs_all_or_nothing_witness :
  Forall (row_readable sample_fits_open sample_astype_int MccdInputs_default)
         sample_rows /\
  exists out,
    prep_mccd_inputs sample_fits_open sample_astype_int (fun v => v)
                     MccdInputs_default sample_rows = Ok out /\
    prep_SNR_list out = None /\
    exists ra, prep_RA_list out = Some ra /\ length ra = length sample_rows.
Proof.
  assert (Hall : Forall (row_readable sample_fits_open sample_astype_int
                                      MccdInputs_default) sample_rows).
  { repeat constructor;
      exists sample_starcat, 4, [], [], [];
      repeat split; try reflexivity; lia. }
  split; [exact Hall | ].
  destruct (prep_mccd_inputs_all_or_nothing
              sample_fits_open sample_astype_int (fun v => v)
              MccdInputs_default sample_rows Hall)
    as (out & Hout & Hsnr & _ & _ & Hsky).
  exists out. split; [exact Hout | ]. split.
  - apply Hsnr. exists ("1", "04", "x-1-04.fits")%string.
    split; [now left | reflexivity].
  - destruct Hsky as (ra & dec & Hra & _ & Hlen & _).
    + intros r _. unfold row_sky, row_column, sample_fits_open.
      discriminate.
    + exists ra. split; assumption.
Defined.

(** ** Grouping the catalogues by exposure *)

Lemma string_compare_OT (a b : string) :
  String.compare a b = OrdersEx.String_as_OT.compare a b.
Proof. reflexivity. Qed.

Lemma str_lt_trans (a b c : string) : str_lt a b -> str_lt b c -> str_lt a c.
Proof.
  unfold str_lt. rewrite !string_compare_OT.
  apply (@StrictOrder_Transitive _ _ OrdersEx.String_as_OT.lt_strorder).
Qed.

Lemma str_lt_irrefl (a : string) : ~ str_lt a a.
Proof.
  unfold str_lt. rewrite string_compare_OT.
  apply (@StrictOrder_Irreflexive _ _ OrdersEx.String_as_OT.lt_strorder).
Qed.

Lemma insert_unique_In (x z : string) (l : list string) :
  In z (insert_unique x l) <-> z = x \/ In z l.
Proof.
  induction l as [ | y l IH]; cbn.
  - intuition congruence.
  - destruct (String.compare x y) eqn:Hc; cbn.
    + apply String.compare_eq_iff in Hc. subst. intuition congruence.
    + intuition congruence.
    + rewrite IH. intuition congruence.
Qed.

Lemma insert_unique_sorted (x : string) (l : list string) :
  StronglySorted str_lt l -> StronglySorted str_lt (insert_unique x l).
Proof.
  induction l as [ | y l IH]; cbn; intros Hs.
  - repeat constructor.
  - inversion Hs as [ | ? ? Hl Hy]; subst.
    destruct (String.compare x y) eqn:Hc.
    + exact Hs.
    + constructor; [exact Hs | ]. constructor; [exact Hc | ].
      rewrite Forall_forall in Hy. apply Forall_forall. intros z Hz.
      apply (str_lt_trans x y z Hc). now apply Hy.
    + constructor; [now apply IH | ].
      apply Forall_forall. intros z Hz. apply insert_unique_In in Hz.
      destruct Hz as [-> | Hz].
      * unfold str_lt. rewrite String.compare_antisym, Hc. reflexivity.
      * rewrite Forall_forall in Hy. now apply Hy.
Qed.

Lemma np_unique_In (z : string) (l : list string) :
  In z (np_unique l) <-> In z l.
Proof.
  induction l as [ | x l IH]; cbn; [tauto | ].
  rewrite insert_unique_In, IH. intuition congruence.
Qed.

Lemma np_unique_sorted (l : list string) : StronglySorted str_lt (np_unique l).
Proof.
  induction l as [ | x l IH]; cbn; [constructor | now apply insert_unique_sorted].
Qed.

Lemma sorted_NoDup (l : list string) : StronglySorted str_lt l -> NoDup l.
Proof.
  induction 1 as [ | x l Hs IH Hx]; constructor; [ | exact IH].
  intros Hin. rewrite Forall_forall in Hx.
  exact (str_lt_irrefl x (Hx x Hin)).
Qed.

Lemma mapM_Forall2 {A B : Type} (f : A -> result B) (l : list A) (bs : list B) :
  Forall2 (fun a b => f a = Ok b) l bs -> mapM f l = Ok bs.
Proof.
  induction 1 as [ | a b l bs Hab _ IH]; cbn; [reflexivity | ].
  now rewrite Hab, IH.
Qed.

Lemma groups_of_ids (rows : list row) (ids : list string) :
  (forall id, In id ids -> exists r, In r rows /\ row_id r = id) ->
  Forall2 (fun id g =>
             g = List.filter (fun r => String.eqb (row_id r) id) rows /\
             g <> [])
          ids
          (map (fun st_id =>
                  List.filter (fun r => String.eqb (row_id r) st_id) rows)
               ids).
Proof.
  induction ids as [ | id ids IH]; intros Hids; cbn; constructor.
  - split; [reflexivity | ].
    destruct (Hids id (or_introl eq_refl)) as (r & Hr & Hid).
    intros Hnil.
    assert (Hin : In r (List.filter (fun r => String.eqb (row_id r) id) rows)).
    { apply filter_In. split; [exact Hr | ]. now apply String.eqb_eq. }
    rewrite Hnil in Hin. exact Hin.
  - apply IH. intros id' Hin. apply Hids. now right.
Qed.

(** The part common to the two parsers. *)
Lemma group_starcats_grouped (self : MccdInputs) (rows : list row) :
  rows <> [] ->
  exists st, group_starcats self rows = Ok st /\ grouped_by_exposure rows st.
Proof.
  intros Hne. unfold group_starcats, column0.
  destruct rows as [ | r0 rows0] eqn:Hrows; [congruence | ].
  rewrite <- Hrows. cbn [bind].
  eexists. split; [reflexivity | ].
  exists (np_unique (map row_id rows)).
  eexists. cbn [catalog_ids starcat_list num_catalogs].
  split; [reflexivity | ]. split; [reflexivity | ].
  split; [now rewrite length_map | ].
  split; [apply sorted_NoDup, np_unique_sorted | ].
  assert (Hids : forall id, In id (np_unique (map row_id rows))
                            <-> exists r, In r rows /\ row_id r = id).
  { intros id. rewrite np_unique_In, in_map_iff.
    split; intros (r & H1 & H2); exists r; tauto. }
  split; [exact Hids | ].
  apply groups_of_ids. intros id. apply Hids.
Qed.

(** C6, as the code has it: when the paths parse and there is at least one,
    either parser stores one group per distinct exposure id, each group
    holding every row of its exposure in the order of the rows; nothing
    looks at the CCD ids, so two rows of one exposure and one CCD are kept
    side by side. *)
Theorem parsers_group_by_exposure (self : MccdInputs)
  (glob_glob : string -> list string) (folder_path pattern : string)
  (input_list : list (list string)) (element_position : Z)
  (rows : list row) :
  rows <> [] ->
  (Forall2 (parses_to self)
           (sort_paths (glob_glob (folder_path ++ pattern)%string)) rows ->
   exists st,
     parse_folder glob_glob self folder_path pattern = Ok st /\
     grouped_by_exposure rows st) /\
  (Forall2 (fun path r =>
              exists e, py_index path element_position = Ok e /\
                        parses_to self e r)
           input_list rows ->
   exists st,
     parse_pipeline_input_list self input_list element_position = Ok st /\
     grouped_by_exposure rows st).
Proof.
  intros Hne. split; intros Hrows.
  - unfold parse_folder.
    rewrite (mapM_Forall2 _ _ rows); [now apply group_starcats_grouped | ].
    eapply Forall2_impl; [ | exact Hrows].
    intros path [[id ccd] p] [Hp Hpath].
    unfold row_id, row_ccd, row_path in Hp, Hpath.
    cbn [fst snd] in Hp, Hpath. subst p.
    rewrite Hp. reflexivity.
  - unfold parse_pipeline_input_list.
    rewrite (mapM_Forall2 _ _ rows); [now apply group_starcats_grouped | ].
    eapply Forall2_impl; [ | exact Hrows].
    intros path [[id ccd] p] (e & He & Hp & Hpath).
    unfold row_id, row_ccd, row_path in Hp, Hpath.
    cbn [fst snd] in Hp, Hpath. subst p.
    rewrite He. cbn [bind]. rewrite Hp. reflexivity.
Qed.

Lemma parsers_group_by_exposure_witness :
  sample_rows <> [] /\
  (exists st,
     parse_folder sample_glob MccdInputs_default "dir/" "*.fits" = Ok st /\
     grouped_by_exposure sample_rows st) /\
  (exists st,
     parse_pipeline_input_list MccdInputs_default sample_input_list 0 = Ok st /\
     grouped_by_exposure sample_rows st).
Proof.
  assert (Hne : sample_rows <> []) by discriminate.
  destruct (parsers_group_by_exposure MccdInputs_default sample_glob
              "dir/" "*.fits" sample_input_list 0 sample_rows Hne)
    as [Hfolder Hpipeline].
  split; [exact Hne | ]. split.
  - apply Hfolder. lazy. repeat constructor.
  - apply Hpipeline. unfold sample_input_list, sample_rows.
    repeat (apply Forall2_cons;
            [eexists; split; [reflexivity | split; lazy; reflexivity] | ]).
    apply Forall2_nil.
Defined.

(** C6 fails on a repeated CCD: two files of exposure 1 and CCD 04 are
    parsed without an error, and the one group holds both rows. *)
Lemma parse_pipeline_input_list_duplicate_tile :
  exists st,
    parse_pipeline_input_list MccdInputs_default duplicate_input_list 0
    = Ok st /\
    starcat_list st
    = Some [[("1", "04", "a-1-04.fits"); ("1", "04", "b-1-04.fits")]%string].
Proof. eexists. split; lazy; reflexivity. Qed.

(** ** Outlier rejection *)

Lemma combine_map_map {A B C : Type} (f : A -> B) (g : A -> C) (l : list A) :
  combine (map f l) (map g l) = map (fun a => (f a, g a)) l.
Proof. induction l as [ | a l IH]; cbn; [reflexivity | now rewrite IH]. Qed.

Lemma select_sublist {A : Type} (mask : list bool) (arr : list A) :
  sublist (select mask arr) arr.
Proof.
  revert arr; induction mask as [ | b mask IH]; intros arr.
  - destruct arr; apply sublist_nil_l.
  - destruct arr as [ | a arr]; cbn; [constructor | ].
    destruct b; constructor; apply IH.
Qed.

(** [select] keeps exactly the entries whose mask bit is set, in order. *)
Lemma select_filter {A : Type} (mask : list bool) (arr : list A) :
  select mask arr = map snd (List.filter fst (combine mask arr)).
Proof.
  revert arr; induction mask as [ | b mask IH]; intros arr.
  - now destruct arr.
  - destruct arr as [ | a arr]; cbn; [reflexivity | ].
    destruct b; cbn; now rewrite IH.
Qed.

Lemma select_all_true {A : Type} (arr : list A) :
  select (repeat true (length arr)) arr = arr.
Proof. induction arr as [ | a arr IH]; cbn; [reflexivity | now rewrite IH]. Qed.

Lemma Rgtb_true (a b : R) : Rgtb a b = true <-> (a > b)%R.
Proof. unfold Rgtb. destruct (Rgt_dec a b); split; intros; easy. Qed.

Lemma nonzero_from_nil (start : nat) (l : list bool) :
  nonzero_from start l = [] <-> Forall (fun b => b = false) l.
Proof.
  revert start; induction l as [ | b l IH]; intros start; cbn.
  - split; [constructor | reflexivity].
  - destruct b.
    + split; [discriminate | ]. intros H. inversion H. discriminate.
    + rewrite IH. split; intros H; [now constructor | now inversion H].
Qed.

Lemma Forall2_map_same {A B : Type} (P : A -> B -> Prop) (F : A -> B)
  (l : list A) :
  (forall a, In a l -> P a (F a)) -> Forall2 P l (map F l).
Proof.
  induction l as [ | a l IH]; intros H; cbn; constructor.
  - apply H. now left.
  - apply IH. intros; apply H. now right.
Qed.

Lemma Forall2_all_false {A : Type} (P : A -> Prop) (l : list A)
  (bad : list bool) :
  Forall2 (fun s b => b = true <-> P s) l bad ->
  (forall s, In s l -> ~ P s) ->
  Forall (fun b => b = false) bad.
Proof.
  induction 1 as [ | s b l bad Hb _ IH]; intros Hno; constructor.
  - destruct b; [ | reflexivity].
    exfalso. apply (Hno s); [now left | now apply (proj1 Hb)].
  - apply IH. intros s' Hin. apply Hno. now right.
Qed.

Lemma map_fmap {A B : Type} (f : A -> B) (l : list A) : map f l = f <$> l.
Proof. reflexivity. Qed.

Lemma list_get_Some {A : Type} (l : list A) (i : nat) (a : A) :
  l !! i = Some a -> list_get l i = Ok a.
Proof. unfold list_get. now intros ->. Qed.

Lemma list_set_lt {A : Type} (l : list A) (i : nat) (v : A) :
  (i < length l)%nat -> list_set l i v = Ok (<[i := v]> l).
Proof.
  intros Hi. unfold list_set.
  now rewrite (proj2 (Nat.ltb_lt i (length l)) Hi).
Qed.

Lemma foldM_app {S A : Type} (step : S -> A -> result S) (st : S)
  (l1 l2 : list A) :
  foldM step st (l1 ++ l2)
  = (let* st' := foldM step st l1 in foldM step st' l2).
Proof.
  revert st; induction l1 as [ | a l1 IH]; intros st; cbn; [reflexivity | ].
  destruct (step st a) as [st' | e]; cbn; [apply IH | reflexivity].
Qed.

(** *** The table [idx_ref] *)

Lemma idx_ref_ccd_length {A : Type} (g s c : nat) (stars : list A) :
  length (idx_ref_ccd g s c stars) = length stars.
Proof.
  revert g s; induction stars as [ | x stars IH]; intros g s; cbn;
    [reflexivity | now rewrite IH].
Qed.

Lemma idx_ref_ccd_lookup {A : Type} (g s c : nat) (stars : list A) (k : nat) :
  (k < length stars)%nat ->
  idx_ref_ccd g s c stars !! k = Some ((g + k)%nat, (s + k)%nat, c).
Proof.
  revert g s k; induction stars as [ | x stars IH]; intros g s k Hk; cbn in *;
    [lia | ].
  destruct k as [ | k]; cbn.
  - now rewrite !Nat.add_0_r.
  - rewrite IH by lia.
    now replace (g + S k)%nat with (S g + k)%nat by lia;
      replace (s + S k)%nat with (S s + k)%nat by lia.
Qed.

(** Row [k] of [idx_ref] names the CCD and the place inside the CCD of the
    star [k] of the concatenated batch. *)
Lemma build_idx_ref_lookup {A : Type} (sl : list (list A)) (g c k : nat) :
  (k < length (concat sl))%nat ->
  exists t i stars,
    build_idx_ref g c sl !! k = Some ((g + k)%nat, i, (c + t)%nat) /\
    sl !! t = Some stars /\ (i < length stars)%nat /\
    k = (length (concat (take t sl)) + i)%nat.
Proof.
  revert g c k; induction sl as [ | stars sl IH]; intros g c k Hk;
    cbn in Hk; [lia | ].
  rewrite length_app in Hk. cbn [build_idx_ref].
  destruct (Nat.lt_ge_cases k (length stars)) as [Hlt | Hge].
  - exists 0%nat, k, stars.
    rewrite lookup_app_l by now rewrite idx_ref_ccd_length.
    rewrite idx_ref_ccd_lookup by exact Hlt.
    rewrite Nat.add_0_r. cbn. repeat split; trivial.
  - destruct (IH (g + length stars)%nat (S c) (k - length stars)%nat)
      as (t & i & stars' & Hlk & Hsl & Hi & Hoff); [lia | ].
    exists (S t), i, stars'.
    rewrite lookup_app_r by (rewrite idx_ref_ccd_length; exact Hge).
    rewrite idx_ref_ccd_length, Hlk. cbn [take firstn concat].
    rewrite length_app. repeat split; trivial; [ | lia].
    replace (g + length stars + (k - length stars))%nat with (g + k)%nat
      by lia.
    now replace (S c + t)%nat with (c + S t)%nat by lia.
Qed.

(** *** Marking the outliers *)

Lemma concat_insert_insert {B : Type} (em : list (list B)) (t i : nat)
  (m : list B) (v : B) :
  em !! t = Some m -> (i < length m)%nat ->
  concat (<[t := <[i := v]> m]> em)
  = <[(length (concat (take t em)) + i)%nat := v]> (concat em).
Proof.
  revert t; induction em as [ | m0 em IH]; intros t Ht Hi; [easy | ].
  destruct t as [ | t]; cbn in Ht |- *.
  - injection Ht as ->. now rewrite insert_app_l.
  - rewrite length_app, <- Nat.add_assoc, insert_app_r. f_equal.
    now apply IH.
Qed.

Lemma same_counts_offset {A B : Type} (l : list (list A)) (l' : list (list B))
  (t : nat) :
  same_counts l l' ->
  length (concat (take t l)) = length (concat (take t l')).
Proof.
  intros H; revert t; induction H as [ | a b l l' Hab _ IH]; intros t;
    [now destruct t | ].
  destruct t as [ | t]; cbn; [reflexivity | ].
  now rewrite !length_app, Hab, (IH t).
Qed.

Lemma same_counts_total {A B : Type} (l : list (list A)) (l' : list (list B)) :
  same_counts l l' -> length (concat l) = length (concat l').
Proof.
  induction 1 as [ | a b l l' Hab _ IH]; cbn; [reflexivity | ].
  now rewrite !length_app, Hab, IH.
Qed.

Lemma same_counts_lookup {A B : Type} (l : list (list A)) (l' : list (list B))
  (t : nat) (b : list B) :
  same_counts l l' -> l' !! t = Some b ->
  exists a, l !! t = Some a /\ length a = length b.
Proof.
  intros H; revert t; induction H as [ | a0 b0 l l' Hab _ IH]; intros t Ht;
    [easy | ].
  destruct t as [ | t]; cbn in *; [ | now apply IH].
  injection Ht as <-. now exists a0.
Qed.

Lemma same_counts_refl {A : Type} (l : list (list A)) : same_counts l l.
Proof. induction l; constructor; trivial. Qed.

Lemma same_counts_sym {A B : Type} (l : list (list A)) (l' : list (list B)) :
  same_counts l l' -> same_counts l' l.
Proof. induction 1; constructor; [now symmetry | assumption]. Qed.

Lemma same_counts_insert {A B : Type} (l : list (list A)) (l' : list (list B))
  (t : nat) (a a' : list A) :
  same_counts l l' -> l !! t = Some a -> length a' = length a ->
  same_counts (<[t := a']> l) l'.
Proof.
  intros H; revert t; induction H as [ | a0 b0 l l' Hab Hl IH]; intros t Ht Ha;
    [easy | ].
  destruct t as [ | t]; cbn in *.
  - injection Ht as ->. constructor; [congruence | exact Hl].
  - constructor; [exact Hab | now apply IH].
Qed.

Lemma mark_erased_insert {A : Type} (sl : list (list A))
  (em : list (list bool)) (k : nat) :
  same_counts em sl -> (k < length (concat sl))%nat ->
  exists em',
    mark_erased (build_idx_ref 0 0 sl) em k = Ok em' /\
    same_counts em' sl /\
    concat em' = <[k := true]> (concat em).
Proof.
  intros Hsc Hk.
  destruct (build_idx_ref_lookup sl 0 0 k Hk)
    as (t & i & stars & Hlk & Hsl & Hi & Hoff).
  destruct (same_counts_lookup em sl t stars Hsc Hsl) as (m & Hm & Hlen).
  rewrite !Nat.add_0_l in Hlk.
  unfold mark_erased. rewrite (list_get_Some _ _ _ Hlk). cbn [bind fst snd].
  rewrite (list_get_Some _ _ _ Hm). cbn [bind].
  rewrite list_set_lt by lia. cbn [bind].
  rewrite list_set_lt by (eapply lookup_lt_Some; exact Hm).
  eexists. split; [reflexivity | ]. split.
  - eapply same_counts_insert; [exact Hsc | exact Hm | ].
    now rewrite length_insert.
  - rewrite (concat_insert_insert em t i m true Hm) by lia.
    now rewrite (same_counts_offset em sl t Hsc), <- Hoff.
Qed.

Lemma mark_erased_loop {A : Type} (sl : list (list A)) (ks : list nat)
  (em : list (list bool)) :
  same_counts em sl ->
  Forall (fun k => (k < length (concat sl))%nat) ks ->
  exists em',
    foldM (mark_erased (build_idx_ref 0 0 sl)) em ks = Ok em' /\
    same_counts em' sl /\
    concat em' = fold_left (fun acc k => <[k := true]> acc) ks (concat em).
Proof.
  intros Hsc Hks; revert em Hsc; induction Hks as [ | k ks Hk _ IH];
    intros em Hsc; cbn.
  - now exists em.
  - destruct (mark_erased_insert sl em k Hsc Hk) as (em1 & H1 & Hsc1 & Hc1).
    destruct (IH em1 Hsc1) as (em' & H' & Hsc' & Hc').
    exists em'. rewrite H1. cbn [bind]. rewrite <- Hc1. auto.
Qed.

Lemma nonzero_from_bound (start : nat) (bad : list bool) :
  Forall (fun k => (k < start + length bad)%nat) (nonzero_from start bad).
Proof.
  revert start; induction bad as [ | b bad IH]; intros start; cbn;
    [constructor | ].
  specialize (IH (S start)).
  assert (H : Forall (fun k => (k < start + S (length bad))%nat)
                     (nonzero_from (S start) bad)).
  { eapply Forall_impl; [ | exact IH]. cbn. intros; lia. }
  destruct b; [constructor; [lia | exact H] | exact H].
Qed.



Lemma all_false_same_counts {A : Type} (sl : list (list A)) :
  same_counts (map (fun stars => repeat false (length stars)) sl) sl.
Proof.
  induction sl as [ | stars sl IH]; cbn; constructor;
    [apply repeat_length | exact IH].
Qed.

(** *** Erasing the marked stars *)

Lemma combine_app_same {A B : Type} (l1 l2 : list A) (k1 k2 : list B) :
  length l1 = length k1 ->
  combine (l1 ++ l2) (k1 ++ k2) = combine l1 k1 ++ combine l2 k2.
Proof.
  revert k1; induction l1 as [ | a l1 IH]; intros [ | b k1] Hlen;
    cbn in *; try discriminate; [reflexivity | ].
  rewrite IH by congruence. reflexivity.
Qed.

Lemma select_all_length {A : Type} (keep : list (list bool))
  (l : list (list A)) :
  length (select_all keep l) = Nat.min (length keep) (length l).
Proof. unfold select_all. now rewrite length_map, length_combine. Qed.

Lemma select_all_snoc {A : Type} (keep : list (list bool)) (l : list (list A))
  (m : list bool) (a : list A) :
  length keep = length l ->
  select_all (keep ++ [m]) (l ++ [a]) = select_all keep l ++ [select m a].
Proof.
  intros Hlen. unfold select_all.
  rewrite combine_app_same by exact Hlen. now rewrite map_app.
Qed.

Lemma select_upto_all {A : Type} (keep : list (list bool))
  (l : list (list A)) :
  length keep = length l -> select_upto (length l) keep l = select_all keep l.
Proof.
  intros Hlen. unfold select_upto.
  rewrite firstn_all, skipn_all, app_nil_r, <- Hlen. now rewrite firstn_all.
Qed.

Lemma select_upto_prefix {A : Type} (k : nat) (keep : list (list bool))
  (l : list (list A)) :
  (k <= length keep)%nat -> (k <= length l)%nat ->
  length (select_all (take k keep) (take k l)) = k.
Proof.
  intros Hk Hl. rewrite select_all_length, !length_take. lia.
Qed.

Lemma select_upto_lookup {A : Type} (k : nat) (keep : list (list bool))
  (l : list (list A)) :
  (k <= length keep)%nat -> (k <= length l)%nat ->
  select_upto k keep l !! k = l !! k.
Proof.
  intros Hk Hl. unfold select_upto.
  rewrite lookup_app_r by (rewrite select_upto_prefix; trivial).
  rewrite select_upto_prefix, Nat.sub_diag, lookup_drop by trivial.
  now rewrite Nat.add_0_r.
Qed.

Lemma select_upto_S {A : Type} (k : nat) (keep : list (list bool))
  (l : list (list A)) (m : list bool) (a : list A) :
  keep !! k = Some m -> l !! k = Some a ->
  <[k := select m a]> (select_upto k keep l) = select_upto (S k) keep l.
Proof.
  intros Hm Ha. unfold select_upto.
  pose proof (lookup_lt_Some _ _ _ Hm) as Hk.
  pose proof (lookup_lt_Some _ _ _ Ha) as Hl.
  rewrite (take_S_r keep k m Hm), (take_S_r l k a Ha).
  rewrite select_all_snoc by (rewrite !length_take; lia).
  rewrite (drop_S l a k Ha), <- app_assoc. cbn [app].
  rewrite <- (select_upto_prefix k keep l) at 1 by lia.
  rewrite <- (Nat.add_0_r (length _)). now rewrite insert_app_r.
Qed.

Lemma overwrite_selected_upto {A : Type} (k : nat) (keep : list (list bool))
  (l : list (list A)) (m : list bool) (a : list A) :
  keep !! k = Some m -> l !! k = Some a -> length m = length a ->
  overwrite_selected (select_upto k keep l) k m
  = Ok (select_upto (S k) keep l).
Proof.
  intros Hm Ha Hlen.
  pose proof (lookup_lt_Some _ _ _ Hm) as Hk.
  pose proof (lookup_lt_Some _ _ _ Ha) as Hl.
  unfold overwrite_selected, list_get.
  rewrite select_upto_lookup, Ha by lia. cbn [bind].
  unfold bool_index. rewrite Hlen, Nat.eqb_refl. cbn [bind].
  rewrite list_set_lt.
  - now rewrite (select_upto_S k keep l m a Hm Ha).
  - unfold select_upto.
    rewrite length_app, select_upto_prefix, length_drop by lia. lia.
Qed.

Lemma keep_lookup (em : list (list bool)) (k : nat) (e : list bool) :
  em !! k = Some e -> map (map negb) em !! k = Some (map negb e).
Proof. intros He. now rewrite map_fmap, list_lookup_fmap, He. Qed.

Lemma overwrite_selected_counts {A B : Type} (sl : list (list B))
  (em : list (list bool)) (l0 : list (list A)) (k : nat) (e : list bool) :
  same_counts sl l0 -> same_counts em sl -> em !! k = Some e ->
  overwrite_selected (select_upto k (map (map negb) em) l0) k (map negb e)
  = Ok (select_upto (S k) (map (map negb) em) l0).
Proof.
  intros Hl0 Hem He.
  destruct (same_counts_lookup sl em k e (same_counts_sym _ _ Hem) He)
    as (stars & Hstars & Hlen).
  destruct (same_counts_lookup l0 sl k stars (same_counts_sym _ _ Hl0) Hstars)
    as (a & Ha & Hlen').
  apply (overwrite_selected_upto k _ l0 (map negb e) a);
    [now apply keep_lookup | exact Ha | ].
  rewrite length_map. congruence.
Qed.

(** One turn of the erasing loop moves the frontier by one CCD. *)
Lemma erase_step_upto {Stamp : Type} (em : list (list bool))
  (d : StarData Stamp) (k : nat) :
  assembled d -> same_counts em (star_list d) ->
  (k < length (star_list d))%nat ->
  erase_step em
    (select_data (fun A => select_upto k (map (map negb) em)) d) k
  = Ok (select_data (fun A => select_upto (S k) (map (map negb) em)) d).
Proof.
  destruct d as [sl pl ml cl snr ra dec].
  unfold assembled, select_data, erase_step.
  cbn [star_list pos_list mask_list ccd_list SNR_list RA_list DEC_list].
  intros (_ & Hml & Hpl & Hsnr & Hra & Hdec & Hboth) Hem Hk.
  destruct (lookup_lt_is_Some_2 sl k Hk) as [stars Hstars].
  destruct (same_counts_lookup em sl k stars Hem Hstars) as (e & He & _).
  rewrite (list_get_Some _ _ _ He). cbn [bind].
  assert (Hsl : same_counts sl sl) by apply same_counts_refl.
  rewrite (overwrite_selected_counts sl em sl k e Hsl Hem He). cbn [bind].
  rewrite (overwrite_selected_counts sl em ml k e Hml Hem He). cbn [bind].
  rewrite (overwrite_selected_counts sl em pl k e Hpl Hem He). cbn [bind].
  assert (Hopt : forall o : option (list (list R)),
             same_counts_opt sl o ->
             match option_map (select_upto k (map (map negb) em)) o with
             | Some _ =>
                 overwrite_selected_opt
                   (option_map (select_upto k (map (map negb) em)) o)
                   k (map negb e)
             | None => Ok None
             end
             = Ok (option_map (select_upto (S k) (map (map negb) em)) o)).
  { intros [l | ] Ho; cbn; [ | reflexivity].
    now rewrite (overwrite_selected_counts sl em l k e Ho Hem He). }
  rewrite (Hopt snr Hsnr). cbn [bind].
  destruct ra as [ra | ]; cbn [option_map].
  - destruct dec as [dec | ];
      [ | discriminate (proj2 Hboth eq_refl)].
    cbn [overwrite_selected_opt option_map] in *.
    rewrite (overwrite_selected_counts sl em ra k e Hra Hem He). cbn [bind].
    rewrite (overwrite_selected_counts sl em dec k e Hdec Hem He).
    reflexivity.
  - rewrite (proj1 Hboth eq_refl). reflexivity.
Qed.

Lemma select_data_0 {Stamp : Type} (keep : list (list bool))
  (d : StarData Stamp) :
  select_data (fun A => select_upto 0 keep) d = d.
Proof.
  destruct d as [sl pl ml cl snr ra dec]. unfold select_data. cbn.
  now destruct snr, ra, dec.
Qed.

Lemma erase_loop_upto {Stamp : Type} (em : list (list bool))
  (d : StarData Stamp) (k : nat) :
  assembled d -> same_counts em (star_list d) ->
  (k <= length (star_list d))%nat ->
  foldM (erase_step em) d (seq 0 k)
  = Ok (select_data (fun A => select_upto k (map (map negb) em)) d).
Proof.
  intros Hd Hem. induction k as [ | k IH]; intros Hk.
  - cbn. now rewrite select_data_0.
  - rewrite seq_S, foldM_app, IH by lia. cbn [bind Nat.add foldM].
    rewrite erase_step_upto by (trivial; lia). reflexivity.
Qed.

Lemma same_counts_length {A B : Type} (l : list (list A))
  (l' : list (list B)) :
  same_counts l l' -> length l = length l'.
Proof. induction 1; cbn; congruence. Qed.

Lemma select_data_upto_all {Stamp : Type} (em : list (list bool))
  (d : StarData Stamp) :
  assembled d -> same_counts em (star_list d) ->
  select_data (fun A => select_upto (length (star_list d))
                                    (map (map negb) em)) d
  = select_data (fun A => select_all (map (map negb) em)) d.
Proof.
  destruct d as [sl pl ml cl snr ra dec].
  unfold assembled, select_data.
  cbn [star_list pos_list mask_list ccd_list SNR_list RA_list DEC_list].
  intros (_ & Hml & Hpl & Hsnr & Hra & Hdec & _) Hem.
  assert (Hall : forall (A : Type) (l : list (list A)),
             same_counts sl l ->
             select_upto (length sl) (map (map negb) em) l
             = select_all (map (map negb) em) l).
  { intros A l Hl. rewrite (same_counts_length sl l Hl).
    apply select_upto_all. rewrite length_map.
    rewrite (same_counts_length em sl Hem). now apply same_counts_length. }
  rewrite (Hall _ sl (same_counts_refl sl)), (Hall _ pl Hpl), (Hall _ ml Hml).
  destruct snr, ra, dec; cbn in *; rewrite ?Hall by assumption; reflexivity.
Qed.

Lemma select_all_keep_all {A B : Type} (sl : list (list B))
  (l : list (list A)) :
  same_counts sl l ->
  select_all (map (map negb)
                  (map (fun stars => repeat false (length stars)) sl)) l
  = l.
Proof.
  unfold select_all.
  induction 1 as [ | stars a sl l Hlen _ IH]; cbn; [reflexivity | ].
  rewrite IH, map_repeat, Hlen. cbn. now rewrite select_all_true.
Qed.

Lemma select_data_keep_all {Stamp : Type} (d : StarData Stamp) :
  assembled d ->
  select_data
    (fun A => select_all
                (map (map negb)
                     (map (fun stars => repeat false (length stars))
                          (star_list d)))) d
  = d.
Proof.
  destruct d as [sl pl ml cl snr ra dec].
  unfold assembled, select_data.
  cbn [star_list pos_list mask_list ccd_list SNR_list RA_list DEC_list].
  intros (_ & Hml & Hpl & Hsnr & Hra & Hdec & _).
  rewrite (select_all_keep_all sl sl (same_counts_refl sl)).
  rewrite (select_all_keep_all sl pl Hpl), (select_all_keep_all sl ml Hml).
  destruct snr, ra, dec; cbn in *;
    rewrite ?select_all_keep_all by assumption; reflexivity.
Qed.


Section OutlierProps.

Variable Stamp : Type.
Variable badpix_mask : Stamp -> Stamp.
Variable FindAdaptiveMom : Stamp -> Stamp -> Moments.

Local Abbreviation reject :=
  (outlier_rejection Stamp badpix_mask FindAdaptiveMom).
Local Abbreviation shapes_of :=
  (measure_shapes Stamp badpix_mask FindAdaptiveMom).
Local Abbreviation outlier := (is_outlier shape_e1 shape_e2 shape_R2).

(** Without a measured star the columns of [star_shapes] cannot be read;
    with one, [bad_stars] is computed. *)
Lemma find_bad_stars_empty (sigma : R) :
  find_bad_stars sigma [] = Raise IndexError.
Proof. reflexivity. Qed.

Lemma find_bad_stars_Ok (sigma : R) (shapes : list (R * R * R * R)) :
  shapes <> [] -> find_bad_stars sigma shapes = Ok (bad_stars_of sigma shapes).
Proof. destruct shapes; [congruence | reflexivity]. Qed.

(** The entry of [bad_stars] of a star says whether it is an outlier. *)
Lemma find_bad_stars_outlier (sigma : R) (shapes : list (R * R * R * R)) :
  Forall2 (fun s b => b = true <-> outlier sigma shapes s)
          shapes (bad_stars_of sigma shapes).
Proof.
  unfold bad_stars_of, np_logical_or, abs_greater.
  rewrite !map_map, combine_map_map, map_map, combine_map_map, map_map.
  cbn [fst snd]. apply Forall2_map_same. intros s _.
  rewrite !orb_true_iff, !Rgtb_true.
  unfold is_outlier, spec_thresh, shape_thresh.
  rewrite !(Rplus_comm (np_mean _)). tauto.
Qed.

Lemma measure_shapes_length (stars masks : list Stamp) :
  length stars = length masks ->
  length (shapes_of stars masks) = length stars.
Proof.
  intros Hlen. unfold measure_shapes.
  rewrite !length_map, length_combine, length_map. lia.
Qed.



(** C10, as the code has it: when a star of the batch was measured and no
    star is an outlier, the seven lists come back as they went in, together
    with one erase-mask per CCD that is all [False] and has one entry per
    star of that CCD. *)
Theorem outlier_rejection_no_outlier (d : StarData Stamp) (sigma : R) :
  shapes_of (concat (star_list d)) (concat (mask_list d)) <> [] ->
  (forall s,
      In s (shapes_of (concat (star_list d)) (concat (mask_list d))) ->
      ~ outlier sigma
          (shapes_of (concat (star_list d)) (concat (mask_list d))) s) ->
  reject d sigma
  = Ok (d, map (fun stars => repeat false (length stars)) (star_list d)).
Proof.
  intros Hshapes Hno. unfold outlier_rejection, np_concatenate.
  destruct (star_list d) as [ | s0 sl] eqn:Hsl.
  { exfalso. apply Hshapes. reflexivity. }
  destruct (mask_list d) as [ | m0 ml] eqn:Hml.
  { exfalso. apply Hshapes. unfold measure_shapes.
    cbn [concat map]. now destruct (s0 ++ concat sl). }
  cbn [bind].
  rewrite (find_bad_stars_Ok sigma _ Hshapes). cbn [bind].
  unfold np_nonzero.
  rewrite (proj2 (nonzero_from_nil 0 _)); [reflexivity | ].
  eapply Forall2_all_false; [apply find_bad_stars_outlier | exact Hno].
Qed.

(** The rejector on a batch without a star: [star_shapes] has no row and its
    columns cannot be read. *)
Lemma outlier_rejection_unmeasured (d : StarData Stamp) (sigma : R) :
  star_list d <> [] -> mask_list d <> [] ->
  shapes_of (concat (star_list d)) (concat (mask_list d)) = [] ->
  reject d sigma = Raise IndexError.
Proof.
  intros Hs Hm Hnil. unfold outlier_rejection, np_concatenate.
  destruct (star_list d) as [ | s0 sl] eqn:Hsl; [congruence | ].
  destruct (mask_list d) as [ | m0 ml] eqn:Hml; [congruence | ].
  cbn [bind]. now rewrite Hnil.
Qed.

End OutlierProps.



Lemma sample_batch_thresh :
  spec_thresh 5 [0%R] = 0%R.
Proof.
  unfold spec_thresh, np_std, np_mean. cbn.
  replace ((0 + 0) / 1)%R with 0%R by lra.
  replace ((Rabs (0 - 0) * (Rabs (0 - 0) * 1) + 0) / 1)%R with 0%R.
  - rewrite sqrt_0. lra.
  - rewrite Rminus_diag, Rabs_R0. lra.
Qed.

Lemma outlier_rejection_no_outlier_witness :
  outlier_rejection unit (fun m => m) sample_moments sample_batch 5
  = Ok (sample_batch, [[false]]).
Proof.
  apply (outlier_rejection_no_outlier unit (fun m => m) sample_moments
           sample_batch 5); [discriminate | ].
  intros s [<- | []]. unfold is_outlier.
  cbn [shape_e1 shape_e2 shape_R2 shape_row measure_shapes sample_batch
       sample_moments star_list mask_list concat app combine map fst snd
       observed_shape_g1 observed_shape_g2 moments_sigma].
  replace (2 * 0 ^ 2)%R with 0%R by lra.
  rewrite sample_batch_thresh, Rabs_R0. lra.
Defined.


(** C10 fails on a batch of CCDs without a star: no star exceeds a
    threshold, and the rejector raises [IndexError] where the claim has it
    return the lists unchanged. *)
Lemma outlier_rejection_no_star_no_outlier :
  (forall s,
      In s (measure_shapes unit (fun m => m) sample_moments
              (concat (star_list empty_ccds_batch))
              (concat (mask_list empty_ccds_batch))) ->
      ~ is_outlier shape_e1 shape_e2 shape_R2 5
          (measure_shapes unit (fun m => m) sample_moments
             (concat (star_list empty_ccds_batch))
             (concat (mask_list empty_ccds_batch))) s) /\
  outlier_rejection unit (fun m => m) sample_moments empty_ccds_batch 5
  = Raise IndexError.
Proof. split; [intros s [] | reflexivity]. Qed.

(** ** Nearest neighbours *)

Lemma insert_by_key_perm (k : R * nat) (l : list (R * nat)) :
  Permutation (insert_by_key k l) (k :: l).
Proof.
  induction l as [ | k' l IH]; cbn; [reflexivity | ].
  destruct (Rleb (fst k) (fst k')); [reflexivity | ].
  rewrite IH. apply perm_swap.
Qed.

Lemma sort_by_key_perm (l : list (R * nat)) : Permutation (sort_by_key l) l.
Proof.
  induction l as [ | k l IH]; cbn; [reflexivity | ].
  now rewrite insert_by_key_perm, IH.
Qed.

Lemma map_snd_combine {A B : Type} (l : list A) (l' : list B) :
  length l = length l' -> map snd (combine l l') = l'.
Proof.
  revert l'; induction l as [ | a l IH]; intros [ | b l'] Hlen;
    cbn in *; try discriminate; [reflexivity | ].
  rewrite IH by congruence. reflexivity.
Qed.

Lemma map_fst_combine {A B : Type} (l : list A) (l' : list B) :
  length l = length l' -> map fst (combine l l') = l.
Proof.
  revert l'; induction l as [ | a l IH]; intros [ | b l'] Hlen;
    cbn in *; try discriminate; [reflexivity | ].
  rewrite IH by congruence. reflexivity.
Qed.

(** [np.argsort] returns the indices of its argument, each once. *)
Lemma np_argsort_perm (keys : list R) :
  Permutation (np_argsort keys) (seq 0 (length keys)).
Proof.
  unfold np_argsort. rewrite sort_by_key_perm.
  rewrite map_snd_combine; [reflexivity | now rewrite length_seq].
Qed.

Lemma np_argsort_length (keys : list R) :
  length (np_argsort keys) = length keys.
Proof.
  rewrite (Permutation_length (np_argsort_perm keys)). apply length_seq.
Qed.

Lemma np_argsort_bound (keys : list R) :
  Forall (fun i => (i < length keys)%nat) (np_argsort keys).
Proof.
  apply Forall_forall. intros i Hi.
  apply (Permutation_in _ (np_argsort_perm keys)) in Hi.
  apply in_seq in Hi. lia.
Qed.

Lemma take_indices_total {A : Type} (arr : list A) (idxs : list nat) :
  Forall (fun i => (i < length arr)%nat) idxs ->
  exists r, take_indices arr idxs = Ok r /\ length r = length idxs /\
            Forall2 (fun i a => arr !! i = Some a) idxs r.
Proof.
  unfold take_indices.
  induction 1 as [ | i idxs Hi _ (r & Hr & Hlen & Hall)]; cbn.
  - exists []. repeat split. constructor.
  - destruct (lookup_lt_is_Some_2 arr i Hi) as [a Ha].
    exists (a :: r). rewrite (list_get_Some _ _ _ Ha). cbn. rewrite Hr. cbn.
    repeat split; [now rewrite Hlen | now constructor].
Qed.

Lemma list_get_cases {A : Type} (l : list A) (i : nat) :
  list_get l i = Raise IndexError \/ exists a, list_get l i = Ok a.
Proof. unfold list_get. destruct (l !! i); eauto. Qed.

Lemma list_get_ge {A : Type} (l : list A) (i : nat) :
  (length l <= i)%nat -> list_get l i = Raise IndexError.
Proof. intros Hi. unfold list_get. now rewrite lookup_ge_None_2. Qed.

Lemma mapM_raise {A B : Type} (f : A -> result B) (l1 l2 : list A) (a : A)
  (e : PyError) :
  (forall x, In x l1 -> f x = Raise e \/ exists b, f x = Ok b) ->
  f a = Raise e ->
  mapM f (l1 ++ a :: l2) = Raise e.
Proof.
  intros Hl1 Ha. induction l1 as [ | x l1 IH]; cbn.
  - now rewrite Ha.
  - destruct (Hl1 x (or_introl eq_refl)) as [-> | [b ->]]; [reflexivity | ].
    cbn. rewrite IH; [reflexivity | ]. intros; apply Hl1. now right.
Qed.

Lemma seq_split (n k : nat) :
  (k < n)%nat -> seq 0 n = seq 0 k ++ k :: seq (S k) (n - S k).
Proof.
  intros Hk. replace n with (k + S (n - S k))%nat at 1 by lia.
  now rewrite seq_app.
Qed.

Lemma dist_columns_length (new_pos : R * R) (obs_pos : list (R * R))
  (c : nat) :
  length (dist_columns new_pos obs_pos c) = length obs_pos.
Proof.
  unfold dist_columns. rewrite length_map, length_combine, length_seq. lia.
Qed.

Lemma dist_list_total (new_pos : R * R) (l : list (list (R * R))) (c : nat) :
  length (concat (map (fun pc => dist_columns new_pos (fst pc) (snd pc))
                      (combine l (seq c (length l)))))
  = length (concat l).
Proof.
  revert c; induction l as [ | obs l IH]; intros c;
    cbn [length map combine seq concat fst snd]; [reflexivity | ].
  now rewrite !length_app, dist_columns_length, IH.
Qed.

Lemma Rleb_true (a b : R) : Rleb a b = true -> (a <= b)%R.
Proof. unfold Rleb. now destruct (Rle_dec a b). Qed.

Lemma Rleb_false (a b : R) : Rleb a b = false -> (b <= a)%R.
Proof.
  unfold Rleb. destruct (Rle_dec a b) as [ | Hn]; [discriminate | ].
  intros _. apply Rlt_le. now apply Rnot_le_lt.
Qed.

Lemma insert_by_key_sorted (k : R * nat) (l : list (R * nat)) :
  Sorted key_le l -> Sorted key_le (insert_by_key k l).
Proof.
  induction l as [ | k' l IH]; cbn; intros Hs.
  - repeat constructor.
  - destruct (Rleb (fst k) (fst k')) eqn:Hle.
    + constructor; [exact Hs | ]. constructor. now apply Rleb_true.
    + inversion Hs as [ | ? ? Hl Hhd]; subst.
      constructor; [now apply IH | ].
      destruct l as [ | k'' l]; cbn.
      * constructor. now apply Rleb_false.
      * destruct (Rleb (fst k) (fst k'')); constructor;
          [now apply Rleb_false | now inversion Hhd].
Qed.

Lemma sort_by_key_sorted (l : list (R * nat)) : Sorted key_le (sort_by_key l).
Proof.
  induction l as [ | k l IH]; cbn; [constructor | ].
  now apply insert_by_key_sorted.
Qed.

Lemma sorted_keys (l : list (R * nat)) :
  Sorted key_le l -> Sorted Rle (map fst l).
Proof.
  induction 1 as [ | k l _ IH Hhd]; cbn; constructor; [exact IH | ].
  destruct Hhd; cbn; constructor. assumption.
Qed.

Lemma combine_seq_lookup {A : Type} (l : list A) (start : nat) :
  Forall (fun ki => l !! (snd ki - start)%nat = Some (fst ki)
                    /\ (start <= snd ki)%nat)
         (combine l (seq start (length l))).
Proof.
  revert start; induction l as [ | a l IH]; intros start; cbn;
    constructor.
  - cbn. rewrite Nat.sub_diag. split; [reflexivity | lia].
  - eapply Forall_impl; [ | apply (IH (S start))].
    intros [k i] [Hk Hi]. cbn in *. split; [ | lia].
    replace (i - start)%nat with (S (i - S start)) by lia. exact Hk.
Qed.

(** The keys the sort carries are the distances of the indices it returns. *)
Lemma sort_by_key_keys (keys : list R) :
  Forall (fun ki => keys !! snd ki = Some (fst ki))
         (sort_by_key (combine keys (seq 0 (length keys)))).
Proof.
  apply Forall_forall. intros ki Hin.
  apply (Permutation_in _ (sort_by_key_perm _)) in Hin.
  pose proof (combine_seq_lookup keys 0) as H.
  rewrite Forall_forall in H. destruct (H ki Hin) as [Hk _].
  now rewrite Nat.sub_0_r in Hk.
Qed.

Lemma gathered_keys {A : Type} (f : A -> R) (arr : list A)
  (sp : list (R * nat)) (r : list A) :
  Forall (fun ki => map f arr !! snd ki = Some (fst ki)) sp ->
  Forall2 (fun i a => arr !! i = Some a) (map snd sp) r ->
  map f r = map fst sp.
Proof.
  intros Hsp; revert r; induction Hsp as [ | [k i] sp Hk _ IH]; intros r Hr;
    inversion Hr as [ | ? a ? r' Ha Hr' ]; subst; cbn; [reflexivity | ].
  cbn in Hk, Ha. rewrite map_fmap, list_lookup_fmap, Ha in Hk.
  injection Hk as ->. now rewrite (IH r' Hr').
Qed.

Lemma map_Some_inj {A : Type} (l l' : list A) :
  map Some l = map Some l' -> l = l'.
Proof.
  revert l'; induction l as [ | a l IH]; intros [ | a' l'] H;
    try discriminate; [reflexivity | ].
  cbn in H. injection H as -> H. now rewrite (IH l' H).
Qed.

Lemma lookup_seq_all {A : Type} (pre arr : list A) :
  map (fun i => (pre ++ arr) !! i) (seq (length pre) (length arr))
  = map Some arr.
Proof.
  revert pre; induction arr as [ | a arr IH]; intros pre; [reflexivity | ].
  cbn [length seq map].
  rewrite list_lookup_middle by reflexivity. f_equal.
  specialize (IH (pre ++ [a])).
  now rewrite length_app, Nat.add_1_r, <- app_assoc in IH.
Qed.

(** Gathering the entries of an array along a permutation of its indices
    gives a permutation of the array. *)
Lemma gathered_perm {A : Type} (arr : list A) (order : list nat)
  (r : list A) :
  Permutation order (seq 0 (length arr)) ->
  Forall2 (fun i a => arr !! i = Some a) order r ->
  Permutation r arr.
Proof.
  intros Hperm Hr.
  assert (Hmap : map (fun i => arr !! i) order = map Some r).
  { clear Hperm. induction Hr as [ | i a order r Ha _ IH]; [reflexivity | ].
    cbn. now rewrite Ha, IH. }
  apply (Permutation_map (fun i => arr !! i)) in Hperm.
  pose proof (lookup_seq_all [] arr) as Hall. cbn [app length] in Hall.
  rewrite Hmap, Hall in Hperm.
  apply Permutation_sym, Permutation_map_inv in Hperm.
  destruct Hperm as (l3 & Heq & Hp).
  apply map_Some_inj in Heq. subst l3. now apply Permutation_sym.
Qed.

(** The local search: with [n_neighbors] at least the number of stars of the
    CCD, [return_loc_neighbors] raises nothing and returns every star once,
    values and positions in step, by ascending distance. *)
Lemma return_loc_neighbors_all {V : Type} (new_pos : R * R)
  (obs_pos : list (R * R)) (vals : list V) (n_neighbors : nat) :
  length vals = length obs_pos ->
  (length obs_pos <= n_neighbors)%nat ->
  exists nbs pos order,
    return_loc_neighbors new_pos obs_pos vals n_neighbors = Ok (nbs, pos) /\
    Permutation order (seq 0 (length obs_pos)) /\
    Forall2 (fun i v => vals !! i = Some v) order nbs /\
    Forall2 (fun i p => obs_pos !! i = Some p) order pos /\
    Permutation nbs vals /\ Permutation pos obs_pos /\
    Sorted Rle (map (row_norm new_pos) pos).
Proof.
  intros Hlen Hk. unfold return_loc_neighbors.
  set (distances := map (row_norm new_pos) obs_pos).
  assert (Hd : length distances = length obs_pos)
    by (unfold distances; now rewrite length_map).
  rewrite firstn_all2 by (rewrite np_argsort_length; lia).
  destruct (take_indices_total vals (np_argsort distances))
    as (nbs & Hn & _ & Hnbs).
  { rewrite Hlen, <- Hd. apply np_argsort_bound. }
  destruct (take_indices_total obs_pos (np_argsort distances))
    as (pos & Hp & _ & Hpos).
  { rewrite <- Hd. apply np_argsort_bound. }
  exists nbs, pos, (np_argsort distances).
  rewrite Hn. cbn [bind]. rewrite Hp. cbn [bind].
  split; [reflexivity | ].
  split; [rewrite <- Hd; apply np_argsort_perm | ].
  split; [exact Hnbs | ]. split; [exact Hpos | ].
  split.
  { apply (gathered_perm vals (np_argsort distances)); [ | exact Hnbs].
    rewrite Hlen, <- Hd. apply np_argsort_perm. }
  split.
  { apply (gathered_perm obs_pos (np_argsort distances)); [ | exact Hpos].
    rewrite <- Hd. apply np_argsort_perm. }
  rewrite (gathered_keys (row_norm new_pos) obs_pos
             (sort_by_key (combine distances (seq 0 (length distances))))
             pos (sort_by_key_keys distances) Hpos).
  apply sorted_keys, sort_by_key_sorted.
Qed.

Lemma np_concatenate_ne {A : Type} (l : list (list A)) :
  l <> [] -> np_concatenate l = Ok (concat l).
Proof. destruct l; [congruence | reflexivity]. Qed.

(** C3, where it breaks: with more neighbours asked than there are stars in
    the CCDs, [return_glob_neighbors] raises [IndexError]: the sorted indices
    are cut to the number of stars, and the two list comprehensions still run
    over [range(n_neighbors)]. *)
Theorem return_glob_neighbors_too_many {V : Type} (new_pos : R * R)
  (obs_pos_list : list (list (R * R))) (val_list : list (list V))
  (n_neighbors : nat) :
  obs_pos_list <> [] ->
  (length (concat obs_pos_list) < n_neighbors)%nat ->
  return_glob_neighbors new_pos obs_pos_list val_list n_neighbors
  = Raise IndexError.
Proof.
  intros Hne Hk. unfold return_glob_neighbors.
  pose proof (dist_list_total new_pos obs_pos_list 0) as Htot.
  rewrite np_concatenate_ne
    by (destruct obs_pos_list; [congruence | discriminate]).
  cbn [bind].
  set (distances :=
         concat (map (fun pc => dist_columns new_pos (fst pc) (snd pc))
                     (combine obs_pos_list (seq 0 (length obs_pos_list)))))
    in *.
  set (keys := map (fun t => fst (fst t)) distances).
  assert (Hkeys : length keys = length (concat obs_pos_list)).
  { unfold keys. now rewrite length_map. }
  rewrite firstn_all2 by (rewrite np_argsort_length; lia).
  destruct (take_indices_total (map (fun t => snd (fst t)) distances)
              (np_argsort keys)) as (ccd_idxs & Hc & Hclen & _).
  { rewrite length_map, Htot, <- Hkeys. apply np_argsort_bound. }
  destruct (take_indices_total (map (fun t => snd t) distances)
              (np_argsort keys)) as (inter & Hi & Hilen & _).
  { rewrite length_map, Htot, <- Hkeys. apply np_argsort_bound. }
  rewrite Hc. cbn [bind]. rewrite Hi. cbn [bind].
  rewrite np_argsort_length, Hkeys in Hclen.
  rewrite (seq_split n_neighbors (length (concat obs_pos_list)) Hk).
  rewrite (mapM_raise _ _ _ _ IndexError); [reflexivity | | ].
  - intros it _.
    destruct (list_get_cases ccd_idxs it) as [-> | [c ->]]; [now left | ].
    cbn [bind].
    destruct (list_get_cases val_list c) as [-> | [vals ->]]; [now left | ].
    cbn [bind].
    destruct (list_get_cases inter it) as [-> | [i ->]]; [now left | ].
    cbn [bind]. apply list_get_cases.
  - rewrite list_get_ge by lia. reflexivity.
Qed.

Lemma lookup_combine_seq {A : Type} (l : list A) (start i : nat) (a : A) :
  l !! i = Some a ->
  combine l (seq start (length l)) !! i = Some (a, (start + i)%nat).
Proof.
  revert start i; induction l as [ | x l IH]; intros start i Hi; [easy | ].
  destruct i as [ | i]; cbn [length seq combine].
  - cbn in Hi |- *. injection Hi as ->. now rewrite Nat.add_0_r.
  - change (combine l (seq (S start) (length l)) !! i
            = Some (a, (start + S i)%nat)).
    rewrite (IH (S start) i Hi).
    now replace (S start + i)%nat with (start + S i)%nat by lia.
Qed.

Lemma dist_columns_lookup (new_pos : R * R) (obs : list (R * R))
  (c i : nat) (p : R * R) :
  obs !! i = Some p ->
  dist_columns new_pos obs c !! i = Some (row_norm new_pos p, c, i).
Proof.
  intros Hi. unfold dist_columns.
  rewrite map_fmap, list_lookup_fmap, (lookup_combine_seq obs 0 i p Hi).
  reflexivity.
Qed.

(** Column [g] of [distances] belongs to the star [g] of the concatenated
    CCDs, and names its CCD and its place inside the CCD. *)
Lemma dist_list_lookup (new_pos : R * R) (l : list (list (R * R)))
  (c0 g : nat) :
  (g < length (concat l))%nat ->
  exists t i obs p,
    concat (map (fun pc => dist_columns new_pos (fst pc) (snd pc))
                (combine l (seq c0 (length l)))) !! g
    = Some (row_norm new_pos p, (c0 + t)%nat, i) /\
    l !! t = Some obs /\ obs !! i = Some p /\
    g = (length (concat (take t l)) + i)%nat.
Proof.
  revert c0 g; induction l as [ | obs l IH]; intros c0 g Hg;
    cbn in Hg; [lia | ].
  rewrite length_app in Hg. cbn [length seq combine map concat fst snd].
  destruct (Nat.lt_ge_cases g (length obs)) as [Hlt | Hge].
  - destruct (lookup_lt_is_Some_2 obs g Hlt) as [p Hp].
    exists 0%nat, g, obs, p.
    rewrite lookup_app_l by now rewrite dist_columns_length.
    rewrite (dist_columns_lookup new_pos obs c0 g p Hp), Nat.add_0_r.
    repeat split; trivial.
  - destruct (IH (S c0) (g - length obs)%nat)
      as (t & i & obs' & p & Hlk & Hl & Hp & Hoff); [lia | ].
    exists (S t), i, obs', p.
    rewrite lookup_app_r by (rewrite dist_columns_length; exact Hge).
    rewrite dist_columns_length, Hlk. cbn [take firstn concat].
    rewrite length_app. repeat split; trivial; [ | lia].
    now replace (S c0 + t)%nat with (c0 + S t)%nat by lia.
Qed.

Lemma concat_lookup {A : Type} (l : list (list A)) (t i : nat)
  (a : list A) (x : A) :
  l !! t = Some a -> a !! i = Some x ->
  concat l !! (length (concat (take t l)) + i)%nat = Some x.
Proof.
  revert t; induction l as [ | a0 l IH]; intros t Ht Hi; [easy | ].
  destruct t as [ | t]; cbn in Ht |- *.
  - injection Ht as ->. now apply lookup_app_l_Some.
  - rewrite length_app, <- Nat.add_assoc, lookup_app_r by lia.
    replace (length a0 + (length (concat (take t l)) + i) - length a0)%nat
      with (length (concat (take t l)) + i)%nat by lia.
    now apply IH.
Qed.

Lemma dist_keys (new_pos : R * R) (l : list (list (R * R))) (c0 : nat) :
  map (fun t => fst (fst t))
      (concat (map (fun pc => dist_columns new_pos (fst pc) (snd pc))
                   (combine l (seq c0 (length l)))))
  = map (row_norm new_pos) (concat l).
Proof.
  revert c0; induction l as [ | obs l IH]; intros c0; [reflexivity | ].
  cbn [length seq combine map concat fst snd].
  rewrite !map_app, IH. f_equal.
  unfold dist_columns. rewrite map_map. cbn [fst snd].
  rewrite <- (map_map fst (row_norm new_pos)).
  now rewrite map_fst_combine by now rewrite length_seq.
Qed.

Lemma mapM_seq_Forall2 {A B : Type} (l : list A) (f : nat -> result B)
  (P : A -> B -> Prop) (start : nat) :
  (forall it a, l !! it = Some a ->
                exists b, f (start + it)%nat = Ok b /\ P a b) ->
  exists bs, mapM f (seq start (length l)) = Ok bs /\ Forall2 P l bs.
Proof.
  revert start; induction l as [ | a l IH]; intros start Hf.
  - exists []. split; [reflexivity | constructor].
  - destruct (Hf 0%nat a eq_refl) as (b & Hb & Hab).
    rewrite Nat.add_0_r in Hb.
    destruct (IH (S start)) as (bs & Hbs & Hall).
    { intros it a' Hit. destruct (Hf (S it) a' Hit) as (b' & Hb' & Hab').
      exists b'. split; [ | exact Hab'].
      now replace (S start + it)%nat with (start + S it)%nat by lia. }
    exists (b :: bs). cbn. rewrite Hb. cbn. rewrite Hbs. cbn.
    split; [reflexivity | now constructor].
Qed.

Lemma Forall2_lookup_both {A B : Type} (P : A -> B -> Prop) (l : list A)
  (l' : list B) (i : nat) (a : A) :
  Forall2 P l l' -> l !! i = Some a -> exists b, l' !! i = Some b /\ P a b.
Proof.
  intros H; revert i; induction H as [ | x y l l' Hxy _ IH]; intros i Hi;
    [easy | ].
  destruct i as [ | i]; cbn in Hi |- *; [ | now apply IH].
  injection Hi as ->. eauto.
Qed.

(** The global search with exactly as many neighbours asked as there are
    stars: every star comes back once, values and positions in step, by
    ascending distance. *)
Lemma return_glob_neighbors_exact {V : Type} (new_pos : R * R)
  (obs_pos_list : list (list (R * R))) (val_list : list (list V)) :
  obs_pos_list <> [] ->
  same_counts val_list obs_pos_list ->
  exists values positions order,
    return_glob_neighbors new_pos obs_pos_list val_list
                          (length (concat obs_pos_list))
    = Ok (values, positions) /\
    Permutation order (seq 0 (length (concat obs_pos_list))) /\
    Forall2 (fun g v => concat val_list !! g = Some v) order values /\
    Forall2 (fun g p => concat obs_pos_list !! g = Some p) order positions /\
    Permutation values (concat val_list) /\
    Permutation positions (concat obs_pos_list) /\
    Sorted Rle (map (row_norm new_pos) positions).
Proof.
  intros Hne Hsc. unfold return_glob_neighbors.
  pose proof (dist_list_total new_pos obs_pos_list 0) as Htot.
  pose proof (dist_keys new_pos obs_pos_list 0) as Hkeys.
  pose proof (dist_list_lookup new_pos obs_pos_list 0) as Hlk.
  rewrite np_concatenate_ne
    by (destruct obs_pos_list; [congruence | discriminate]).
  cbn [bind].
  set (distances :=
         concat (map (fun pc => dist_columns new_pos (fst pc) (snd pc))
                     (combine obs_pos_list (seq 0 (length obs_pos_list)))))
    in *.
  set (keys := map (fun t => fst (fst t)) distances) in *.
  assert (Hklen : length keys = length (concat obs_pos_list))
    by (rewrite Hkeys; apply length_map).
  set (order := np_argsort keys).
  assert (Horder : Permutation order (seq 0 (length (concat obs_pos_list))))
    by (rewrite <- Hklen; apply np_argsort_perm).
  assert (Hbound : Forall (fun g => (g < length (concat obs_pos_list))%nat)
                          order)
    by (rewrite <- Hklen; apply np_argsort_bound).
  rewrite firstn_all2 by (unfold order; rewrite np_argsort_length; lia).
  destruct (take_indices_total (map (fun t => snd (fst t)) distances) order)
    as (ccd_idxs & Hc & Hclen & Hccd).
  { now rewrite length_map, Htot. }
  destruct (take_indices_total (map (fun t => snd t) distances) order)
    as (inter & Hi & Hilen & Hinter).
  { now rewrite length_map, Htot. }
  fold order. rewrite Hc. cbn [bind]. rewrite Hi. cbn [bind].
  assert (Hlen : length (concat obs_pos_list) = length order).
  { rewrite (Permutation_length Horder). now rewrite length_seq. }
  rewrite Hlen.
  assert (Hstar : forall it g, order !! it = Some g ->
            exists c i obs p vals v,
              ccd_idxs !! it = Some c /\ inter !! it = Some i /\
              obs_pos_list !! c = Some obs /\ obs !! i = Some p /\
              val_list !! c = Some vals /\ vals !! i = Some v /\
              concat obs_pos_list !! g = Some p /\
              concat val_list !! g = Some v).
  { intros it g Hit.
    assert (Hg : (g < length (concat obs_pos_list))%nat).
    { rewrite Forall_forall in Hbound. apply Hbound.
      eapply list_elem_of_In, list_elem_of_lookup_2; exact Hit. }
    destruct (Hlk g Hg) as (t & i & obs & p & Hd & Ht & Hp & Hoff).
    cbn [Nat.add] in Hd.
    destruct (Forall2_lookup_both _ _ _ it g Hccd Hit) as (c & Hcit & Hcg).
    destruct (Forall2_lookup_both _ _ _ it g Hinter Hit) as (i' & Hiit & Hig).
    rewrite map_fmap, list_lookup_fmap, Hd in Hcg, Hig.
    cbn in Hcg, Hig. injection Hcg as <-. injection Hig as <-.
    destruct (same_counts_lookup val_list obs_pos_list t obs Hsc Ht)
      as (vals & Hvals & Hvlen).
    destruct (lookup_lt_is_Some_2 vals i) as [v Hv].
    { rewrite Hvlen. eapply lookup_lt_Some; exact Hp. }
    exists t, i, obs, p, vals, v. repeat split; trivial.
    - rewrite Hoff. now apply (concat_lookup obs_pos_list t i obs p).
    - rewrite Hoff, <- (same_counts_offset val_list obs_pos_list t Hsc).
      now apply (concat_lookup val_list t i vals v). }
  match goal with
  | |- context [mapM ?f (seq 0 (length order))] =>
      destruct (mapM_seq_Forall2 order f
                  (fun g v => concat val_list !! g = Some v) 0)
        as (values & Hvalues & Hvall)
  end.
  { intros it g Hit.
    destruct (Hstar it g Hit)
      as (c & i & obs & p & vals & v & H1 & H2 & H3 & H4 & H5 & H6 & H7 & H8).
    exists v. cbn [Nat.add].
    rewrite (list_get_Some _ _ _ H1). cbn [bind].
    rewrite (list_get_Some _ _ _ H5). cbn [bind].
    rewrite (list_get_Some _ _ _ H2). cbn [bind].
    now rewrite (list_get_Some _ _ _ H6). }
  rewrite Hvalues. cbn [bind].
  match goal with
  | |- context [mapM ?f (seq 0 (length order))] =>
      destruct (mapM_seq_Forall2 order f
                  (fun g p => concat obs_pos_list !! g = Some p) 0)
        as (positions & Hpositions & Hpall)
  end.
  { intros it g Hit.
    destruct (Hstar it g Hit)
      as (c & i & obs & p & vals & v & H1 & H2 & H3 & H4 & H5 & H6 & H7 & H8).
    exists p. cbn [Nat.add].
    rewrite (list_get_Some _ _ _ H1). cbn [bind].
    rewrite (list_get_Some _ _ _ H3). cbn [bind].
    rewrite (list_get_Some _ _ _ H2). cbn [bind].
    now rewrite (list_get_Some _ _ _ H4). }
  rewrite Hpositions. cbn [bind]. rewrite <- Hlen.
  exists values, positions, order.
  split; [reflexivity | ]. split; [exact Horder | ].
  split; [exact Hvall | ]. split; [exact Hpall | ].
  split.
  { apply (gathered_perm (concat val_list) order); [ | exact Hvall].
    now rewrite (same_counts_total val_list obs_pos_list Hsc). }
  split; [now apply (gathered_perm (concat obs_pos_list) order) | ].
  rewrite (gathered_keys (row_norm new_pos) (concat obs_pos_list)
             (sort_by_key (combine keys (seq 0 (length keys)))) positions).
  - apply sorted_keys, sort_by_key_sorted.
  - rewrite <- Hkeys. apply sort_by_key_keys.
  - exact Hpall.
Qed.

(** The failing call: one CCD with one star, two neighbours asked. *)
Lemma return_glob_neighbors_too_many_witness :
  return_glob_neighbors (0%R, 0%R) [[(1%R, 0%R)]] [[tt]] 2
  = Raise IndexError.
Proof.
  apply (return_glob_neighbors_too_many (0%R, 0%R) [[(1%R, 0%R)]] [[tt]] 2).
  - discriminate.
  - cbn. lia.
Defined.

(** ** The Pi matrices *)

Lemma np_sum_app (l1 l2 : list R) :
  np_sum (l1 ++ l2) = (np_sum l1 + np_sum l2)%R.
Proof.
  unfold np_sum. induction l1 as [ | a l1 IH]; cbn; [lra | ].
  rewrite IH. lra.
Qed.

Lemma sum_sq_nonneg (l : list R) :
  (0 <= np_sum (map (fun v => v ^ 2) l))%R.
Proof.
  unfold np_sum. induction l as [ | a l IH]; cbn [map fold_right]; [lra | ].
  apply Rplus_le_le_0_compat; [apply pow2_ge_0 | exact IH].
Qed.

Lemma mapM_map {A B : Type} (f : A -> result B) (g : A -> B) (l : list A) :
  (forall a, In a l -> f a = Ok (g a)) -> mapM f l = Ok (map g l).
Proof.
  induction l as [ | a l IH]; intros H; cbn; [reflexivity | ].
  rewrite (H a (or_introl eq_refl)). cbn.
  rewrite IH; [reflexivity | ]. intros; apply H. now right.
Qed.

Lemma list_get_nth {A : Type} (l : list A) (i : nat) (d : A) :
  (i < length l)%nat -> list_get l i = Ok (nth i l d).
Proof.
  revert i; induction l as [ | a l IH]; intros i Hi; cbn in Hi; [lia | ].
  destruct i as [ | i]; [reflexivity | ].
  apply (IH i). lia.
Qed.

(** *** The shape of [poly_pos] *)

Lemma triangular_step (d : nat) :
  ((S d + 1) * (S d + 2) / 2 = (d + 1) * (d + 2) / 2 + (d + 2))%nat.
Proof.
  replace ((S d + 1) * (S d + 2))%nat
    with ((d + 1) * (d + 2) + (d + 2) * 2)%nat by lia.
  now rewrite Nat.div_add by lia.
Qed.

Lemma poly_pos_length (pos : list (R * R)) (d : nat) :
  length (poly_pos pos d) = ((d + 1) * (d + 2) / 2)%nat.
Proof.
  unfold poly_pos. induction d as [ | d IH]; [reflexivity | ].
  rewrite (seq_S (S d)), flat_map_app, length_app, IH, triangular_step.
  cbn [flat_map Nat.add]. rewrite app_nil_r, length_map, length_seq. lia.
Qed.

Lemma poly_pos_row0 (pos : list (R * R)) (d : nat) :
  nth 0 (poly_pos pos d) [] = map (fun _ => (1 * 1)%R) pos.
Proof. reflexivity. Qed.

Lemma poly_pos_row_length (pos : list (R * R)) (d : nat) (r : list R) :
  In r (poly_pos pos d) -> length r = length pos.
Proof.
  unfold poly_pos. rewrite in_flat_map. intros (k & _ & Hr).
  rewrite in_map_iff in Hr. destruct Hr as (p & <- & _).
  unfold monomial_row. now rewrite length_map.
Qed.

Lemma n_comp_glob_pos (d : nat) : (0 < (d + 1) * (d + 2) / 2)%nat.
Proof.
  induction d as [ | d IH]; [cbn; lia | ].
  rewrite triangular_step. lia.
Qed.

(** *** The global norms *)

(** The loop over the CCDs adds up the squares of one monomial row. *)
Lemma sum_loop (pre Ms : list matrix) (it : nat) (acc0 : R) :
  (forall M, In M Ms -> (it < length M)%nat) ->
  foldM (fun acc it_ccd =>
           let* M := list_get (pre ++ Ms) it_ccd in
           let* s := row_sum_sq M it in
           Ok (acc + s)%R)
        acc0 (seq (length pre) (length Ms))
  = Ok (acc0 + np_sum (map (fun v => v ^ 2)
                           (concat (map (fun M => nth it M []) Ms))))%R.
Proof.
  revert pre acc0; induction Ms as [ | M Ms IH]; intros pre acc0 Hrows.
  - cbn. f_equal. lra.
  - cbn [length seq foldM map concat].
    rewrite (list_get_Some (pre ++ M :: Ms) (length pre) M)
      by apply list_lookup_middle, eq_refl.
    cbn [bind]. unfold row_sum_sq at 1.
    rewrite (list_get_nth M it []) by (apply Hrows; now left).
    cbn [bind].
    specialize (IH (pre ++ [M])
                  (acc0 + np_sum (map (fun v => v ^ 2) (nth it M [])))%R).
    rewrite <- app_assoc, length_app, Nat.add_1_r in IH. cbn [app] in IH.
    rewrite IH by (intros; apply Hrows; now right).
    rewrite map_app, np_sum_app. f_equal. lra.
Qed.

Lemma global_norm_spec (position_list : list (list (R * R))) (d it : nat) :
  (it < (d + 1) * (d + 2) / 2)%nat ->
  global_norm (map (fun pos => poly_pos pos d) position_list)
              (length position_list) it
  = Ok (global_row_norm position_list d it).
Proof.
  intros Hit. unfold global_norm, global_row_norm, row_across_ccds.
  pose proof (sum_loop [] (map (fun pos => poly_pos pos d) position_list)
                it 0%R) as Hloop.
  cbn [app length] in Hloop. rewrite length_map in Hloop.
  rewrite Hloop.
  - cbn [bind]. rewrite map_map, Rplus_0_l. reflexivity.
  - intros M HM. apply in_map_iff in HM. destruct HM as (pos & <- & _).
    now rewrite poly_pos_length.
Qed.

Lemma sum_vals_spec (position_list : list (list (R * R))) (d : nat) :
  mapM (global_norm (map (fun pos => poly_pos pos d) position_list)
                    (length position_list))
       (seq 0 ((d + 1) * (d + 2) / 2))
  = Ok (spec_norms position_list d).
Proof.
  unfold spec_norms. apply mapM_map. intros it Hit.
  apply in_seq in Hit. apply global_norm_spec. lia.
Qed.

Lemma stage1_spec (position_list : list (list (R * R))) (d : nat) :
  mapM (fun M => div_rows M (spec_norms position_list d))
       (map (fun pos => poly_pos pos d) position_list)
  = Ok (spec_stage1 position_list d).
Proof.
  unfold spec_stage1. rewrite <- (map_map (fun pos => poly_pos pos d)
    (fun M => map (fun rs => map (fun v => (v / snd rs)%R) (fst rs))
                  (combine M (spec_norms position_list d)))).
  apply mapM_map. intros M HM.
  apply in_map_iff in HM. destruct HM as (pos & <- & _).
  unfold div_rows, spec_norms.
  now rewrite poly_pos_length, length_map, length_seq, Nat.eqb_refl.
Qed.

(** The constant-term entry of the first matrix after the first stage. *)
Lemma stage1_constant (p0 : R * R) (tile0 : list (R * R))
  (rest : list (list (R * R))) (d : nat) :
  matrix_get (nth 0 (spec_stage1 ((p0 :: tile0) :: rest) d) []) 0 0
  = Ok (1 * 1 / global_row_norm ((p0 :: tile0) :: rest) d 0)%R.
Proof.
  unfold spec_stage1, spec_norms. cbn [map nth].
  destruct ((d + 1) * (d + 2) / 2)%nat as [ | n] eqn:Hn.
  { pose proof (n_comp_glob_pos d). lia. }
  reflexivity.
Qed.

Lemma global_row_norm0_pos (p0 : R * R) (tile0 : list (R * R))
  (rest : list (list (R * R))) (d : nat) :
  (0 < global_row_norm ((p0 :: tile0) :: rest) d 0)%R.
Proof.
  unfold global_row_norm, row_across_ccds. apply sqrt_lt_R0.
  cbn [map concat]. rewrite poly_pos_row0. cbn [map app].
  unfold np_sum. cbn [fold_right].
  pose proof (sum_sq_nonneg
                (map (fun _ => (1 * 1)%R) tile0
                 ++ concat (map (fun pos => nth 0 (poly_pos pos d) []) rest)))
    as Hrest.
  unfold np_sum in Hrest. lra.
Qed.

(** C7, as the code has it: when the first CCD holds at least one position,
    the matrices are returned, normalised in two stages: every monomial row
    of every matrix over the L2 norm of that row across all the CCDs, then
    every matrix over the constant-term entry of the first one; this entry
    ends at 1. *)
Theorem interpolation_Pi_two_stage (p0 : R * R) (tile0 : list (R * R))
  (rest : list (list (R * R))) (d_comp_glob : nat) :
  exists norm_val,
    matrix_get
      (nth 0 (spec_stage1 ((p0 :: tile0) :: rest) d_comp_glob) []) 0 0
    = Ok norm_val /\
    interpolation_Pi ((p0 :: tile0) :: rest) d_comp_glob
    = Ok (spec_stage2 (spec_stage1 ((p0 :: tile0) :: rest) d_comp_glob)
                      norm_val) /\
    matrix_get
      (nth 0 (spec_stage2 (spec_stage1 ((p0 :: tile0) :: rest) d_comp_glob)
                          norm_val) []) 0 0
    = Ok 1%R.
Proof.
  pose proof (stage1_constant p0 tile0 rest d_comp_glob) as Hc.
  pose proof (global_row_norm0_pos p0 tile0 rest d_comp_glob) as Hpos.
  set (position_list := (p0 :: tile0) :: rest) in *.
  set (c := (1 * 1 / global_row_norm position_list d_comp_glob 0)%R) in *.
  assert (Hc0 : c <> 0%R).
  { unfold c. apply Rgt_not_eq. apply Rdiv_lt_0_compat; lra. }
  exists c. split; [exact Hc | ]. split.
  - unfold interpolation_Pi.
    rewrite sum_vals_spec. cbn [bind]. rewrite stage1_spec. cbn [bind].
    rewrite (list_get_nth (spec_stage1 position_list d_comp_glob) 0%nat [])
      by (unfold spec_stage1, position_list; cbn [map length]; lia).
    cbn [bind]. rewrite Hc. reflexivity.
  - revert Hc. unfold spec_stage2, matrix_get, list_get.
    destruct (spec_stage1 position_list d_comp_glob) as [ | M0 Ms];
      cbn [nth map]; [discriminate | ].
    destruct M0 as [ | r0 M0]; cbn; [discriminate | ].
    destruct r0 as [ | v r0]; cbn; [discriminate | ].
    intros [= ->]. f_equal. now apply Rdiv_diag.
Qed.

(** C7 fails on a first CCD without a star: the constant-term entry the
    second stage divides by is not there. *)
Lemma interpolation_Pi_empty_first_ccd :
  interpolation_Pi [[]] 0 = Raise IndexError.
Proof. reflexivity. Qed.

(** ** The moment grid *)

Lemma has_shape_lookup (n0 n1 n2 : nat) (a : list (list (list R)))
  (c x y : nat) :
  has_shape n0 n1 n2 a -> (c < n0)%nat -> (x < n1)%nat -> (y < n2)%nat ->
  exists tile r v,
    a !! c = Some tile /\ tile !! x = Some r /\ r !! y = Some v /\
    length tile = n1 /\ length r = n2.
Proof.
  intros [Hlen Hall] Hc Hx Hy.
  destruct (lookup_lt_is_Some_2 a c) as [tile Htile]; [lia | ].
  rewrite Forall_forall in Hall.
  destruct (Hall tile) as [Htl Hrows];
    [eapply list_elem_of_In, list_elem_of_lookup_2; exact Htile | ].
  destruct (lookup_lt_is_Some_2 tile x) as [r Hr]; [lia | ].
  rewrite Forall_forall in Hrows.
  pose proof (Hrows r) as Hrl.
  destruct (lookup_lt_is_Some_2 r y) as [v Hv].
  { rewrite Hrl; [exact Hy | ].
    eapply list_elem_of_In, list_elem_of_lookup_2; exact Hr. }
  exists tile, r, v. repeat split; trivial.
  apply Hrl. eapply list_elem_of_In, list_elem_of_lookup_2; exact Hr.
Qed.

Lemma get3_lookup (a : list (list (list R))) (c x y : nat)
  (tile : list (list R)) (r : list R) (v : R) :
  a !! c = Some tile -> tile !! x = Some r -> r !! y = Some v ->
  get3 a c x y = Ok v.
Proof.
  intros Ht Hr Hv. unfold get3, list_get. rewrite Ht. cbn [bind].
  rewrite Hr. cbn [bind]. now rewrite Hv.
Qed.

(** [a[c, x, y] = v] on an array of the right shape: the write succeeds, keeps
    the shape, and changes the cell [(c, x, y)] only. *)
Lemma set3_spec (n0 n1 n2 : nat) (a : list (list (list R)))
  (c x y : nat) (v : R) :
  has_shape n0 n1 n2 a -> (c < n0)%nat -> (x < n1)%nat -> (y < n2)%nat ->
  exists a',
    set3 a c x y v = Ok a' /\
    has_shape n0 n1 n2 a' /\
    get3 a' c x y = Ok v /\
    (forall c' x' y', (c', x', y') <> (c, x, y) ->
                      get3 a' c' x' y' = get3 a c' x' y').
Proof.
  intros Hshape Hc Hx Hy.
  destruct (has_shape_lookup n0 n1 n2 a c x y Hshape Hc Hx Hy)
    as (tile & r & v0 & Htile & Hr & Hv0 & Htl & Hrl).
  destruct Hshape as [Hlen Hall].
  exists (<[c := <[x := <[y := v]> r]> tile]> a).
  unfold set3. rewrite (list_get_Some _ _ _ Htile). cbn [bind].
  rewrite (list_get_Some _ _ _ Hr). cbn [bind].
  rewrite list_set_lt by lia. cbn [bind].
  rewrite list_set_lt by lia. cbn [bind].
  rewrite list_set_lt by lia.
  split; [reflexivity | ]. split; [ | split].
  - split; [now rewrite length_insert | ].
    rewrite Forall_forall in Hall. apply Forall_forall. intros t Ht.
    apply list_elem_of_In, list_elem_of_lookup_1 in Ht.
    destruct Ht as [i Hi].
    destruct (Nat.eq_dec c i) as [<- | Hne].
    + rewrite list_lookup_insert_eq in Hi by lia. injection Hi as <-.
      destruct (Hall tile) as [_ Hrows];
        [eapply list_elem_of_In, list_elem_of_lookup_2; exact Htile | ].
      split; [now rewrite length_insert | ].
      rewrite Forall_forall in Hrows. apply Forall_forall. intros r' Hr'.
      apply list_elem_of_In, list_elem_of_lookup_1 in Hr'.
      destruct Hr' as [j Hj].
      destruct (Nat.eq_dec x j) as [<- | Hne].
      * rewrite list_lookup_insert_eq in Hj by lia. injection Hj as <-.
        now rewrite length_insert.
      * rewrite list_lookup_insert_ne in Hj by exact Hne.
        apply Hrows. eapply list_elem_of_In, list_elem_of_lookup_2; exact Hj.
    + rewrite list_lookup_insert_ne in Hi by exact Hne.
      apply Hall. eapply list_elem_of_In, list_elem_of_lookup_2; exact Hi.
  - apply (get3_lookup _ c x y (<[x := <[y := v]> r]> tile) (<[y := v]> r) v);
      apply list_lookup_insert_eq; lia.
  - intros c' x' y' Hne. unfold get3, list_get.
    destruct (Nat.eq_dec c c') as [<- | Hcne];
      [ | now rewrite list_lookup_insert_ne by exact Hcne].
    rewrite list_lookup_insert_eq, Htile by lia. cbn [bind].
    destruct (Nat.eq_dec x x') as [<- | Hxne];
      [ | now rewrite list_lookup_insert_ne by exact Hxne].
    rewrite list_lookup_insert_eq, Hr by lia. cbn [bind].
    destruct (Nat.eq_dec y y') as [<- | Hyne]; [congruence | ].
    now rewrite list_lookup_insert_ne by exact Hyne.
Qed.

Lemma np_zeros3_shape (n0 n1 n2 : nat) :
  has_shape n0 n1 n2 (np_zeros3 n0 n1 n2).
Proof.
  unfold has_shape, np_zeros3. split; [apply repeat_length | ].
  apply Forall_forall. intros tile Ht. apply repeat_spec in Ht. subst tile.
  split; [apply repeat_length | ].
  apply Forall_forall. intros r Hr. apply repeat_spec in Hr. subst r.
  apply repeat_length.
Qed.

(** *** The target of a cell *)

Lemma reoriented_in_grid (n0 n1 n2 : nat) (cell : nat * nat * nat) :
  in_grid n0 n1 n2 cell -> in_grid n0 n1 n2 (reorient_target n1 n2 cell).
Proof.
  destruct cell as [[c x] y]. unfold in_grid, reorient_target, reoriented.
  intros (Hc & Hx & Hy). destruct (flipped (Z.of_nat c)); cbn; lia.
Qed.

Lemma reorient_target_inj (n0 n1 n2 : nat) (cell cell' : nat * nat * nat) :
  in_grid n0 n1 n2 cell -> in_grid n0 n1 n2 cell' ->
  reorient_target n1 n2 cell = reorient_target n1 n2 cell' -> cell = cell'.
Proof.
  destruct cell as [[c x] y], cell' as [[c' x'] y'].
  unfold in_grid, reorient_target, reoriented.
  intros (Hc & Hx & Hy) (Hc' & Hx' & Hy') Heq.
  injection Heq as -> Hxe Hye.
  destruct (flipped (Z.of_nat c')); cbn in Hxe, Hye;
    repeat f_equal; lia.
Qed.

Lemma reoriented_spec (x_grid y_grid ccd_it it_x it_y : nat) :
  reoriented x_grid y_grid ccd_it it_x it_y
  = spec_reoriented x_grid y_grid ccd_it it_x it_y.
Proof.
  unfold reoriented, spec_reoriented. rewrite flipped_spec.
  replace (Z.of_nat ccd_it <? 18) with (ccd_it <? 18)%nat
    by (destruct (Nat.ltb_spec ccd_it 18), (Z.ltb_spec (Z.of_nat ccd_it) 18);
        trivial; lia).
  replace (Z.of_nat ccd_it =? 36) with (ccd_it =? 36)%nat
    by (destruct (Nat.eqb_spec ccd_it 36), (Z.eqb_spec (Z.of_nat ccd_it) 36);
        trivial; lia).
  replace (Z.of_nat ccd_it =? 37) with (ccd_it =? 37)%nat
    by (destruct (Nat.eqb_spec ccd_it 37), (Z.eqb_spec (Z.of_nat ccd_it) 37);
        trivial; lia).
  destruct ((ccd_it <? 18)%nat || (ccd_it =? 36)%nat || (ccd_it =? 37)%nat);
    [reflexivity | ].
  f_equal; lia.
Qed.

Lemma cell_eq_dec (cell cell' : nat * nat * nat) :
  {cell = cell'} + {cell <> cell'}.
Proof. repeat decide equality. Qed.

Lemma get_cell_in_grid (n0 n1 n2 : nat) (a : list (list (list R)))
  (cell : nat * nat * nat) :
  has_shape n0 n1 n2 a -> in_grid n0 n1 n2 cell ->
  exists v, get_cell a cell = Ok v.
Proof.
  destruct cell as [[c x] y]. intros Hshape (Hc & Hx & Hy).
  destruct (has_shape_lookup n0 n1 n2 a c x y Hshape Hc Hx Hy)
    as (tile & r & v & Ht & Hr & Hv & _).
  exists v. now apply (get3_lookup a c x y tile r v).
Qed.

(** *** The reorientation loop *)

(** After the loop every cell it went through is stored at its target, and
    a place that is the target of none of them is as before. *)
Lemma reorient_loop (n0 n1 n2 : nat) (src : list (list (list R)))
  (cells : list (nat * nat * nat)) (a : list (list (list R))) :
  has_shape n0 n1 n2 src -> has_shape n0 n1 n2 a ->
  Forall (in_grid n0 n1 n2) cells ->
  exists a',
    foldM (reorient_step n1 n2 src) a cells = Ok a' /\
    has_shape n0 n1 n2 a' /\
    (forall cell, In cell cells ->
                  get_cell a' (reorient_target n1 n2 cell) = get_cell src cell) /\
    (forall t, (forall cell, In cell cells -> reorient_target n1 n2 cell <> t) ->
               get_cell a' t = get_cell a t).
Proof.
  intros Hsrc Ha Hcells; revert a Ha.
  induction Hcells as [ | cell cells Hcell Hcells IH]; intros a Ha.
  - exists a. cbn [foldM].
    split; [reflexivity | ]. split; [exact Ha | ].
    split; [intros cell [] | reflexivity].
  - destruct (get_cell_in_grid n0 n1 n2 src cell Hsrc Hcell) as [v Hv].
    pose proof (reoriented_in_grid n0 n1 n2 cell Hcell) as Htarget.
    pose proof (reorient_target_inj n0 n1 n2 cell) as Hinj.
    destruct (reorient_target n1 n2 cell) as [[c' x'] y'] eqn:Ht.
    cbn [in_grid] in Htarget. destruct Htarget as (Hc' & Hx' & Hy').
    destruct (set3_spec n0 n1 n2 a c' x' y' v Ha Hc' Hx' Hy')
      as (a1 & Hset & Ha1 & Hget1 & Hframe1).
    destruct (IH a1 Ha1) as (a' & Hfold & Ha' & Hdone & Hframe).
    assert (Hstep : reorient_step n1 n2 src a cell = Ok a1).
    { destruct cell as [[c x] y]. unfold reorient_step.
      unfold reorient_target in Ht.
      destruct (reoriented n1 n2 c x y) as [x0 y0].
      cbn [fst snd] in Ht. injection Ht as -> -> ->.
      cbn [get_cell] in Hv. rewrite Hv. cbn [bind]. exact Hset. }
    exists a'. cbn [foldM]. rewrite Hstep. cbn [bind].
    split; [exact Hfold | ]. split; [exact Ha' | ]. split.
    + intros cell' Hin.
      destruct (in_dec cell_eq_dec cell' cells) as [Hin' | Hnin];
        [now apply Hdone | ].
      destruct Hin as [<- | Hin]; [ | contradiction].
      rewrite Ht, Hv. cbn [get_cell]. rewrite <- Hget1.
      apply (Hframe (c', x', y')). intros cell'' Hin'' Heq.
      apply Hnin. rewrite Forall_forall in Hcells.
      rewrite (Hinj cell'' Hcell (Hcells cell'' Hin'')); [exact Hin'' | ].
      now rewrite Heq.
    + intros [[tc tx] ty] Hnot.
      rewrite (Hframe (tc, tx, ty)) by (intros; apply Hnot; now right).
      cbn [get_cell]. apply Hframe1. intros Heq.
      apply (Hnot cell); [now left | ]. rewrite Ht. congruence.
Qed.

Lemma grid_cells_in (n0 n1 n2 : nat) (cell : nat * nat * nat) :
  In cell (grid_cells n0 n1 n2) <-> in_grid n0 n1 n2 cell.
Proof.
  destruct cell as [[c x] y]. unfold grid_cells, in_grid.
  rewrite in_flat_map. split.
  - intros (c' & Hc & Hin). rewrite in_flat_map in Hin.
    destruct Hin as (x' & Hx & Hin). rewrite in_map_iff in Hin.
    destruct Hin as (y' & Heq & Hy). injection Heq as -> -> ->.
    rewrite in_seq in Hc, Hx, Hy. lia.
  - intros (Hc & Hx & Hy). exists c. split; [apply in_seq; lia | ].
    rewrite in_flat_map. exists x. split; [apply in_seq; lia | ].
    rewrite in_map_iff. exists y. split; [reflexivity | apply in_seq; lia].
Qed.

Lemma loc2glob_img_coord_array_total (self : Loc2Glob) (ccd_n : Z)
  (xs ys : list R) :
  ccd_n < 40 -> exists g, loc2glob_img_coord_array self ccd_n xs ys = Ok g.
Proof.
  intros Hlt. unfold loc2glob_img_coord_array.
  destruct (shift_coord self ccd_n) as [[dx dy] | ] eqn:Hs; [eauto | ].
  apply (proj1 (shift_coord_none self ccd_n)) in Hs. lia.
Qed.

(** C8: on a grid of at most 40 tiles with at least one row and one column,
    the constructor returns, and the stored grid holds the cell [(r, c)] of
    a tile at [(r, c)] when the tile id is below 18 or is 36 or 37, and at
    [(x_grid - 1 - r, y_grid - 1 - c)] otherwise. *)
Theorem MomentInterpolator_init_reorients (moment_map : ndarray3)
  (n_neighbors : nat) (rbf_function : string) :
  has_shape (shape0 moment_map) (shape1 moment_map) (shape2 moment_map)
            (items moment_map) ->
  (0 < shape1 moment_map)%nat -> (0 < shape2 moment_map)%nat ->
  (shape0 moment_map <= 40)%nat ->
  exists self,
    MomentInterpolator_init moment_map n_neighbors rbf_function = Ok self /\
    forall ccd r c,
      (ccd < shape0 moment_map)%nat ->
      (r < shape1 moment_map)%nat ->
      (c < shape2 moment_map)%nat ->
      exists v,
        get3 (items moment_map) ccd r c = Ok v /\
        get3 (mi_moment_map self) ccd
             (fst (spec_reoriented (shape1 moment_map) (shape2 moment_map)
                                   ccd r c))
             (snd (spec_reoriented (shape1 moment_map) (shape2 moment_map)
                                   ccd r c))
        = Ok v.
Proof.
  destruct moment_map as [n0 n1 n2 src]. cbn [shape0 shape1 shape2 items].
  intros Hsrc H1 H2 H0. unfold MomentInterpolator_init.
  cbn [shape0 shape1 shape2 items].
  destruct n1 as [ | n1']; [lia | ]. destruct n2 as [ | n2']; [lia | ].
  cbn [int_truediv bind].
  destruct (reorient_loop n0 (S n1') (S n2') src (grid_cells n0 (S n1') (S n2'))
              (np_zeros3 n0 (S n1') (S n2')) Hsrc (np_zeros3_shape _ _ _))
    as (a' & Hfold & _ & Hdone & _).
  { apply Forall_forall. intros cell. apply grid_cells_in. }
  rewrite Hfold. cbn [bind]. unfold np_meshgrid_ij.
  match goal with
  | |- context [mapM ?f (seq 0 n0)] =>
      destruct (mapM_total f (seq 0 n0)) as (pos & Hpos & _)
  end.
  { intros ccd_it Hin. apply in_seq in Hin.
    match goal with
    | |- context [loc2glob_img_coord_array ?l ?c ?xs ?ys] =>
        destruct (loc2glob_img_coord_array_total l c xs ys) as [g Hg];
          [lia | rewrite Hg]
    end.
    cbn [bind]. eauto. }
  rewrite Hpos. cbn [bind].
  eexists. split; [reflexivity | ]. cbn [mi_moment_map].
  intros ccd r c Hccd Hr Hc.
  destruct (get_cell_in_grid n0 (S n1') (S n2') src (ccd, r, c) Hsrc)
    as [v Hv]; [cbn; lia | ].
  exists v. split; [exact Hv | ].
  rewrite <- reoriented_spec, <- Hv.
  apply (Hdone (ccd, r, c)). apply grid_cells_in. cbn. lia.
Qed.

(** Past 40 tiles the constructor fails when it maps the cell centres of the
    tile 40 to the global frame. *)
Lemma MomentInterpolator_init_too_many_ccds (moment_map : ndarray3)
  (n_neighbors : nat) (rbf_function : string) :
  has_shape (shape0 moment_map) (shape1 moment_map) (shape2 moment_map)
            (items moment_map) ->
  (0 < shape1 moment_map)%nat -> (0 < shape2 moment_map)%nat ->
  (40 < shape0 moment_map)%nat ->
  MomentInterpolator_init moment_map n_neighbors rbf_function
  = Raise TypeError.
Proof.
  destruct moment_map as [n0 n1 n2 src]. cbn [shape0 shape1 shape2 items].
  intros Hsrc H1 H2 H0. unfold MomentInterpolator_init.
  cbn [shape0 shape1 shape2 items].
  destruct n1 as [ | n1']; [lia | ]. destruct n2 as [ | n2']; [lia | ].
  cbn [int_truediv bind].
  destruct (reorient_loop n0 (S n1') (S n2') src (grid_cells n0 (S n1') (S n2'))
              (np_zeros3 n0 (S n1') (S n2')) Hsrc (np_zeros3_shape _ _ _))
    as (a' & Hfold & _).
  { apply Forall_forall. intros cell. apply grid_cells_in. }
  rewrite Hfold. cbn [bind]. unfold np_meshgrid_ij.
  rewrite (seq_split n0 40 H0).
  rewrite (mapM_raise _ _ _ _ TypeError); [reflexivity | | ].
  - intros ccd_it Hin. apply in_seq in Hin. right.
    match goal with
    | |- context [loc2glob_img_coord_array ?l ?c ?xs ?ys] =>
        destruct (loc2glob_img_coord_array_total l c xs ys) as [g Hg];
          [lia | rewrite Hg]
    end.
    cbn [bind]. eauto.
  - unfold loc2glob_img_coord_array.
    now rewrite (proj2 (shift_coord_none Loc2Glob_default (Z.of_nat 40))).
Qed.

Lemma MomentInterpolator_init_reorients_witness :
  has_shape 2 1 2 (items sample_moment_map) /\
  exists self,
    MomentInterpolator_init sample_moment_map 1000 "thin_plate" = Ok self /\
    exists v,
      get3 (items sample_moment_map) 1 0 1 = Ok v /\
      get3 (mi_moment_map self) 1 0 1 = Ok v.
Proof.
  assert (Hshape : has_shape 2 1 2 (items sample_moment_map)).
  { unfold has_shape, sample_moment_map. cbn. repeat constructor. }
  split; [exact Hshape | ].
  destruct (MomentInterpolator_init_reorients sample_moment_map 1000
              "thin_plate" Hshape) as (self & Hinit & Hcells);
    [cbn; lia | cbn; lia | cbn; lia | ].
  exists self. split; [exact Hinit | ].
  apply (Hcells 1%nat 0%nat 1%nat); cbn; lia.
Defined.

(** * Further properties *)

(** ** The mosaic *)

Lemma shift_coord_col_row (self : Loc2Glob) (id : Z) :
  0 <= id < 40 ->
  shift_coord self id
  = Some ((IZR (tile_col id) * IZR (x_gap self + x_npix self))%R,
          (IZR (tile_row id) * IZR (y_gap self + y_npix self))%R).
Proof.
  intros Hid. unfold shift_coord, tile_col, tile_row.
  split_ltb; try lia; repeat rewrite mult_IZR; repeat f_equal; lra.
Qed.

Lemma tile_col_row_inj (id1 id2 : Z) :
  0 <= id1 < 40 -> 0 <= id2 < 40 ->
  tile_col id1 = tile_col id2 -> tile_row id1 = tile_row id2 -> id1 = id2.
Proof.
  unfold tile_col, tile_row. intros H1 H2.
  split_ltb; intros Hc Hr; lia.
Qed.

(** An integer multiple of a pitch that is wider than the chip cannot be
    made up by two positions on the chip. *)
Lemma pitch_separates (c1 c2 : Z) (w n a b : R) :
  (n + 1 <= w)%R -> (0 < a < n + 1)%R -> (0 < b < n + 1)%R ->
  (a + IZR c1 * w = b + IZR c2 * w)%R -> c1 = c2.
Proof.
  intros Hw Ha Hb Heq.
  destruct (Z.lt_trichotomy c1 c2) as [Hlt | [Heq' | Hgt]]; [ | exact Heq' | ];
    exfalso.
  - assert (H : (IZR c1 + 1 <= IZR c2)%R)
      by (rewrite <- plus_IZR; apply IZR_le; lia).
    nra.
  - assert (H : (IZR c2 + 1 <= IZR c1)%R)
      by (rewrite <- plus_IZR; apply IZR_le; lia).
    nra.
Qed.

Lemma flip_coord_on_chip (self : Loc2Glob) (id : Z) (x y : R) :
  on_chip self x y ->
  on_chip self (fst (flip_coord self id x y)) (snd (flip_coord self id x y)).
Proof.
  unfold on_chip, flip_coord. intros [Hx Hy].
  destruct (flipped id); cbn [fst snd]; split; lra.
Qed.

(** X1: Two positions on the chips of the mosaic that get the same global
    position are one position of one tile: with gaps of one pixel or more
    the images of the 40 tiles do not overlap. *)
Theorem loc2glob_img_coord_injective (self : Loc2Glob) (id1 id2 : Z)
  (x1 y1 x2 y2 : R) (g : R * R) :
  1 <= x_gap self -> 1 <= y_gap self ->
  0 <= id1 < 40 -> 0 <= id2 < 40 ->
  on_chip self x1 y1 -> on_chip self x2 y2 ->
  loc2glob_img_coord self id1 x1 y1 = Ok g ->
  loc2glob_img_coord self id2 x2 y2 = Ok g ->
  id1 = id2 /\ x1 = x2 /\ y1 = y2.
Proof.
  intros Hxg Hyg Hid1 Hid2 Hc1 Hc2.
  pose proof (flip_coord_on_chip self id1 x1 y1 Hc1) as [Hfx1 Hfy1].
  pose proof (flip_coord_on_chip self id2 x2 y2 Hc2) as [Hfx2 Hfy2].
  unfold loc2glob_img_coord.
  rewrite (shift_coord_col_row self id1 Hid1),
    (shift_coord_col_row self id2 Hid2).
  destruct (flip_coord self id1 x1 y1) as [fx1 fy1] eqn:Hf1.
  destruct (flip_coord self id2 x2 y2) as [fx2 fy2] eqn:Hf2.
  cbn [fst snd] in *. intros [= <-] [= Hgx Hgy].
  assert (Hw : (IZR (x_npix self) + 1 <= IZR (x_gap self + x_npix self))%R)
    by (rewrite <- (plus_IZR _ 1); apply IZR_le; lia).
  assert (Hh : (IZR (y_npix self) + 1 <= IZR (y_gap self + y_npix self))%R)
    by (rewrite <- (plus_IZR _ 1); apply IZR_le; lia).
  assert (Hcol : tile_col id2 = tile_col id1)
    by exact (pitch_separates _ _ _ _ _ _ Hw Hfx2 Hfx1 Hgx).
  assert (Hrow : tile_row id2 = tile_row id1)
    by exact (pitch_separates _ _ _ _ _ _ Hh Hfy2 Hfy1 Hgy).
  assert (Hid : id1 = id2)
    by (symmetry; now apply tile_col_row_inj).
  subst id2. split; [reflexivity | ].
  unfold flip_coord in Hf1, Hf2.
  destruct (flipped id1); injection Hf1 as <- <-; injection Hf2 as <- <-;
    split; lra.
Qed.

Lemma loc2glob_img_coord_injective_witness :
  loc2glob_img_coord Loc2Glob_default 4 1 1
  = Ok (2048%R, 9649%R) /\
  (4 = 4 /\ 1%R = 1%R /\ 1%R = 1%R).
Proof.
  assert (H : loc2glob_img_coord Loc2Glob_default 4 1 1
              = Ok (2048%R, 9649%R)) by reference_point.
  split; [exact H | ].
  apply (loc2glob_img_coord_injective Loc2Glob_default 4 4 1 1 1 1
           (2048%R, 9649%R)); cbn; try lia; try exact H;
    unfold on_chip; cbn; split; lra.
Defined.

(** ** [find_ccd_idx] *)

Lemma nonzero_from_head (start : nat) (idx : list bool) (i : nat)
  (rest : list nat) :
  nonzero_from start idx = i :: rest ->
  (start <= i)%nat /\ idx !! (i - start)%nat = Some true /\
  forall j, (j < i - start)%nat -> idx !! j = Some false.
Proof.
  revert start; induction idx as [ | b idx IH]; intros start; cbn;
    [discriminate | ].
  destruct b.
  - intros [= <- _]. rewrite Nat.sub_diag. repeat split; trivial. lia.
  - intros H. destruct (IH (S start) H) as (Hle & Hi & Hbefore).
    split; [lia | ].
    replace (i - start)%nat with (S (i - S start)) by lia.
    split; [exact Hi | ].
    intros [ | j] Hj; [reflexivity | ]. apply Hbefore. lia.
Qed.

Lemma first_true_Ok (idx : list bool) (i : nat) :
  first_true idx = Ok i <->
  idx !! i = Some true /\ forall j, (j < i)%nat -> idx !! j = Some false.
Proof.
  unfold first_true, np_nonzero. split.
  - destruct (nonzero_from 0 idx) as [ | i0 rest] eqn:Hnz; [discriminate | ].
    intros [= ->].
    destruct (nonzero_from_head 0 idx i rest Hnz) as (_ & Hi & Hbefore).
    rewrite Nat.sub_0_r in Hi, Hbefore. now split.
  - intros [Hi Hbefore].
    destruct (nonzero_from 0 idx) as [ | i0 rest] eqn:Hnz.
    + apply (proj1 (nonzero_from_nil 0 idx)) in Hnz.
      rewrite Forall_forall in Hnz.
      assert (Hf : true = false)
        by (apply Hnz; eapply list_elem_of_In, list_elem_of_lookup_2;
            exact Hi).
      discriminate.
    + destruct (nonzero_from_head 0 idx i0 rest Hnz) as (_ & Hi0 & Hb0).
      rewrite Nat.sub_0_r in Hi0, Hb0.
      destruct (Nat.lt_trichotomy i i0) as [Hlt | [-> | Hgt]];
        [ | reflexivity | ].
      * rewrite (Hb0 i Hlt) in Hi. discriminate.
      * rewrite (Hbefore i0 Hgt) in Hi0. discriminate.
Qed.

Lemma first_true_Raise (idx : list bool) :
  first_true idx = Raise IndexError <-> Forall (fun b => b = false) idx.
Proof.
  unfold first_true, np_nonzero. rewrite <- (nonzero_from_nil 0 idx).
  destruct (nonzero_from 0 idx); split; intros H; try discriminate;
    reflexivity.
Qed.

(** X2: [find_ccd_idx] returns the first place of the id in the list: the list
    holds the id there and nowhere before. *)
Theorem find_ccd_idx_first (ccd_id : Z) (ccd_list : list Z) (i : nat) :
  find_ccd_idx ccd_id ccd_list = Ok i <->
  ccd_list !! i = Some ccd_id /\
  forall j, (j < i)%nat -> ccd_list !! j <> Some ccd_id.
Proof.
  unfold find_ccd_idx. rewrite first_true_Ok, map_fmap.
  rewrite list_lookup_fmap. split.
  - intros [Hi Hbefore]. split.
    + destruct (ccd_list !! i) as [a | ]; [ | discriminate].
      cbn in Hi. injection Hi as Hi. apply Z.eqb_eq in Hi. now subst.
    + intros j Hj Hl. specialize (Hbefore j Hj).
      rewrite list_lookup_fmap, Hl in Hbefore. cbn in Hbefore.
      rewrite Z.eqb_refl in Hbefore. discriminate.
  - intros [Hi Hbefore]. split.
    + rewrite Hi. cbn. now rewrite Z.eqb_refl.
    + intros j Hj. rewrite list_lookup_fmap.
      destruct (ccd_list !! j) as [a | ] eqn:Ha.
      * cbn. destruct (Z.eqb_spec ccd_id a) as [-> | Hne]; [ | reflexivity].
        now destruct (Hbefore j Hj).
      * apply lookup_ge_None_1 in Ha.
        apply lookup_lt_Some in Hi. lia.
Qed.

(** X3: [find_ccd_idx] raises, and what it raises is [IndexError], exactly when
    the id is not in the list. *)
Theorem find_ccd_idx_absent (ccd_id : Z) (ccd_list : list Z) :
  find_ccd_idx ccd_id ccd_list = Raise IndexError <-> ~ In ccd_id ccd_list.
Proof.
  unfold find_ccd_idx. rewrite first_true_Raise, Forall_forall. split.
  - intros H Hin.
    assert (Hf : Z.eqb ccd_id ccd_id = false)
      by (apply H, in_map_iff; now exists ccd_id).
    rewrite Z.eqb_refl in Hf. discriminate.
  - intros Hnin b Hb. apply in_map_iff in Hb.
    destruct Hb as (a & <- & Ha). apply Z.eqb_neq. intros ->. now apply Hnin.
Qed.

(** ** [parse_path] *)

Lemma prefix_char_eq (c : ascii) (s : string) :
  String.prefix (String c EmptyString) (String c s) = true.
Proof.
  cbn. destruct (ascii_dec c c) as [_ | Hne]; [now destruct s | congruence].
Qed.

Lemma prefix_char_neq (c a : ascii) (s : string) :
  Ascii.eqb c a = false ->
  String.prefix (String c EmptyString) (String a s) = false.
Proof.
  intros Hne. cbn. destruct (ascii_dec c a) as [-> | _]; [ | reflexivity].
  rewrite Ascii.eqb_refl in Hne. discriminate.
Qed.

Lemma token_nil (t : string) : token [] t = t.
Proof. unfold token. cbn. apply string_of_list_ascii_of_string. Qed.

Lemma token_cons (a : ascii) (cur : list ascii) (t : string) :
  token (a :: cur) t = token cur (String a t).
Proof. unfold token. cbn. now rewrite <- app_assoc. Qed.

Lemma token_empty (cur : list ascii) :
  token cur EmptyString = string_of_list_ascii (rev cur).
Proof. unfold token. cbn. now rewrite app_nil_r. Qed.

(** A string without the separator is one token. *)
Lemma split_go_no_sep (c : ascii) (cur : list ascii) (t : string) :
  has_char c t = false ->
  split_go (String c EmptyString) 0 cur t = [token cur t].
Proof.
  revert cur; induction t as [ | a t IH]; intros cur Hno.
  - cbn. now rewrite token_empty.
  - cbn [has_char] in Hno. apply orb_false_elim in Hno as [Ha Ht].
    cbn [split_go]. rewrite (prefix_char_neq c a t Ha).
    rewrite (IH (a :: cur) Ht). now rewrite token_cons.
Qed.

(** The separator followed by a string without it adds that string as the
    last token. *)
Lemma split_go_snoc (c : ascii) (cur : list ascii) (s t : string) :
  has_char c t = false ->
  split_go (String c EmptyString) 0 cur (s ++ String c t)%string
  = split_go (String c EmptyString) 0 cur s ++ [t].
Proof.
  intros Hno; revert cur; induction s as [ | a s IH]; intros cur.
  - cbn [String.append split_go]. rewrite prefix_char_eq.
    cbn [String.length Nat.sub app].
    now rewrite (split_go_no_sep c [] t Hno), token_nil.
  - cbn [String.append split_go].
    destruct (Ascii.eqb c a) eqn:Ha.
    + apply Ascii.eqb_eq in Ha. subst a. rewrite !prefix_char_eq.
      cbn [String.length Nat.sub]. now rewrite IH.
    + rewrite !(prefix_char_neq c a _ Ha). apply IH.
Qed.

(** The first token ends at the first separator. *)
Lemma split_go_first (c : ascii) (cur : list ascii) (base rest : string) :
  has_char c base = false ->
  exists tl,
    split_go (String c EmptyString) 0 cur (base ++ String c rest)%string
    = token cur base :: tl.
Proof.
  revert cur; induction base as [ | a base IH]; intros cur Hno.
  - cbn [String.append split_go]. rewrite prefix_char_eq.
    rewrite token_empty. eauto.
  - cbn [has_char] in Hno. apply orb_false_elim in Hno as [Ha Hb].
    cbn [String.append split_go]. rewrite (prefix_char_neq c a _ Ha).
    destruct (IH (a :: cur) Hb) as [tl Htl]. exists tl.
    now rewrite Htl, token_cons.
Qed.

Lemma py_index_last {A : Type} (l : list A) (a b : A) :
  py_index (l ++ [a; b]) (-1) = Ok b /\ py_index (l ++ [a; b]) (-2) = Ok a.
Proof.
  unfold py_index. rewrite length_app. cbn [length].
  set (n := length l).
  assert (H1 : (-1 <? 0) = true) by reflexivity.
  assert (H2 : (-2 <? 0) = true) by reflexivity.
  rewrite H1, H2.
  replace (-1 + Z.of_nat (n + 2)) with (Z.of_nat (n + 1)) by lia.
  replace (-2 + Z.of_nat (n + 2)) with (Z.of_nat n) by lia.
  rewrite !Nat2Z.id.
  replace (Z.of_nat (n + 1) <? 0) with false by (symmetry; apply Z.ltb_ge; lia).
  replace (Z.of_nat n <? 0) with false by (symmetry; apply Z.ltb_ge; lia).
  replace (Z.of_nat (n + 2) <=? Z.of_nat (n + 1)) with false
    by (symmetry; apply Z.leb_gt; lia).
  replace (Z.of_nat (n + 2) <=? Z.of_nat n) with false
    by (symmetry; apply Z.leb_gt; lia).
  cbn [orb]. unfold n.
  rewrite !nth_error_app2 by lia.
  replace (length l + 1 - length l)%nat with 1%nat by lia.
  rewrite Nat.sub_diag. now split.
Qed.

Lemma string_append_assoc (a b c : string) :
  ((a ++ b) ++ c = a ++ (b ++ c))%string.
Proof. induction a as [ | x a IH]; cbn; [reflexivity | now rewrite IH]. Qed.

Lemma has_char_append (c : ascii) (a b : string) :
  has_char c (a ++ b)%string = has_char c a || has_char c b.
Proof.
  induction a as [ | x a IH]; cbn; [reflexivity | ].
  now rewrite IH, orb_assoc.
Qed.

(** X4: A file name built as the code expects it, a stem, the exposure id and
    the CCD id joined by a one-character separator, then an extension, is
    parsed back to the exposure id and the CCD id. The stem may hold the
    separator; no part before the extension may hold a dot. *)
Theorem parse_path_round_trip (self : MccdInputs) (c : ascii)
  (stem starcat_id ccd_n ext : string) :
  separator self = String c EmptyString ->
  Ascii.eqb "."%char c = false ->
  has_char "."%char stem = false ->
  has_char "."%char starcat_id = false ->
  has_char "."%char ccd_n = false ->
  has_char c starcat_id = false ->
  has_char c ccd_n = false ->
  parse_path self
    (stem ++ String c (starcat_id ++ String c (ccd_n ++ String "."%char ext)))
  = Ok (starcat_id, ccd_n).
Proof.
  intros Hsep Hc Hstem Hid Hccd Hcid Hcccd. unfold parse_path, py_split.
  set (my_path := (stem ++ String c (starcat_id ++ String c ccd_n))%string).
  assert (Hpath :
    (stem ++ String c (starcat_id ++ String c (ccd_n ++ String "."%char ext))
     = my_path ++ String "."%char ext)%string).
  { unfold my_path. rewrite !string_append_assoc. cbn [String.append].
    rewrite !string_append_assoc. reflexivity. }
  rewrite Hpath. cbn [bind].
  destruct (split_go_first "."%char [] my_path ext) as [tl Htl].
  { unfold my_path. rewrite has_char_append. cbn [has_char].
    rewrite has_char_append. cbn [has_char].
    now rewrite Hstem, Hid, Hccd, Hc. }
  rewrite Htl, token_nil.
  assert (H0 : py_index (my_path :: tl) 0 = Ok my_path).
  { unfold py_index. cbn [length]. cbn [Z.ltb Z.compare].
    replace (Z.of_nat (S (length tl)) <=? 0) with false
      by (symmetry; apply Z.leb_gt; lia).
    reflexivity. }
  rewrite H0. cbn [bind]. rewrite Hsep. cbn [bind].
  assert (Hsplit :
    split_go (String c EmptyString) 0 [] my_path
    = split_go (String c EmptyString) 0 [] stem ++ [starcat_id; ccd_n]).
  { unfold my_path.
    replace (stem ++ String c (starcat_id ++ String c ccd_n))%string
      with ((stem ++ String c starcat_id) ++ String c ccd_n)%string
      by (rewrite string_append_assoc; reflexivity).
    rewrite (split_go_snoc c [] _ ccd_n Hcccd).
    rewrite (split_go_snoc c [] stem starcat_id Hcid).
    now rewrite <- app_assoc. }
  rewrite Hsplit.
  destruct (py_index_last (split_go (String c EmptyString) 0 [] stem)
              starcat_id ccd_n) as [Hlast Hprev].
  rewrite Hlast. cbn [bind]. rewrite Hprev. reflexivity.
Qed.

Lemma parse_path_round_trip_witness :
  parse_path MccdInputs_default "dir/star_selection-1234567-04.fits"
  = Ok ("1234567", "04")%string.
Proof.
  apply (parse_path_round_trip MccdInputs_default "-"%char
           "dir/star_selection" "1234567" "04" "fits"); reflexivity.
Defined.

(** X5: A name whose part before the first dot does not hold the separator has
    one token only, and [parse_path] raises [IndexError] on it: so it is for
    a name without a separator and for a path that starts with a dot. *)
Theorem parse_path_without_separator (self : MccdInputs) (c : ascii)
  (base rest : string) :
  separator self = String c EmptyString ->
  has_char "."%char base = false ->
  has_char c base = false ->
  parse_path self base = Raise IndexError /\
  parse_path self (base ++ String "."%char rest) = Raise IndexError.
Proof.
  intros Hsep Hdot Hc.
  assert (Hone : forall tl,
    (let* my_path := py_index (base :: tl) 0 in
     let* splitted_str := py_split my_path (separator self) in
     let* ccd_n := py_index splitted_str (-1) in
     let* starcat_id := py_index splitted_str (-2) in
     Ok (starcat_id, ccd_n)) = Raise IndexError).
  { intros tl.
    assert (H0 : py_index (base :: tl) 0 = Ok base).
    { unfold py_index. cbn [length]. cbn [Z.ltb Z.compare].
      replace (Z.of_nat (S (length tl)) <=? 0) with false
        by (symmetry; apply Z.leb_gt; lia).
      reflexivity. }
    rewrite H0. cbn [bind]. rewrite Hsep. unfold py_split. cbn [bind].
    rewrite (split_go_no_sep c [] base Hc), token_nil. reflexivity. }
  unfold parse_path, py_split. cbn [bind]. split.
  - rewrite (split_go_no_sep "."%char [] base Hdot), token_nil. apply Hone.
  - destruct (split_go_first "."%char [] base rest Hdot) as [tl Htl].
    rewrite Htl, token_nil. apply Hone.
Qed.

Lemma parse_path_without_separator_witness :
  parse_path MccdInputs_default "star" = Raise IndexError /\
  parse_path MccdInputs_default "./star-1234567-04.fits" = Raise IndexError.
Proof.
  split.
  - exact (proj1 (parse_path_without_separator MccdInputs_default "-"%char
                    "star" "" eq_refl eq_refl eq_refl)).
  - exact (proj2 (parse_path_without_separator MccdInputs_default "-"%char
                    "" "/star-1234567-04.fits" eq_refl eq_refl eq_refl)).
Defined.

(** ** The parsers *)

Lemma mapM_Ok_inv {A B : Type} (f : A -> result B) (l : list A)
  (bs : list B) :
  mapM f l = Ok bs -> Forall2 (fun a b => f a = Ok b) l bs.
Proof.
  revert bs; induction l as [ | a l IH]; intros bs; cbn.
  - intros [= <-]. constructor.
  - destruct (f a) as [b | e] eqn:Hb; cbn; [ | discriminate].
    destruct (mapM f l) as [bs' | e]; cbn; [ | discriminate].
    intros [= <-]. constructor; [exact Hb | now apply IH].
Qed.

Lemma group_starcats_Ok (self st : MccdInputs) (rows : list row) :
  group_starcats self rows = Ok st ->
  rows <> [] /\ grouped_by_exposure rows st /\
  catalog_ids st = Some (np_unique (map row_id rows)) /\
  starcat_list st
  = Some (map (fun st_id =>
                 List.filter (fun r => String.eqb (row_id r) st_id) rows)
              (np_unique (map row_id rows))).
Proof.
  intros Hst.
  assert (Hne : rows <> []).
  { intros ->. discriminate. }
  destruct (group_starcats_grouped self rows Hne) as (st' & Hst' & Hg).
  rewrite Hst in Hst'. injection Hst' as <-.
  split; [exact Hne | ]. split; [exact Hg | ].
  unfold group_starcats, column0 in Hst.
  destruct rows as [ | r0 rows0]; [congruence | ].
  cbn [bind] in Hst. injection Hst as <-. now split.
Qed.

Lemma pipeline_rows_of_mapM (self : MccdInputs)
  (input_list : list (list string)) (element_position : Z)
  (rows : list row) :
  mapM (fun path =>
          let* e0 := py_index path element_position in
          let* p0 := parse_path self e0 in
          let* e1 := py_index path element_position in
          let* p1 := parse_path self e1 in
          let* e2 := py_index path element_position in
          Ok (fst p0, snd p1, e2))
       input_list = Ok rows ->
  pipeline_rows self input_list element_position rows.
Proof.
  intros Hm. apply mapM_Ok_inv in Hm. unfold pipeline_rows.
  eapply Forall2_impl; [ | exact Hm]. intros path r. cbn beta.
  destruct (py_index path element_position) as [e | err] eqn:He;
    [ | discriminate].
  cbn [bind].
  destruct (parse_path self e) as [[id ccd] | err] eqn:Hp; [ | discriminate].
  cbn [bind fst snd]. intros [= <-].
  exists e. split; [reflexivity | ]. split; [exact Hp | reflexivity].
Qed.

(** X8: Whenever [parse_pipeline_input_list] returns, its input list was not
    empty, every entry was parsed, and the object it returns holds the rows
    grouped by exposure: there is no other way out than an exception. *)
Theorem parse_pipeline_input_list_Ok (self st : MccdInputs)
  (input_list : list (list string)) (element_position : Z) :
  parse_pipeline_input_list self input_list element_position = Ok st ->
  input_list <> [] /\
  exists rows,
    pipeline_rows self input_list element_position rows /\
    grouped_by_exposure rows st.
Proof.
  unfold parse_pipeline_input_list.
  destruct (mapM _ input_list) as [rows | err] eqn:Hm; [ | discriminate].
  cbn [bind]. intros Hst.
  apply pipeline_rows_of_mapM in Hm.
  destruct (group_starcats_Ok self st rows Hst) as (Hne & Hg & _).
  split.
  - intros ->. inversion Hm. congruence.
  - now exists rows.
Qed.

Lemma sample_pipeline_parse :
  exists st,
    parse_pipeline_input_list MccdInputs_default sample_input_list 0 = Ok st.
Proof. eexists. lazy. reflexivity. Qed.

Lemma parse_pipeline_input_list_Ok_witness :
  exists st,
    parse_pipeline_input_list MccdInputs_default sample_input_list 0 = Ok st /\
    sample_input_list <> [].
Proof.
  destruct sample_pipeline_parse as [st Hst]. exists st.
  split; [exact Hst | ].
  exact (proj1 (parse_pipeline_input_list_Ok MccdInputs_default st
                  sample_input_list 0 Hst)).
Defined.

(** X10: The ids [proprocess_pipeline_data] returns are the ids stored in the
    object: the exposure ids of the parsed entries, each once, in strictly
    ascending order of their characters; [num_catalogs] is their number. *)
Theorem proprocess_pipeline_data_ids (self st : MccdInputs)
  (input_list : list (list string)) (element_position : Z)
  (ids : option (list string)) :
  proprocess_pipeline_data self input_list element_position = Ok (st, ids) ->
  exists l rows,
    ids = Some l /\ catalog_ids st = Some l /\
    num_catalogs st = Some (length l) /\
    pipeline_rows self input_list element_position rows /\
    StronglySorted str_lt l /\
    forall id, In id l <-> exists r, In r rows /\ row_id r = id.
Proof.
  unfold proprocess_pipeline_data, parse_pipeline_input_list.
  destruct (mapM _ input_list) as [rows | err] eqn:Hm; [ | discriminate].
  cbn [bind]. destruct (group_starcats self rows) as [st' | err] eqn:Hst;
    [ | discriminate].
  cbn [bind]. intros [= -> <-].
  apply pipeline_rows_of_mapM in Hm.
  destruct (group_starcats_Ok self st rows Hst) as (_ & Hg & Hids & _).
  destruct Hg as (l & groups & Hl & _ & Hnum & _ & Hin & _).
  exists l, rows. rewrite Hl in Hids. injection Hids as ->.
  repeat split; trivial; try apply Hin. apply np_unique_sorted.
Qed.

Lemma proprocess_pipeline_data_ids_witness :
  exists st ids,
    proprocess_pipeline_data MccdInputs_default sample_input_list 0
    = Ok (st, ids) /\
    exists l, ids = Some l /\ StronglySorted str_lt l.
Proof.
  assert (H : exists st ids,
             proprocess_pipeline_data MccdInputs_default sample_input_list 0
             = Ok (st, ids)) by (do 2 eexists; lazy; reflexivity).
  destruct H as (st & ids & H). exists st, ids. split; [exact H | ].
  destruct (proprocess_pipeline_data_ids MccdInputs_default st
              sample_input_list 0 ids H) as (l & rows & Hl & _ & _ & _ & Hs & _).
  exists l. now split.
Defined.

Lemma concat_map_nil {A B : Type} (l : list A) :
  concat (map (fun _ => @nil B) l) = [].
Proof. induction l; cbn; trivial. Qed.

Lemma groups_add_row (r : row) (rows : list row) (ids : list string) :
  NoDup ids -> In (row_id r) ids ->
  Permutation
    (concat (map (fun id =>
                    List.filter (fun r' => String.eqb (row_id r') id)
                                (r :: rows)) ids))
    (r :: concat (map (fun id =>
                         List.filter (fun r' => String.eqb (row_id r') id)
                                     rows) ids)).
Proof.
  induction 1 as [ | id ids Hnin Hnd IH]; intros Hin; [destruct Hin | ].
  cbn [map concat].
  assert (Hhead :
    List.filter (fun r' => String.eqb (row_id r') id) (r :: rows)
    = if String.eqb (row_id r) id
      then r :: List.filter (fun r' => String.eqb (row_id r') id) rows
      else List.filter (fun r' => String.eqb (row_id r') id) rows)
    by reflexivity.
  rewrite Hhead. clear Hhead.
  destruct (String.eqb_spec (row_id r) id) as [Heq | Hne].
  - subst id. cbn [app]. apply perm_skip, Permutation_app_head.
    replace (map (fun id => List.filter
                              (fun r' => String.eqb (row_id r') id)
                              (r :: rows)) ids)
      with (map (fun id => List.filter
                             (fun r' => String.eqb (row_id r') id) rows) ids);
      [reflexivity | ].
    apply map_ext_in. intros id Hid. cbn [List.filter].
    destruct (String.eqb_spec (row_id r) id) as [<- | _]; [ | reflexivity].
    contradiction.
  - destruct Hin as [Heq | Hin]; [congruence | ].
    rewrite (IH Hin). apply Permutation_sym, Permutation_middle.
Qed.

Lemma groups_partition (rows : list row) (ids : list string) :
  NoDup ids -> (forall r, In r rows -> In (row_id r) ids) ->
  Permutation
    (concat (map (fun id =>
                    List.filter (fun r => String.eqb (row_id r) id) rows)
                 ids))
    rows.
Proof.
  intros Hnd; induction rows as [ | r rows IH]; intros Hall.
  - cbn [List.filter]. now rewrite concat_map_nil.
  - rewrite (groups_add_row r rows ids Hnd) by (apply Hall; now left).
    constructor. apply IH. intros; apply Hall. now right.
Qed.

(** X9: The groups [parse_pipeline_input_list] stores hold every parsed row
    once: put end to end they are a permutation of the rows, so the batcher
    neither loses nor repeats a record. *)
Theorem parse_pipeline_input_list_partition (self st : MccdInputs)
  (input_list : list (list string)) (element_position : Z) :
  parse_pipeline_input_list self input_list element_position = Ok st ->
  exists rows groups,
    pipeline_rows self input_list element_position rows /\
    starcat_list st = Some groups /\
    Permutation (concat groups) rows.
Proof.
  unfold parse_pipeline_input_list.
  destruct (mapM _ input_list) as [rows | err] eqn:Hm; [ | discriminate].
  cbn [bind]. intros Hst.
  apply pipeline_rows_of_mapM in Hm.
  destruct (group_starcats_Ok self st rows Hst) as (_ & _ & _ & Hgroups).
  exists rows. eexists. split; [exact Hm | ]. split; [exact Hgroups | ].
  apply groups_partition.
  - apply sorted_NoDup, np_unique_sorted.
  - intros r Hr. apply np_unique_In, in_map_iff. now exists r.
Qed.

Lemma parse_pipeline_input_list_partition_witness :
  exists st rows groups,
    parse_pipeline_input_list MccdInputs_default sample_input_list 0 = Ok st /\
    starcat_list st = Some groups /\
    Permutation (concat groups) rows.
Proof.
  destruct sample_pipeline_parse as [st Hst].
  destruct (parse_pipeline_input_list_partition MccdInputs_default st
              sample_input_list 0 Hst) as (rows & groups & _ & Hg & Hp).
  exists st, rows, groups. repeat split; assumption.
Defined.

(** ** [get_inputs] *)

Lemma first_true_error (idx : list bool) (e : PyError) :
  first_true idx = Raise e -> e = IndexError.
Proof.
  unfold first_true. destruct (np_nonzero idx); [now intros [= <-] | discriminate].
Qed.

(** The tests of [get_inputs] on the groups of a parsed list are the tests
    of the id against the catalogued ids. *)
Lemma group_tests (catalog_id : string) (rows : list row)
  (ids : list string) (groups : list (list row)) :
  Forall2 (fun id g =>
             g = List.filter (fun r => String.eqb (row_id r) id) rows /\
             g <> [])
          ids groups ->
  mapM (fun starcat =>
          let* r := list_get starcat 0 in
          Ok (String.eqb catalog_id (row_id r)))
       groups
  = Ok (map (String.eqb catalog_id) ids).
Proof.
  induction 1 as [ | id g ids groups [Hg Hne] _ IH]; [reflexivity | ].
  cbn [mapM map]. rewrite IH.
  destruct g as [ | r0 g']; [congruence | ].
  assert (Hr0 : row_id r0 = id).
  { assert (Hin : In r0 (List.filter
                           (fun r => String.eqb (row_id r) id) rows))
      by (rewrite <- Hg; now left).
    apply filter_In in Hin. now apply String.eqb_eq. }
  cbn. now rewrite Hr0.
Qed.

(** X11: After the parsing, [get_inputs] of a catalogued exposure id assembles
    the rows of that exposure and no other, and [get_inputs] of an id that
    is not catalogued raises [IndexError]. *)
Theorem get_inputs_catalogued (fits_open : string -> result StarCat)
  (astype_int : string -> result Z) (rca_format : list R -> list R)
  (st : MccdInputs) (rows : list row) (catalog_id : string) :
  grouped_by_exposure rows st ->
  ((exists r, In r rows /\ row_id r = catalog_id) ->
   get_inputs fits_open astype_int rca_format st catalog_id
   = prep_mccd_inputs fits_open astype_int rca_format st
       (List.filter (fun r => String.eqb (row_id r) catalog_id) rows)) /\
  ((forall r, In r rows -> row_id r <> catalog_id) ->
   get_inputs fits_open astype_int rca_format st catalog_id
   = Raise IndexError).
Proof.
  intros (ids & groups & Hids & Hgroups & _ & Hnd & Hin & Hall).
  unfold get_inputs. rewrite Hgroups.
  rewrite (group_tests catalog_id rows ids groups Hall). cbn [bind].
  split.
  - intros Hex. apply Hin in Hex.
    destruct (first_true (map (String.eqb catalog_id) ids)) as [i | e] eqn:Hft.
    + apply first_true_Ok in Hft. destruct Hft as [Hi _].
      rewrite map_fmap, list_lookup_fmap in Hi.
      destruct (ids !! i) as [id | ] eqn:Hid; [ | discriminate].
      cbn in Hi. injection Hi as Hi. apply String.eqb_eq in Hi. subst id.
      destruct (Forall2_lookup_both _ _ _ i catalog_id Hall Hid)
        as (g & Hg & -> & _).
      cbn [bind]. rewrite (list_get_Some groups i _ Hg). reflexivity.
    + pose proof (first_true_error _ _ Hft) as ->.
      apply first_true_Raise in Hft. rewrite Forall_forall in Hft.
      assert (Hf : String.eqb catalog_id catalog_id = false)
        by (apply Hft, in_map_iff; now exists catalog_id).
      rewrite String.eqb_refl in Hf. discriminate.
  - intros Hno.
    rewrite (proj2 (first_true_Raise (map (String.eqb catalog_id) ids)));
      [reflexivity | ].
    apply Forall_forall. intros b Hb. apply in_map_iff in Hb.
    destruct Hb as (id & <- & Hid). apply String.eqb_neq. intros ->.
    apply Hin in Hid. destruct Hid as (r & Hr & Heq). now apply (Hno r).
Qed.

Lemma get_inputs_catalogued_witness :
  exists st,
    grouped_by_exposure sample_rows st /\
    get_inputs sample_fits_open sample_astype_int (fun v => v) st "2"
    = prep_mccd_inputs sample_fits_open sample_astype_int (fun v => v) st
        [("2", "04", "x-2-04.fits"); ("2", "05", "y-2-05.fits")]%string /\
    get_inputs sample_fits_open sample_astype_int (fun v => v) st "3"
    = Raise IndexError.
Proof.
  destruct (group_starcats_grouped MccdInputs_default sample_rows)
    as (st & _ & Hg); [discriminate | ].
  exists st. split; [exact Hg | ].
  destruct (get_inputs_catalogued sample_fits_open sample_astype_int
              (fun v => v) st sample_rows "2" Hg) as [Hfound _].
  destruct (get_inputs_catalogued sample_fits_open sample_astype_int
              (fun v => v) st sample_rows "3" Hg) as [_ Habsent].
  split.
  - apply Hfound. exists ("2", "04", "x-2-04.fits")%string.
    split; [right; now left | reflexivity].
  - apply Habsent. intros r [<- | [<- | [<- | []]]]; discriminate.
Defined.

(** ** More on the masks *)

Lemma set_where_map {A : Type} (f : A -> bool) (g : A -> R) (v : R)
  (l : list A) :
  set_where (map f l) v (map g l) = map (fun a => if f a then v else g a) l.
Proof. induction l as [ | a l IH]; cbn; [reflexivity | now rewrite IH]. Qed.

Lemma handle_mask_maps (stars : list R) (thresh : R) :
  handle_mask stars thresh true
  = (map (fun s => if Rltb s thresh then 0%R else 1%R) stars,
     map (fun s => if Rltb s thresh then 0%R else s) stars).
Proof.
  unfold handle_mask, np_less, np_ones_like. f_equal.
  - apply set_where_map.
  - rewrite <- (map_id stars) at 2. apply set_where_map.
Qed.

(** X12: Masking a stamp that went through [handle_mask] changes nothing in it,
    and the second mask is the first one when the threshold is above 0 and
    all ones otherwise, the zeros written being then above the threshold. *)
Theorem handle_mask_idempotent (stars : list R) (thresh : R) :
  snd (handle_mask (snd (handle_mask stars thresh true)) thresh true)
  = snd (handle_mask stars thresh true) /\
  fst (handle_mask (snd (handle_mask stars thresh true)) thresh true)
  = if Rlt_dec 0 thresh then fst (handle_mask stars thresh true)
    else np_ones_like stars.
Proof.
  rewrite !handle_mask_maps. cbn [fst snd]. rewrite !map_map. split.
  - apply map_ext. intros s. unfold Rltb.
    destruct (Rlt_dec s thresh) as [Hs | Hs].
    + now destruct (Rlt_dec 0 thresh).
    + now destruct (Rlt_dec s thresh).
  - unfold np_ones_like.
    destruct (Rlt_dec 0 thresh) as [H0 | H0]; apply map_ext; intros s;
      unfold Rltb; destruct (Rlt_dec s thresh) as [Hs | Hs];
      try (destruct (Rlt_dec 0 thresh); [reflexivity | contradiction]);
      try (destruct (Rlt_dec s thresh); [contradiction | reflexivity]);
      try (destruct (Rlt_dec 0 thresh); [contradiction | reflexivity]).
Qed.


(** ** More on [prep_mccd_inputs] *)

Lemma loc2glob_img_coord_off_mosaic (self : Loc2Glob) (id : Z) (x y : R) :
  40 <= id -> loc2glob_img_coord self id x y = Raise TypeError.
Proof.
  intros Hge. unfold loc2glob_img_coord.
  destruct (flip_coord self id x y) as [x' y'].
  now rewrite (proj2 (shift_coord_none self id) Hge).
Qed.

Section PrepEntries.

Variable fits_open : string -> result StarCat.
Variable astype_int : string -> result Z.
Variable rca_format : list R -> list R.
Variable self : MccdInputs.

Local Abbreviation turn := (prep_step fits_open astype_int rca_format self).
Local Abbreviation entry :=
  (prep_entry fits_open astype_int rca_format self).

(** One turn of the loop appends one entry to each of the four lists. *)
Lemma prep_step_entry (st st' : PrepOut) (r : row) :
  turn st r = Ok st' ->
  exists e,
    entry r e /\
    prep_star_list st' = prep_star_list st ++ [fst (fst (fst e))] /\
    prep_position_list st' = prep_position_list st ++ [snd (fst (fst e))] /\
    prep_mask_list st' = prep_mask_list st ++ [snd (fst e)] /\
    prep_ccd_list st' = prep_ccd_list st ++ [snd e].
Proof.
  unfold prep_step.
  destruct (fits_open (row_path r)) as [starcat | ] eqn:Ho; [ | discriminate].
  cbn [bind].
  destruct (astype_int (row_ccd r)) as [ccd | ] eqn:Hc; [ | discriminate].
  cbn [bind].
  destruct (data_get starcat (coord_x_descriptor self)) as [xs | ] eqn:Hx;
    [ | discriminate].
  cbn [bind].
  destruct (data_get starcat (coord_y_descriptor self)) as [ys | ] eqn:Hy;
    [ | discriminate].
  cbn [bind].
  destruct (mapM _ (combine xs ys)) as [positions | ] eqn:Hp;
    [ | discriminate].
  cbn [bind].
  destruct (data_get starcat "VIGNET") as [vignet | ] eqn:Hv;
    [ | discriminate].
  cbn [bind].
  destruct (handle_mask (rca_format vignet) (mask_thresh self) true)
    as [masks stars] eqn:Hm.
  destruct (try_except _ (None, None)) as [ra dec].
  intros [= <-]. exists (stars, positions, masks, ccd).
  split; [ | now repeat split].
  exists starcat, xs, ys, vignet. repeat split; try assumption.
  now apply mapM_Ok_inv.
Qed.

(** The four lists after the whole loop, from any state the loop can be
    in. *)
Lemma prep_loop_entries (arr : list row) (st out : PrepOut) :
  foldM turn st arr = Ok out ->
  exists es,
    Forall2 (fun r e => entry r e) arr es /\
    prep_star_list out
    = prep_star_list st ++ map (fun e => fst (fst (fst e))) es /\
    prep_position_list out
    = prep_position_list st ++ map (fun e => snd (fst (fst e))) es /\
    prep_mask_list out = prep_mask_list st ++ map (fun e => snd (fst e)) es /\
    prep_ccd_list out = prep_ccd_list st ++ map snd es.
Proof.
  revert st; induction arr as [ | r arr IH]; intros st; cbn [foldM].
  - intros [= <-]. exists []. cbn. rewrite !app_nil_r.
    repeat split; constructor.
  - destruct (turn st r) as [st' | ] eqn:Hst; [ | discriminate]. cbn [bind].
    intros Hout.
    destruct (prep_step_entry st st' r Hst) as (e & He & H1 & H2 & H3 & H4).
    destruct (IH st' Hout) as (es & Hes & G1 & G2 & G3 & G4).
    exists (e :: es). split; [now constructor | ].
    rewrite G1, G2, G3, G4, H1, H2, H3, H4. cbn [map].
    now rewrite <- !app_assoc.
Qed.

(** X14: On success the four main lists of [prep_mccd_inputs] are parallel to the
    rows of the exposure: entry [i] of each of them is what the catalogue
    of row [i] gives, its cast tile id, the mosaic positions of its zipped
    coordinates, and the mask and masked stamps of its formatted vignets. *)
Theorem prep_mccd_inputs_parallel (arr : list row) (out : PrepOut) :
  prep_mccd_inputs fits_open astype_int rca_format self arr = Ok out ->
  length (prep_star_list out) = length arr /\
  length (prep_position_list out) = length arr /\
  length (prep_mask_list out) = length arr /\
  length (prep_ccd_list out) = length arr /\
  forall i r, arr !! i = Some r ->
    exists stars positions masks ccd,
      prep_star_list out !! i = Some stars /\
      prep_position_list out !! i = Some positions /\
      prep_mask_list out !! i = Some masks /\
      prep_ccd_list out !! i = Some ccd /\
      entry r (stars, positions, masks, ccd).
Proof.
  unfold prep_mccd_inputs. intros Hout.
  destruct (prep_loop_entries arr _ out Hout) as (es & Hes & H1 & H2 & H3 & H4).
  cbn [prep_star_list prep_position_list prep_mask_list prep_ccd_list app]
    in H1, H2, H3, H4.
  pose proof (Forall2_length Hes) as Hlen.
  rewrite H1, H2, H3, H4, !length_map.
  repeat split; try (symmetry; exact Hlen).
  intros i r Hr.
  destruct (Forall2_lookup_both _ _ _ i r Hes Hr) as (e & He & Hre).
  destruct e as [[[stars positions] masks] ccd].
  exists stars, positions, masks, ccd.
  rewrite !map_fmap, !list_lookup_fmap, He. now repeat split.
Qed.

(** X15: A catalogue that holds a star and whose tile id is 40 or more stops
    [prep_mccd_inputs] with [TypeError], once the rows before it went
    through. *)
Theorem prep_mccd_inputs_off_mosaic (before after : list row) (r : row)
  (starcat : StarCat) (ccd : Z) (xs ys : list R) :
  Forall (row_readable fits_open astype_int self) before ->
  fits_open (row_path r) = Ok starcat ->
  astype_int (row_ccd r) = Ok ccd ->
  data_get starcat (coord_x_descriptor self) = Ok xs ->
  data_get starcat (coord_y_descriptor self) = Ok ys ->
  combine xs ys <> [] ->
  40 <= ccd ->
  prep_mccd_inputs fits_open astype_int rca_format self
                   (before ++ r :: after)
  = Raise TypeError.
Proof.
  intros Hbefore Ho Hc Hx Hy Hne Hge. unfold prep_mccd_inputs.
  rewrite foldM_app.
  destruct (prep_loop_optional fits_open astype_int rca_format self before
              (mkPrepOut [] [] [] [] (Some []) (Some []) (Some [])) Hbefore)
    as (st & -> & _).
  cbn [bind foldM]. unfold prep_step.
  rewrite Ho; cbn [bind]. rewrite Hc; cbn [bind].
  rewrite Hx; cbn [bind]. rewrite Hy; cbn [bind].
  destruct (combine xs ys) as [ | [x y] rest]; [congruence | ].
  cbn [mapM fst snd].
  now rewrite (loc2glob_img_coord_off_mosaic _ ccd x y Hge).
Qed.

End PrepEntries.

Lemma prep_mccd_inputs_parallel_witness :
  exists out,
    prep_mccd_inputs sample_fits_open sample_astype_int (fun v => v)
                     MccdInputs_default sample_rows = Ok out /\
    length (prep_ccd_list out) = length sample_rows /\
    prep_ccd_list out !! 1%nat = Some 4.
Proof.
  destruct (prep_loop_optional sample_fits_open sample_astype_int (fun v => v)
              MccdInputs_default sample_rows
              (mkPrepOut [] [] [] [] (Some []) (Some []) (Some [])))
    as (out & Hout & _).
  { repeat constructor;
      exists sample_starcat, 4, [], [], [];
      repeat split; try reflexivity; lia. }
  exists out. split; [exact Hout | ].
  destruct (prep_mccd_inputs_parallel sample_fits_open sample_astype_int
              (fun v => v) MccdInputs_default sample_rows out Hout)
    as (_ & _ & _ & Hlen & Hrows).
  split; [exact Hlen | ].
  destruct (Hrows 1%nat ("2", "04", "x-2-04.fits")%string eq_refl)
    as (stars & positions & masks & ccd & _ & _ & _ & Hccd & He).
  destruct He as (starcat & xs & ys & vignet & _ & Hcast & _).
  injection Hcast as <-. exact Hccd.
Defined.

Lemma prep_mccd_inputs_off_mosaic_witness :
  prep_mccd_inputs one_star_fits_open astype_int_40 (fun v => v)
                   MccdInputs_default
                   [("1", "40", "x-1-40.fits")%string]
  = Raise TypeError.
Proof.
  apply (prep_mccd_inputs_off_mosaic one_star_fits_open astype_int_40
           (fun v => v) MccdInputs_default [] []
           ("1", "40", "x-1-40.fits")%string
           one_star_catalogue 40 [1%R] [1%R]);
    first [apply Forall_nil | reflexivity | discriminate | lia].
Defined.

(** ** More on [outlier_rejection] *)



Lemma select_all_lookup {A : Type} (keep : list (list bool))
  (l : list (list A)) (i : nat) (m : list bool) (a : list A) :
  keep !! i = Some m -> l !! i = Some a ->
  select_all keep l !! i = Some (select m a).
Proof.
  revert l i; induction keep as [ | m0 keep IH]; intros l i Hm Ha; [easy | ].
  destruct l as [ | a0 l]; [easy | ].
  destruct i as [ | i]; cbn in Hm, Ha |- *.
  - now injection Hm as ->; injection Ha as ->.
  - now apply IH.
Qed.

(** The kept and the erased entries of an array are all its entries. *)
Lemma select_negb_count {A : Type} (start : nat) (e : list bool)
  (arr : list A) :
  length e = length arr ->
  (length (select (map negb e) arr) + length (nonzero_from start e)
   = length arr)%nat.
Proof.
  revert start arr; induction e as [ | b e IH]; intros start arr Hlen;
    destruct arr as [ | a arr]; try discriminate; [reflexivity | ].
  injection Hlen as Hlen. specialize (IH (S start) arr Hlen).
  destruct b; cbn; lia.
Qed.

Section OutlierMore.

Variable Stamp : Type.
Variable badpix_mask : Stamp -> Stamp.
Variable FindAdaptiveMom : Stamp -> Stamp -> Moments.

Local Abbreviation rejector :=
  (outlier_rejection Stamp badpix_mask FindAdaptiveMom).

(** When the rejector returns, a star was measured. *)
Lemma outlier_rejection_Ok_measured (d : StarData Stamp) (sigma : R)
  (r : StarData Stamp * list (list bool)) :
  rejector d sigma = Ok r ->
  measure_shapes Stamp badpix_mask FindAdaptiveMom
    (concat (star_list d)) (concat (mask_list d)) <> [].
Proof.
  unfold outlier_rejection, np_concatenate.
  destruct (star_list d) as [ | s0 sl]; [discriminate | ].
  destruct (mask_list d) as [ | m0 ml]; [discriminate | ].
  cbn [bind]. intros Hr Hnil. rewrite Hnil in Hr. discriminate.
Qed.

(** On an assembled batch in which a star was measured the rejector returns
    what the negated erase-masks select, and one erase-mask entry per
    star. *)
Lemma outlier_rejection_selects (d : StarData Stamp) (sigma : R) :
  assembled d ->
  measure_shapes Stamp badpix_mask FindAdaptiveMom
    (concat (star_list d)) (concat (mask_list d)) <> [] ->
  exists erase_masks,
    rejector d sigma
    = Ok (select_data (fun A => select_all (map (map negb) erase_masks)) d,
          erase_masks) /\
    same_counts erase_masks (star_list d).
Proof.
  intros Hd Hshapes. pose proof Hd as (Hne & Hml & _).
  unfold outlier_rejection, np_concatenate.
  destruct (star_list d) as [ | s0 sl] eqn:Hsl; [congruence | ].
  destruct (mask_list d) as [ | m0 ml] eqn:Hmask; [inversion Hml | ].
  rewrite <- Hsl, <- Hmask in *. cbn [bind].
  rewrite (find_bad_stars_Ok sigma _ Hshapes). cbn [bind].
  set (bad := bad_stars_of sigma _).
  assert (Hlen : length bad = length (concat (star_list d))).
  { subst bad.
    rewrite <- (Forall2_length
                  (find_bad_stars_outlier sigma
                     (measure_shapes Stamp badpix_mask FindAdaptiveMom
                        (concat (star_list d)) (concat (mask_list d))))).
    apply measure_shapes_length. now apply same_counts_total. }
  destruct (0 <? length (np_nonzero bad))%nat.
  - destruct (mark_erased_loop (star_list d) (np_nonzero bad)
                (map (fun stars => repeat false (length stars)) (star_list d)))
      as (em & Hem & Hsc & _).
    { apply all_false_same_counts. }
    { rewrite <- Hlen. apply (nonzero_from_bound 0 bad). }
    rewrite Hem. cbn [bind].
    rewrite (erase_loop_upto em d (length (star_list d)) Hd Hsc) by lia.
    cbn [bind]. rewrite (select_data_upto_all em d Hd Hsc).
    exists em. now split.
  - exists (map (fun stars => repeat false (length stars)) (star_list d)).
    rewrite (select_data_keep_all d Hd).
    split; [reflexivity | apply all_false_same_counts].
Qed.


(** X17: No star is lost or made up: in every CCD the stars that come back are
    stars that came in, in their order, and their number and the number of
    the entries set in the erase-mask of the CCD add up to the number of
    the stars that came in. *)
Theorem outlier_rejection_conserves (d d' : StarData Stamp) (sigma : R)
  (erase_masks : list (list bool)) (i : nat) (stars : list Stamp) :
  assembled d ->
  rejector d sigma = Ok (d', erase_masks) ->
  star_list d !! i = Some stars ->
  exists kept e,
    star_list d' !! i = Some kept /\
    erase_masks !! i = Some e /\
    sublist kept stars /\
    (length kept + length (np_nonzero e) = length stars)%nat.
Proof.
  intros Hd Hrej Hi.
  destruct (outlier_rejection_selects d sigma Hd
              (outlier_rejection_Ok_measured d sigma _ Hrej))
    as (em & Hem & Hsc).
  rewrite Hem in Hrej. injection Hrej as <- <-.
  destruct (same_counts_lookup em (star_list d) i stars Hsc Hi)
    as (e & He & Hlen).
  exists (select (map negb e) stars), e.
  repeat split.
  - cbn [select_data star_list]. apply select_all_lookup; [ | exact Hi].
    now rewrite map_fmap, list_lookup_fmap, He.
  - exact He.
  - apply select_sublist.
  - now apply select_negb_count.
Qed.

End OutlierMore.


Lemma outlier_rejection_conserves_witness :
  exists d' erase_masks kept e,
    outlier_rejection R (fun m => m) stamp_moments two_ccd_batch 0
    = Ok (d', erase_masks) /\
    star_list d' !! 1%nat = Some kept /\
    erase_masks !! 1%nat = Some e /\
    (length kept + length (np_nonzero e) = 2)%nat.
Proof.
  assert (Hd : assembled two_ccd_batch).
  { unfold assembled, two_ccd_batch, same_counts, same_counts_opt. cbn.
    repeat split; try discriminate; repeat constructor. }
  destruct (outlier_rejection_selects R (fun m => m) stamp_moments
              two_ccd_batch 0 Hd) as (em & Hrej & _); [discriminate | ].
  destruct (outlier_rejection_conserves R (fun m => m) stamp_moments
              two_ccd_batch _ 0 em 1%nat [0%R; 3%R] Hd Hrej eq_refl)
    as (kept & e & Hk & He & _ & Hcount).
  eexists _, em, kept, e. repeat split; eassumption.
Defined.

(** *** Sky lists that are not there together *)






Section OutlierSky.

Variable Stamp : Type.
Variable badpix_mask : Stamp -> Stamp.
Variable FindAdaptiveMom : Stamp -> Stamp -> Moments.

Local Abbreviation rejecting :=
  (outlier_rejection Stamp badpix_mask FindAdaptiveMom).
Local Abbreviation measured :=
  (measure_shapes Stamp badpix_mask FindAdaptiveMom).



End OutlierSky.



(** ** The nearest neighbours, for every number asked *)

Lemma lookup_gather_fun {A : Type} (arr : list A) (order : list nat)
  (r r' : list A) :
  Forall2 (fun i a => arr !! i = Some a) order r ->
  Forall2 (fun i a => arr !! i = Some a) order r' ->
  r = r'.
Proof.
  intros H; revert r'; induction H as [ | i a order r Ha _ IH]; intros r' H';
    inversion H' as [ | ? a' ? r'' Ha' Hr']; subst; [reflexivity | ].
  rewrite Ha in Ha'. injection Ha' as <-. now rewrite (IH r'' Hr').
Qed.

Lemma strongly_sorted_split (l1 l2 : list R) :
  StronglySorted Rle (l1 ++ l2) ->
  StronglySorted Rle l1 /\ Forall (fun a => Forall (Rle a) l2) l1.
Proof.
  induction l1 as [ | a l1 IH]; cbn; intros H.
  - split; constructor.
  - inversion H as [ | ? ? Hs Hall]; subst.
    destruct (IH Hs) as [H1 H2].
    apply Forall_app in Hall. destruct Hall as [Ha1 Ha2].
    split; constructor; assumption.
Qed.

(** Gathering an array along the first [k] indices of the sort of its keys
    gives the [k] entries of the smallest keys, by ascending key. *)
Lemma nearest_prefix {A : Type} (f : A -> R) (arr : list A) (k : nat)
  (r : list A) :
  Forall2 (fun i a => arr !! i = Some a)
          (take k (np_argsort (map f arr))) r ->
  exists rest,
    Permutation (r ++ rest) arr /\
    Sorted Rle (map f r) /\
    Forall (fun a => Forall (fun b => (f a <= f b)%R) rest) r /\
    length r = Nat.min k (length arr).
Proof.
  intros Hr.
  destruct (take_indices_total arr (np_argsort (map f arr)))
    as (r_all & _ & _ & Hall).
  { rewrite <- (length_map f arr). apply np_argsort_bound. }
  assert (Heq : r = take k r_all)
    by (apply (lookup_gather_fun arr _ _ _ Hr), Forall2_take, Hall).
  assert (Hperm : Permutation r_all arr).
  { apply (gathered_perm arr (np_argsort (map f arr))); [ | exact Hall].
    rewrite <- (length_map f arr). apply np_argsort_perm. }
  assert (Hsorted : StronglySorted Rle (map f r_all)).
  { apply Sorted_StronglySorted; [exact Rle_trans | ].
    rewrite (gathered_keys f arr
               (sort_by_key (combine (map f arr)
                                     (seq 0 (length (map f arr)))))
               r_all (sort_by_key_keys (map f arr)) Hall).
    apply sorted_keys, sort_by_key_sorted. }
  exists (drop k r_all). subst r.
  rewrite <- (take_drop k r_all) in Hsorted at 1. rewrite map_app in Hsorted.
  apply strongly_sorted_split in Hsorted. destruct Hsorted as [Hs1 Hs2].
  split; [now rewrite take_drop | ].
  split; [now apply StronglySorted_Sorted | ].
  split.
  - apply Forall_forall. intros a Ha. apply Forall_forall. intros b Hb.
    rewrite Forall_forall in Hs2.
    specialize (Hs2 (f a) (in_map f _ a Ha)).
    rewrite Forall_forall in Hs2. apply Hs2. now apply in_map.
  - rewrite length_take, (Permutation_length Hperm). reflexivity.
Qed.

(** X22: The local search, for every number of neighbours asked: nothing is
    raised; the values and the positions returned belong to the same
    stars; there are [n_neighbors] of them, or all the stars of the CCD if
    these are fewer; they come by ascending distance to the target; and no
    star left out is nearer to the target than a star returned. *)
Theorem return_loc_neighbors_nearest {V : Type} (new_pos : R * R)
  (obs_pos : list (R * R)) (vals : list V) (n_neighbors : nat) :
  length vals = length obs_pos ->
  exists nbs pos order rest,
    return_loc_neighbors new_pos obs_pos vals n_neighbors = Ok (nbs, pos) /\
    Forall2 (fun i v => vals !! i = Some v) order nbs /\
    Forall2 (fun i p => obs_pos !! i = Some p) order pos /\
    length pos = Nat.min n_neighbors (length obs_pos) /\
    Permutation (pos ++ rest) obs_pos /\
    Sorted Rle (map (row_norm new_pos) pos) /\
    Forall (fun p =>
              Forall (fun q => (row_norm new_pos p <= row_norm new_pos q)%R)
                     rest)
           pos.
Proof.
  intros Hlen. unfold return_loc_neighbors.
  set (order := take n_neighbors (np_argsort (map (row_norm new_pos) obs_pos))).
  assert (Hbound : Forall (fun i => (i < length obs_pos)%nat) order).
  { pose proof (np_argsort_bound (map (row_norm new_pos) obs_pos)) as Hb.
    rewrite length_map in Hb. now apply Forall_take. }
  destruct (take_indices_total vals order) as (nbs & Hn & _ & Hnbs);
    [now rewrite Hlen | ].
  destruct (take_indices_total obs_pos order) as (pos & Hp & _ & Hpos);
    [exact Hbound | ].
  destruct (nearest_prefix (row_norm new_pos) obs_pos n_neighbors pos Hpos)
    as (rest & Hperm & Hsorted & Hnear & Hcount).
  exists nbs, pos, order, rest.
  rewrite Hn. cbn [bind]. rewrite Hp. cbn [bind]. now repeat split.
Qed.

Lemma return_loc_neighbors_nearest_witness :
  exists nbs pos,
    return_loc_neighbors (0%R, 0%R) [(3%R, 0%R); (1%R, 0%R)] [30; 10] 5
    = Ok (nbs, pos) /\
    length pos = 2%nat.
Proof.
  destruct (return_loc_neighbors_nearest (0%R, 0%R) [(3%R, 0%R); (1%R, 0%R)]
              [30; 10] 5 eq_refl)
    as (nbs & pos & order & rest & Hret & _ & _ & Hcount & _).
  exists nbs, pos. split; [exact Hret | exact Hcount].
Defined.

(** The global search with no more neighbours asked than there are stars:
    the values and the positions are gathered along the first indices of
    the sort of the distances of the concatenated CCDs. *)
Lemma return_glob_neighbors_gathers {V : Type} (new_pos : R * R)
  (obs_pos_list : list (list (R * R))) (val_list : list (list V))
  (n_neighbors : nat) :
  obs_pos_list <> [] ->
  same_counts val_list obs_pos_list ->
  (n_neighbors <= length (concat obs_pos_list))%nat ->
  exists values positions,
    return_glob_neighbors new_pos obs_pos_list val_list n_neighbors
    = Ok (values, positions) /\
    Forall2 (fun g v => concat val_list !! g = Some v)
            (take n_neighbors
                  (np_argsort (map (row_norm new_pos) (concat obs_pos_list))))
            values /\
    Forall2 (fun g p => concat obs_pos_list !! g = Some p)
            (take n_neighbors
                  (np_argsort (map (row_norm new_pos) (concat obs_pos_list))))
            positions.
Proof.
  intros Hne Hsc Hk. unfold return_glob_neighbors.
  pose proof (dist_list_total new_pos obs_pos_list 0) as Htot.
  pose proof (dist_keys new_pos obs_pos_list 0) as Hkeys.
  pose proof (dist_list_lookup new_pos obs_pos_list 0) as Hlk.
  rewrite np_concatenate_ne
    by (destruct obs_pos_list; [congruence | discriminate]).
  cbn [bind].
  set (distances :=
         concat (map (fun pc => dist_columns new_pos (fst pc) (snd pc))
                     (combine obs_pos_list (seq 0 (length obs_pos_list)))))
    in *.
  set (keys := map (fun t => fst (fst t)) distances) in *.
  rewrite <- Hkeys.
  assert (Hklen : length keys = length (concat obs_pos_list))
    by (rewrite Hkeys; apply length_map).
  set (order := take n_neighbors (np_argsort keys)).
  assert (Hbound : Forall (fun g => (g < length (concat obs_pos_list))%nat)
                          order)
    by (rewrite <- Hklen; apply Forall_take, np_argsort_bound).
  destruct (take_indices_total (map (fun t => snd (fst t)) distances) order)
    as (ccd_idxs & Hc & Hclen & Hccd).
  { now rewrite length_map, Htot. }
  destruct (take_indices_total (map (fun t => snd t) distances) order)
    as (inter & Hi & Hilen & Hinter).
  { now rewrite length_map, Htot. }
  rewrite Hc. cbn [bind]. rewrite Hi. cbn [bind].
  assert (Hlen : length order = n_neighbors).
  { unfold order. rewrite length_take, np_argsort_length. lia. }
  replace (seq 0 n_neighbors) with (seq 0 (length order))
    by now rewrite Hlen.
  assert (Hstar : forall it g, order !! it = Some g ->
            exists c i obs p vals v,
              ccd_idxs !! it = Some c /\ inter !! it = Some i /\
              obs_pos_list !! c = Some obs /\ obs !! i = Some p /\
              val_list !! c = Some vals /\ vals !! i = Some v /\
              concat obs_pos_list !! g = Some p /\
              concat val_list !! g = Some v).
  { intros it g Hit.
    assert (Hg : (g < length (concat obs_pos_list))%nat).
    { rewrite Forall_forall in Hbound. apply Hbound.
      eapply list_elem_of_In, list_elem_of_lookup_2; exact Hit. }
    destruct (Hlk g Hg) as (t & i & obs & p & Hd & Ht & Hp & Hoff).
    cbn [Nat.add] in Hd.
    destruct (Forall2_lookup_both _ _ _ it g Hccd Hit) as (c & Hcit & Hcg).
    destruct (Forall2_lookup_both _ _ _ it g Hinter Hit) as (i' & Hiit & Hig).
    rewrite map_fmap, list_lookup_fmap, Hd in Hcg, Hig.
    cbn in Hcg, Hig. injection Hcg as <-. injection Hig as <-.
    destruct (same_counts_lookup val_list obs_pos_list t obs Hsc Ht)
      as (vals & Hvals & Hvlen).
    destruct (lookup_lt_is_Some_2 vals i) as [v Hv].
    { rewrite Hvlen. eapply lookup_lt_Some; exact Hp. }
    exists t, i, obs, p, vals, v. repeat split; trivial.
    - rewrite Hoff. now apply (concat_lookup obs_pos_list t i obs p).
    - rewrite Hoff, <- (same_counts_offset val_list obs_pos_list t Hsc).
      now apply (concat_lookup val_list t i vals v). }
  match goal with
  | |- context [mapM ?f (seq 0 (length order))] =>
      destruct (mapM_seq_Forall2 order f
                  (fun g v => concat val_list !! g = Some v) 0)
        as (values & Hvalues & Hvall)
  end.
  { intros it g Hit.
    destruct (Hstar it g Hit)
      as (c & i & obs & p & vals & v & H1 & H2 & H3 & H4 & H5 & H6 & H7 & H8).
    exists v. cbn [Nat.add].
    rewrite (list_get_Some _ _ _ H1). cbn [bind].
    rewrite (list_get_Some _ _ _ H5). cbn [bind].
    rewrite (list_get_Some _ _ _ H2). cbn [bind].
    now rewrite (list_get_Some _ _ _ H6). }
  rewrite Hvalues. cbn [bind].
  match goal with
  | |- context [mapM ?f (seq 0 (length order))] =>
      destruct (mapM_seq_Forall2 order f
                  (fun g p => concat obs_pos_list !! g = Some p) 0)
        as (positions & Hpositions & Hpall)
  end.
  { intros it g Hit.
    destruct (Hstar it g Hit)
      as (c & i & obs & p & vals & v & H1 & H2 & H3 & H4 & H5 & H6 & H7 & H8).
    exists p. cbn [Nat.add].
    rewrite (list_get_Some _ _ _ H1). cbn [bind].
    rewrite (list_get_Some _ _ _ H3). cbn [bind].
    rewrite (list_get_Some _ _ _ H2). cbn [bind].
    now rewrite (list_get_Some _ _ _ H4). }
  rewrite Hpositions. cbn [bind].
  exists values, positions. now repeat split.
Qed.

(** X23: The global search with no more neighbours asked than there are stars
    in all the CCDs: nothing is raised; the values and the positions
    returned belong to the same stars of the concatenated CCDs; there are
    [n_neighbors] of them; they come by ascending distance to the target;
    and no star left out, of whatever CCD, is nearer to the target than a
    star returned. *)
Theorem return_glob_neighbors_nearest {V : Type} (new_pos : R * R)
  (obs_pos_list : list (list (R * R))) (val_list : list (list V))
  (n_neighbors : nat) :
  obs_pos_list <> [] ->
  same_counts val_list obs_pos_list ->
  (n_neighbors <= length (concat obs_pos_list))%nat ->
  exists values positions order rest,
    return_glob_neighbors new_pos obs_pos_list val_list n_neighbors
    = Ok (values, positions) /\
    Forall2 (fun g v => concat val_list !! g = Some v) order values /\
    Forall2 (fun g p => concat obs_pos_list !! g = Some p) order positions /\
    length positions = n_neighbors /\
    Permutation (positions ++ rest) (concat obs_pos_list) /\
    Sorted Rle (map (row_norm new_pos) positions) /\
    Forall (fun p =>
              Forall (fun q => (row_norm new_pos p <= row_norm new_pos q)%R)
                     rest)
           positions.
Proof.
  intros Hne Hsc Hk.
  destruct (return_glob_neighbors_gathers new_pos obs_pos_list val_list
              n_neighbors Hne Hsc Hk) as (values & positions & Hret & Hv & Hp).
  destruct (nearest_prefix (row_norm new_pos) (concat obs_pos_list)
              n_neighbors positions Hp)
    as (rest & Hperm & Hsorted & Hnear & Hcount).
  exists values, positions,
    (take n_neighbors
          (np_argsort (map (row_norm new_pos) (concat obs_pos_list)))), rest.
  repeat split; try assumption. lia.
Qed.

Lemma return_glob_neighbors_nearest_witness :
  exists values positions,
    return_glob_neighbors (0%R, 0%R) [[(3%R, 0%R)]; [(1%R, 0%R)]]
                          [[30]; [10]] 1
    = Ok (values, positions) /\
    length positions = 1%nat.
Proof.
  destruct (return_glob_neighbors_nearest (0%R, 0%R)
              [[(3%R, 0%R)]; [(1%R, 0%R)]] [[30]; [10]] 1)
    as (values & positions & order & rest & Hret & _ & _ & Hcount & _).
  - discriminate.
  - repeat constructor.
  - cbn. lia.
  - exists values, positions. split; [exact Hret | exact Hcount].
Defined.

(** X24: On one CCD, and with no more neighbours asked than it has stars, the
    global search is the local search. *)
Theorem return_glob_neighbors_one_ccd {V : Type} (new_pos : R * R)
  (obs_pos : list (R * R)) (vals : list V) (n_neighbors : nat) :
  length vals = length obs_pos ->
  (n_neighbors <= length obs_pos)%nat ->
  return_glob_neighbors new_pos [obs_pos] [vals] n_neighbors
  = return_loc_neighbors new_pos obs_pos vals n_neighbors.
Proof.
  intros Hlen Hk.
  destruct (return_glob_neighbors_gathers new_pos [obs_pos] [vals]
              n_neighbors) as (values & positions & Hret & Hv & Hp).
  - discriminate.
  - now repeat constructor.
  - cbn [concat]. now rewrite app_nil_r.
  - assert (Ev : concat [vals] = vals) by apply app_nil_r.
    assert (Eo : concat [obs_pos] = obs_pos) by apply app_nil_r.
    rewrite Ev, Eo in Hv. rewrite Eo in Hp.
    rewrite Hret. unfold return_loc_neighbors.
    set (order := take n_neighbors
                       (np_argsort (map (row_norm new_pos) obs_pos))) in *.
    assert (Hbound : Forall (fun i => (i < length obs_pos)%nat) order).
    { pose proof (np_argsort_bound (map (row_norm new_pos) obs_pos)) as Hb.
      rewrite length_map in Hb. now apply Forall_take. }
    destruct (take_indices_total vals order) as (nbs & Hn & _ & Hnbs);
      [now rewrite Hlen | ].
    destruct (take_indices_total obs_pos order) as (pos & Hpo & _ & Hpos);
      [exact Hbound | ].
    rewrite Hn. cbn [bind]. rewrite Hpo. cbn [bind].
    now rewrite (lookup_gather_fun vals order values nbs Hv Hnbs),
      (lookup_gather_fun obs_pos order positions pos Hp Hpos).
Qed.

Lemma return_glob_neighbors_one_ccd_witness :
  return_glob_neighbors (0%R, 0%R) [[(3%R, 0%R); (1%R, 0%R)]] [[30; 10]] 1
  = return_loc_neighbors (0%R, 0%R) [(3%R, 0%R); (1%R, 0%R)] [30; 10] 1.
Proof.
  apply (return_glob_neighbors_one_ccd (0%R, 0%R) [(3%R, 0%R); (1%R, 0%R)]
           [30; 10] 1); [reflexivity | cbn; lia].
Defined.

(** ** [random_indexes] *)

Lemma py_slices_append {A : Type} (l : list A) (k : Z) :
  py_slice_to l k ++ py_slice_from l k = l.
Proof.
  unfold py_slice_to, py_slice_from.
  destruct (k <? 0); apply take_drop.
Qed.

(** X20: The two index sets split the indices below [n_tot]: whatever the draw
    and the two bounds, every index is in the training set or in the test
    set, and in one of them only, once. *)
Theorem random_indexes_partition (sample : list R) (n_tot : nat)
  (train_per : R) (min_n_train : Z) :
  length sample = n_tot ->
  Permutation (fst (random_indexes sample n_tot train_per min_n_train)
               ++ snd (random_indexes sample n_tot train_per min_n_train))
              (seq 0 n_tot) /\
  NoDup (fst (random_indexes sample n_tot train_per min_n_train)
         ++ snd (random_indexes sample n_tot train_per min_n_train)).
Proof.
  intros Hlen. unfold random_indexes. cbn [fst snd].
  rewrite py_slices_append, <- Hlen.
  split; [apply np_argsort_perm | ].
  apply (Permutation_NoDup (Permutation_sym (np_argsort_perm sample))).
  apply seq_NoDup.
Qed.

Lemma random_indexes_partition_witness :
  Permutation (fst (random_indexes [2%R; 1%R; 3%R] 3 (8 / 10) 2)
               ++ snd (random_indexes [2%R; 1%R; 3%R] 3 (8 / 10) 2))
              [0; 1; 2]%nat.
Proof.
  exact (proj1 (random_indexes_partition [2%R; 1%R; 3%R] 3 (8 / 10) 2
                  eq_refl)).
Defined.

(** X21: With no more elements than [min_n_train] every index goes to the
    training set, which is then shorter than [min_n_train] asks when the
    elements are fewer, and the test set is empty. *)
Theorem random_indexes_small_sample (sample : list R) (n_tot : nat)
  (train_per : R) (min_n_train : Z) :
  length sample = n_tot ->
  Z.of_nat n_tot <= min_n_train ->
  snd (random_indexes sample n_tot train_per min_n_train) = [] /\
  Permutation (fst (random_indexes sample n_tot train_per min_n_train))
              (seq 0 n_tot).
Proof.
  intros Hlen Hmin. unfold random_indexes. cbn [fst snd].
  set (nb := Z.max _ min_n_train).
  assert (Hnb : Z.of_nat n_tot <= nb) by (unfold nb; lia).
  unfold py_slice_to, py_slice_from.
  destruct (Z.ltb_spec nb 0) as [Hneg | _]; [lia | ].
  assert (Hall : (length (np_argsort sample) <= Z.to_nat nb)%nat)
    by (rewrite np_argsort_length, Hlen; lia).
  rewrite (drop_ge _ _ Hall), (take_ge _ _ Hall), <- Hlen.
  split; [reflexivity | apply np_argsort_perm].
Qed.

Lemma random_indexes_small_sample_witness :
  snd (random_indexes [2%R; 1%R; 3%R] 3 (8 / 10) 20) = [].
Proof.
  apply (random_indexes_small_sample [2%R; 1%R; 3%R] 3 (8 / 10) 20);
    [reflexivity | lia].
Defined.

(** ** More on [MomentInterpolator] *)

(** *** Flattening and reshaping *)

Lemma reshape_flatten (M : matrix) (m : nat) :
  Forall (fun r => length r = m) M ->
  reshape (flatten M) (length M) m = M.
Proof.
  unfold reshape, flatten.
  induction 1 as [ | r M Hr _ IH]; [reflexivity | ].
  cbn [length seq map concat]. rewrite <- seq_shift, map_map. f_equal.
  - cbn [Nat.mul drop]. now apply take_app_length'.
  - rewrite <- IH at 2. apply map_ext. intros i.
    cbn [Nat.mul]. now rewrite drop_app_add'.
Qed.

Lemma reshape_meshgrid_x (g : R -> R) (x_lin y_lin : list R) :
  reshape (map g (flatten (fst (np_meshgrid_ij x_lin y_lin))))
          (length x_lin) (length y_lin)
  = map (fun x => map (fun _ => g x) y_lin) x_lin.
Proof.
  unfold np_meshgrid_ij, flatten. cbn [fst].
  rewrite concat_map, map_map.
  rewrite <- (length_map (fun x => map g (map (fun _ => x) y_lin)) x_lin)
    at 1.
  rewrite (reshape_flatten _ (length y_lin)).
  - apply map_ext. intros x. now rewrite map_map.
  - apply Forall_forall. intros r Hr. apply in_map_iff in Hr.
    destruct Hr as (x & <- & _). now rewrite !length_map.
Qed.

Lemma reshape_meshgrid_y (g : R -> R) (x_lin y_lin : list R) :
  reshape (map g (flatten (snd (np_meshgrid_ij x_lin y_lin))))
          (length x_lin) (length y_lin)
  = map (fun _ => map g y_lin) x_lin.
Proof.
  unfold np_meshgrid_ij, flatten. cbn [snd].
  rewrite concat_map, map_map.
  rewrite <- (length_map (fun _ => map g y_lin) x_lin) at 1.
  rewrite (reshape_flatten _ (length y_lin)); [reflexivity | ].
  apply Forall_forall. intros r Hr. apply in_map_iff in Hr.
  destruct Hr as (x & <- & _). now rewrite length_map.
Qed.

(** *** The centres of the bins *)

Lemma np_linspace_length (start stop : R) (num : nat) :
  length (np_linspace start stop num) = num.
Proof. unfold np_linspace. now rewrite length_map, length_seq. Qed.

(** The samples of [np.linspace] between the centres of the first and of
    the last bin are the centres of all the bins. *)
Lemma np_linspace_centres (pix : Z) (n i : nat) :
  (i < n)%nat ->
  np_linspace (IZR pix / INR n / 2) (IZR pix - IZR pix / INR n / 2) n !! i
  = Some (bin_centre pix n i).
Proof.
  intros Hi. unfold np_linspace, bin_centre.
  rewrite map_fmap, list_lookup_fmap, lookup_seq_lt by exact Hi.
  cbn [fmap option_fmap option_map Nat.add]. f_equal.
  destruct (Nat.eq_dec n 1) as [-> | Hn].
  - assert (i = 0%nat) as -> by lia. cbn [INR]. lra.
  - assert (Hn1 : (1 <= n)%nat) by lia.
    rewrite (minus_INR n 1 Hn1). cbn [INR].
    assert (H2 : (2 <= INR n)%R).
    { replace 2%R with (INR 2) by (cbn; lra). apply le_INR. lia. }
    field. lra.
Qed.

(** *** The two forms of the mapping *)

Lemma loc2glob_img_coord_array_pointwise (self : Loc2Glob) (ccd_n : Z)
  (xs ys : list R) :
  ccd_n < 40 ->
  exists x_shift y_shift,
    loc2glob_img_coord_array self ccd_n xs ys
    = Ok (map (global_x self ccd_n x_shift) xs,
          map (global_y self ccd_n y_shift) ys) /\
    forall x y,
      loc2glob_img_coord self ccd_n x y
      = Ok (global_x self ccd_n x_shift x, global_y self ccd_n y_shift y).
Proof.
  intros Hlt. unfold loc2glob_img_coord_array, loc2glob_img_coord, flip_coord,
    global_x, global_y.
  destruct (shift_coord self ccd_n) as [[dx dy] | ] eqn:Hs.
  - exists dx, dy. destruct (flipped ccd_n); rewrite ?map_map;
      split; reflexivity.
  - apply (proj1 (shift_coord_none self ccd_n)) in Hs. lia.
Qed.

(** *** What the constructor stores *)

Lemma Forall2_Forall_r {A B : Type} (P : A -> B -> Prop) (Q : B -> Prop)
  (l : list A) (l' : list B) :
  Forall2 P l l' -> (forall a b, In a l -> P a b -> Q b) -> Forall Q l'.
Proof.
  induction 1 as [ | a b l l' Hab _ IH]; intros HQ; constructor.
  - apply (HQ a b); [now left | exact Hab].
  - apply IH. intros a' b' Hin. apply HQ. now right.
Qed.

Lemma MomentInterpolator_init_Ok (moment_map : ndarray3)
  (n_neighbors : nat) (rbf_function : string) :
  has_shape (shape0 moment_map) (shape1 moment_map) (shape2 moment_map)
            (items moment_map) ->
  (0 < shape1 moment_map)%nat -> (0 < shape2 moment_map)%nat ->
  (shape0 moment_map <= 40)%nat ->
  exists self,
    MomentInterpolator_init moment_map n_neighbors rbf_function = Ok self /\
    mi_n_neighbors self = n_neighbors /\
    mi_rbf_function self = rbf_function /\
    has_shape (shape0 moment_map) (shape1 moment_map) (shape2 moment_map)
              (mi_moment_map self) /\
    has_shape (shape0 moment_map) (shape1 moment_map) (shape2 moment_map)
              (mi_x_pos self) /\
    has_shape (shape0 moment_map) (shape1 moment_map) (shape2 moment_map)
              (mi_y_pos self) /\
    forall ccd i j,
      (ccd < shape0 moment_map)%nat ->
      (i < shape1 moment_map)%nat ->
      (j < shape2 moment_map)%nat ->
      exists gx gy,
        loc2glob_img_coord Loc2Glob_default (Z.of_nat ccd)
          (bin_centre (x_npix Loc2Glob_default) (shape1 moment_map) i)
          (bin_centre (y_npix Loc2Glob_default) (shape2 moment_map) j)
        = Ok (gx, gy) /\
        get3 (mi_x_pos self) ccd i j = Ok gx /\
        get3 (mi_y_pos self) ccd i j = Ok gy.
Proof.
  destruct moment_map as [n0 n1 n2 src]. cbn [shape0 shape1 shape2 items].
  intros Hsrc H1 H2 H0. unfold MomentInterpolator_init.
  cbn [shape0 shape1 shape2 items].
  destruct n1 as [ | n1']; [lia | ]. destruct n2 as [ | n2']; [lia | ].
  cbn [int_truediv bind].
  destruct (reorient_loop n0 (S n1') (S n2') src (grid_cells n0 (S n1') (S n2'))
              (np_zeros3 n0 (S n1') (S n2')) Hsrc (np_zeros3_shape _ _ _))
    as (a' & Hfold & Hshape & _).
  { apply Forall_forall. intros cell. apply grid_cells_in. }
  rewrite Hfold. cbn [bind].
  set (x_lin := np_linspace _ _ (S n1')).
  set (y_lin := np_linspace _ _ (S n2')).
  assert (Hxl : length x_lin = S n1') by apply np_linspace_length.
  assert (Hyl : length y_lin = S n2') by apply np_linspace_length.
  assert (Hxc : forall i, (i < S n1')%nat ->
            x_lin !! i
            = Some (bin_centre (x_npix Loc2Glob_default) (S n1') i))
    by (intros i Hi; now apply np_linspace_centres).
  assert (Hyc : forall j, (j < S n2')%nat ->
            y_lin !! j
            = Some (bin_centre (y_npix Loc2Glob_default) (S n2') j))
    by (intros j Hj; now apply np_linspace_centres).
  clearbody x_lin y_lin.
  destruct (np_meshgrid_ij x_lin y_lin) as [xv yv] eqn:Hmesh.
  assert (Hxv : xv = fst (np_meshgrid_ij x_lin y_lin)) by now rewrite Hmesh.
  assert (Hyv : yv = snd (np_meshgrid_ij x_lin y_lin)) by now rewrite Hmesh.
  match goal with
  | |- context [mapM ?f (seq 0 n0)] => set (tile_of := f)
  end.
  assert (Htile : forall ccd, (ccd < n0)%nat ->
            exists dx dy,
              tile_of ccd
              = Ok (map (fun x =>
                           map (fun _ => global_x Loc2Glob_default
                                           (Z.of_nat ccd) dx x) y_lin) x_lin,
                    map (fun _ =>
                           map (global_y Loc2Glob_default (Z.of_nat ccd) dy)
                               y_lin) x_lin) /\
              forall x y,
                loc2glob_img_coord Loc2Glob_default (Z.of_nat ccd) x y
                = Ok (global_x Loc2Glob_default (Z.of_nat ccd) dx x,
                      global_y Loc2Glob_default (Z.of_nat ccd) dy y)).
  { intros ccd Hccd.
    destruct (loc2glob_img_coord_array_pointwise Loc2Glob_default
                (Z.of_nat ccd) (flatten xv) (flatten yv))
      as (dx & dy & Harr & Hpt); [lia | ].
    exists dx, dy. split; [ | exact Hpt].
    unfold tile_of. rewrite Harr. cbn [bind fst snd].
    rewrite <- Hxl, <- Hyl, Hxv, Hyv.
    now rewrite reshape_meshgrid_x, reshape_meshgrid_y. }
  destruct (mapM_total tile_of (seq 0 n0)) as (pos & Hpos & Hplen).
  { intros ccd Hin. apply in_seq in Hin.
    destruct (Htile ccd) as (dx & dy & -> & _); [lia | eauto]. }
  rewrite Hpos. cbn [bind]. eexists. split; [reflexivity | ].
  cbn [mi_n_neighbors mi_rbf_function mi_moment_map mi_x_pos mi_y_pos].
  pose proof (mapM_Ok_inv tile_of _ _ Hpos) as Hall.
  rewrite length_seq in Hplen.
  assert (Hform : Forall (fun p =>
                            (length (fst p) = S n1' /\
                             Forall (fun r => length r = S n2') (fst p)) /\
                            (length (snd p) = S n1' /\
                             Forall (fun r => length r = S n2') (snd p)))
                         pos).
  { apply (Forall2_Forall_r _ _ _ _ Hall). intros ccd p Hin HF.
    apply in_seq in Hin.
    destruct (Htile ccd) as (dx & dy & HF' & _); [lia | ].
    rewrite HF' in HF. injection HF as <-. cbn [fst snd].
    rewrite !length_map.
    repeat split; trivial; apply Forall_forall; intros r Hr;
      apply in_map_iff in Hr; destruct Hr as (x & <- & _);
      now rewrite length_map. }
  rewrite Forall_forall in Hform.
  split; [reflexivity | ]. split; [reflexivity | ]. split; [exact Hshape | ].
  split; [ | split].
  - split; [now rewrite length_map | ].
    apply Forall_forall. intros tile Hin. apply in_map_iff in Hin.
    destruct Hin as (p & <- & Hp). apply (Hform p Hp).
  - split; [now rewrite length_map | ].
    apply Forall_forall. intros tile Hin. apply in_map_iff in Hin.
    destruct Hin as (p & <- & Hp). apply (Hform p Hp).
  - intros ccd i j Hc Hi Hj.
    destruct (Htile ccd Hc) as (dx & dy & HF & Hpt).
    destruct (Forall2_lookup_both _ _ _ ccd ccd Hall) as (p & Hp & HFp);
      [now apply lookup_seq_lt | ].
    rewrite HF in HFp. injection HFp as <-.
    pose proof (Hxc i Hi) as Hxi. pose proof (Hyc j Hj) as Hyj.
    eexists _, _. split; [apply Hpt | ].
    split.
    + eapply get3_lookup.
      * rewrite map_fmap, list_lookup_fmap, Hp. reflexivity.
      * cbn [fst]. rewrite map_fmap, list_lookup_fmap, Hxi. reflexivity.
      * rewrite map_fmap, list_lookup_fmap, Hyj. reflexivity.
    + eapply get3_lookup.
      * rewrite map_fmap, list_lookup_fmap, Hp. reflexivity.
      * cbn [snd]. rewrite map_fmap, list_lookup_fmap, Hxi. reflexivity.
      * rewrite map_fmap, list_lookup_fmap, Hyj. reflexivity.
Qed.

(** X28: When the constructor returns and when it raises, for a map of the shape
    it declares: [ZeroDivisionError] without a row or without a column,
    [TypeError] past 40 tiles, and otherwise an object whose stored map and
    whose two position maps have the shape of the map given. *)
Theorem MomentInterpolator_init_outcome (moment_map : ndarray3)
  (n_neighbors : nat) (rbf_function : string) :
  has_shape (shape0 moment_map) (shape1 moment_map) (shape2 moment_map)
            (items moment_map) ->
  (shape1 moment_map = 0%nat \/ shape2 moment_map = 0%nat ->
   MomentInterpolator_init moment_map n_neighbors rbf_function
   = Raise ZeroDivisionError) /\
  ((0 < shape1 moment_map)%nat -> (0 < shape2 moment_map)%nat ->
   (40 < shape0 moment_map)%nat ->
   MomentInterpolator_init moment_map n_neighbors rbf_function
   = Raise TypeError) /\
  ((0 < shape1 moment_map)%nat -> (0 < shape2 moment_map)%nat ->
   (shape0 moment_map <= 40)%nat ->
   exists self,
     MomentInterpolator_init moment_map n_neighbors rbf_function = Ok self /\
     has_shape (shape0 moment_map) (shape1 moment_map) (shape2 moment_map)
               (mi_moment_map self) /\
     has_shape (shape0 moment_map) (shape1 moment_map) (shape2 moment_map)
               (mi_x_pos self) /\
     has_shape (shape0 moment_map) (shape1 moment_map) (shape2 moment_map)
               (mi_y_pos self)).
Proof.
  intros Hshape. split; [ | split].
  - intros Hzero. unfold MomentInterpolator_init.
    destruct (shape1 moment_map) as [ | n1']; [reflexivity | ].
    destruct Hzero as [Hz | Hz]; [discriminate | ]. now rewrite Hz.
  - now apply MomentInterpolator_init_too_many_ccds.
  - intros H1 H2 H0.
    destruct (MomentInterpolator_init_Ok moment_map n_neighbors rbf_function
                Hshape H1 H2 H0)
      as (self & Hinit & _ & _ & Hm & Hx & Hy & _).
    exists self.
    split; [exact Hinit | split; [exact Hm | split; [exact Hx | exact Hy]]].
Qed.

Lemma MomentInterpolator_init_outcome_witness :
  exists self,
    MomentInterpolator_init sample_moment_map 1000 "thin_plate" = Ok self /\
    has_shape 2 1 2 (mi_x_pos self).
Proof.
  assert (Hshape : has_shape 2 1 2 (items sample_moment_map)).
  { unfold has_shape, sample_moment_map. cbn. repeat constructor. }
  destruct (MomentInterpolator_init_outcome sample_moment_map 1000
              "thin_plate" Hshape) as (_ & _ & Hok).
  destruct Hok as (self & Hinit & _ & Hx & _); [cbn; lia | cbn; lia | cbn; lia | ].
  exists self. split; [exact Hinit | exact Hx].
Defined.

(** X29: The two position maps hold, for every bin of every tile, the place in
    the mosaic of the centre of the bin: the image under
    [loc2glob_img_coord] of the point [(i + 1/2, j + 1/2)] in units of the
    bin sizes. *)
Theorem MomentInterpolator_init_bin_centres (moment_map : ndarray3)
  (n_neighbors : nat) (rbf_function : string) :
  has_shape (shape0 moment_map) (shape1 moment_map) (shape2 moment_map)
            (items moment_map) ->
  (0 < shape1 moment_map)%nat -> (0 < shape2 moment_map)%nat ->
  (shape0 moment_map <= 40)%nat ->
  exists self,
    MomentInterpolator_init moment_map n_neighbors rbf_function = Ok self /\
    forall ccd i j,
      (ccd < shape0 moment_map)%nat ->
      (i < shape1 moment_map)%nat ->
      (j < shape2 moment_map)%nat ->
      exists gx gy,
        loc2glob_img_coord Loc2Glob_default (Z.of_nat ccd)
          (bin_centre (x_npix Loc2Glob_default) (shape1 moment_map) i)
          (bin_centre (y_npix Loc2Glob_default) (shape2 moment_map) j)
        = Ok (gx, gy) /\
        get3 (mi_x_pos self) ccd i j = Ok gx /\
        get3 (mi_y_pos self) ccd i j = Ok gy.
Proof.
  intros Hshape H1 H2 H0.
  destruct (MomentInterpolator_init_Ok moment_map n_neighbors rbf_function
              Hshape H1 H2 H0) as (self & Hinit & _ & _ & _ & _ & _ & Hcells).
  exists self. split; [exact Hinit | exact Hcells].
Qed.

Lemma MomentInterpolator_init_bin_centres_witness :
  exists self gx gy,
    MomentInterpolator_init sample_moment_map 1000 "thin_plate" = Ok self /\
    loc2glob_img_coord Loc2Glob_default 1 (bin_centre 2048 1 0)
                       (bin_centre 4612 2 1)
    = Ok (gx, gy) /\
    get3 (mi_x_pos self) 1 0 1 = Ok gx /\
    get3 (mi_y_pos self) 1 0 1 = Ok gy.
Proof.
  assert (Hshape : has_shape 2 1 2 (items sample_moment_map)).
  { unfold has_shape, sample_moment_map. cbn. repeat constructor. }
  destruct (MomentInterpolator_init_bin_centres sample_moment_map 1000
              "thin_plate" Hshape) as (self & Hinit & Hcells);
    [cbn; lia | cbn; lia | cbn; lia | ].
  destruct (Hcells 1%nat 0%nat 1%nat) as (gx & gy & Hg & Hx & Hy);
    [cbn; lia | cbn; lia | cbn; lia | ].
  exists self, gx, gy. now repeat split.
Defined.

(** *** [interpolate_position] *)

Lemma concat_length_rows {A : Type} (M : list (list A)) (m : nat) :
  Forall (fun r => length r = m) M ->
  length (concat M) = (length M * m)%nat.
Proof.
  induction 1 as [ | r M Hr _ IH]; [reflexivity | ].
  cbn [concat length]. rewrite length_app, IH, Hr. reflexivity.
Qed.

Lemma flatten3_length (n0 n1 n2 : nat) (a : list (list (list R))) :
  has_shape n0 n1 n2 a -> length (flatten3 a) = (n0 * n1 * n2)%nat.
Proof.
  intros [Hlen Hall]. unfold flatten3.
  rewrite (concat_length_rows _ (n1 * n2)).
  - replace (length (map flatten a)) with n0
      by (rewrite length_map; exact (eq_sym Hlen)).
    lia.
  - apply Forall_forall. intros r Hr. apply in_map_iff in Hr.
    destruct Hr as (tile & <- & Htile).
    rewrite Forall_forall in Hall. destruct (Hall tile Htile) as [Hn1 Hrows].
    unfold flatten. now rewrite (concat_length_rows _ n2 Hrows), Hn1.
Qed.

Lemma combine_map_both {A B C D : Type} (f : A -> C) (g : B -> D)
  (l : list A) (l' : list B) :
  combine (map f l) (map g l')
  = map (fun p => (f (fst p), g (snd p))) (combine l l').
Proof.
  revert l'; induction l as [ | a l IH]; intros [ | b l']; cbn;
    [reflexivity | reflexivity | reflexivity | now rewrite IH].
Qed.

Lemma combine_lookup {A B : Type} (l : list A) (l' : list B) (i : nat)
  (a : A) (b : B) :
  l !! i = Some a -> l' !! i = Some b -> combine l l' !! i = Some (a, b).
Proof.
  revert l' i; induction l as [ | a0 l IH]; intros l' i Ha Hb; [easy | ].
  destruct l' as [ | b0 l']; [easy | ].
  destruct i as [ | i]; cbn in Ha, Hb |- *.
  - now injection Ha as ->; injection Hb as ->.
  - now apply IH.
Qed.

Lemma gather_combine {A B : Type} (X : list A) (Y : list B)
  (order : list nat) (xs : list A) (ys : list B) :
  Forall2 (fun i x => X !! i = Some x) order xs ->
  Forall2 (fun i y => Y !! i = Some y) order ys ->
  Forall2 (fun i p => combine X Y !! i = Some p) order (combine xs ys).
Proof.
  intros Hx; revert ys; induction Hx as [ | i x order xs Hi _ IH]; intros ys Hy;
    inversion Hy as [ | ? y ? ys' Hj Hy']; subst; cbn; constructor.
  - now apply combine_lookup.
  - now apply IH.
Qed.

(** X30: After the constructor, [interpolate_position] raises nothing of its
    own: its outcome is that of the interpolant, built on the positions and
    the stored moments of the same bins, [n_neighbors] of them or all the
    bins if these are fewer, by ascending distance to the target, no bin
    left out being nearer to the target than a bin handed over, and then
    evaluated at the target. *)
Theorem interpolate_position_nearest
  (Rbf : list R -> list R -> list R -> string ->
         result (R -> R -> result R))
  (moment_map : ndarray3) (n_neighbors : nat) (rbf_function : string)
  (self : MomentInterpolator) (target_x target_y : R) :
  has_shape (shape0 moment_map) (shape1 moment_map) (shape2 moment_map)
            (items moment_map) ->
  (0 < shape1 moment_map)%nat -> (0 < shape2 moment_map)%nat ->
  (shape0 moment_map <= 40)%nat ->
  MomentInterpolator_init moment_map n_neighbors rbf_function = Ok self ->
  exists xs ys vals order rest,
    interpolate_position Rbf self target_x target_y
    = (let* rbf := Rbf xs ys vals rbf_function in
       rbf target_x target_y) /\
    Forall2 (fun i x => flatten3 (mi_x_pos self) !! i = Some x) order xs /\
    Forall2 (fun i y => flatten3 (mi_y_pos self) !! i = Some y) order ys /\
    Forall2 (fun i v => flatten3 (mi_moment_map self) !! i = Some v)
            order vals /\
    length order
    = Nat.min n_neighbors
              (shape0 moment_map * shape1 moment_map * shape2 moment_map) /\
    Permutation (combine xs ys ++ rest)
                (combine (flatten3 (mi_x_pos self))
                         (flatten3 (mi_y_pos self))) /\
    Sorted Rle (map (bin_distance target_x target_y) (combine xs ys)) /\
    Forall (fun p =>
              Forall (fun q => (bin_distance target_x target_y p
                                <= bin_distance target_x target_y q)%R) rest)
           (combine xs ys).
Proof.
  intros Hshape H1 H2 H0 Hinit.
  destruct (MomentInterpolator_init_Ok moment_map n_neighbors rbf_function
              Hshape H1 H2 H0)
    as (self' & Hinit' & Hk & Hf & Hm & Hx & Hy & _).
  rewrite Hinit in Hinit'. injection Hinit' as <-.
  apply flatten3_length in Hm, Hx, Hy.
  unfold interpolate_position. rewrite Hk, Hf.
  set (X := flatten3 (mi_x_pos self)) in *.
  set (Y := flatten3 (mi_y_pos self)) in *.
  set (M := flatten3 (mi_moment_map self)) in *.
  set (N := (shape0 moment_map * shape1 moment_map * shape2 moment_map)%nat)
    in *.
  assert (Hdist :
            map (fun r => sqrt (fst r ^ 2 + snd r ^ 2))
                (combine (map (fun x => (x - target_x)%R) X)
                         (map (fun y => (y - target_y)%R) Y))
            = map (bin_distance target_x target_y) (combine X Y))
    by (now rewrite combine_map_both, map_map).
  rewrite Hdist.
  assert (Hlen : length (combine X Y) = N)
    by (rewrite length_combine, Hx, Hy; apply Nat.min_id).
  set (order := take n_neighbors
                     (np_argsort (map (bin_distance target_x target_y)
                                      (combine X Y)))).
  assert (Hbound : Forall (fun i => (i < N)%nat) order).
  { pose proof (np_argsort_bound (map (bin_distance target_x target_y)
                                      (combine X Y))) as Hb.
    rewrite length_map, Hlen in Hb. now apply Forall_take. }
  destruct (take_indices_total X order) as (xs & Hxs & _ & Hgx);
    [now rewrite Hx | ].
  destruct (take_indices_total Y order) as (ys & Hys & _ & Hgy);
    [now rewrite Hy | ].
  destruct (take_indices_total M order) as (vals & Hvs & _ & Hgv);
    [now rewrite Hm | ].
  rewrite Hxs. cbn [bind]. rewrite Hys. cbn [bind]. rewrite Hvs. cbn [bind].
  destruct (nearest_prefix (bin_distance target_x target_y) (combine X Y)
              n_neighbors (combine xs ys) (gather_combine _ _ _ _ _ Hgx Hgy))
    as (rest & Hperm & Hsorted & Hnear & _).
  exists xs, ys, vals, order, rest.
  split.
  { destruct (Rbf xs ys vals rbf_function) as [rbf | e]; [ | reflexivity].
    cbn [bind]. now destruct (rbf target_x target_y). }
  split; [exact Hgx | ]. split; [exact Hgy | ].
  split; [exact Hgv | ].
  split; [ | now repeat split].
  unfold order. now rewrite length_take, np_argsort_length, length_map, Hlen.
Qed.

Lemma interpolate_position_nearest_witness :
  exists self xs ys vals,
    MomentInterpolator_init sample_moment_map 3 "thin_plate" = Ok self /\
    interpolate_position sample_Rbf self 0 0
    = (let* rbf := sample_Rbf xs ys vals "thin_plate" in rbf 0%R 0%R) /\
    length (combine xs ys) = 3%nat.
Proof.
  assert (Hshape : has_shape 2 1 2 (items sample_moment_map)).
  { unfold has_shape, sample_moment_map. cbn. repeat constructor. }
  destruct (MomentInterpolator_init_Ok sample_moment_map 3 "thin_plate"
              Hshape) as (self & Hinit & _); [cbn; lia | cbn; lia | cbn; lia | ].
  destruct (interpolate_position_nearest sample_Rbf sample_moment_map 3
              "thin_plate" self 0 0 Hshape)
    as (xs & ys & vals & order & rest & Hret & Hgx & Hgy & _ & Hlen & _);
    [cbn; lia | cbn; lia | cbn; lia | exact Hinit | ].
  exists self, xs, ys, vals. split; [exact Hinit | ]. split; [exact Hret | ].
  rewrite length_combine, <- (Forall2_length Hgx), <- (Forall2_length Hgy),
    Hlen.
  reflexivity.
Defined.

(** ** More on [interpolation_Pi] *)

Lemma interpolation_Pi_first_empty (rest : list (list (R * R))) (d : nat) :
  interpolation_Pi [] d = Raise IndexError /\
  interpolation_Pi ([] :: rest) d = Raise IndexError.
Proof.
  split.
  - unfold interpolation_Pi.
    rewrite (sum_vals_spec [] d). reflexivity.
  - unfold interpolation_Pi.
    rewrite (sum_vals_spec ([] :: rest) d). cbn [bind].
    rewrite (stage1_spec ([] :: rest) d). cbn [bind].
    unfold spec_stage1, spec_norms. cbn [map].
    destruct ((d + 1) * (d + 2) / 2)%nat as [ | n] eqn:Hn.
    { pose proof (n_comp_glob_pos d). lia. }
    reflexivity.
Qed.

(** X25: Without a CCD, or with a first CCD that holds no position, the
    constant-term entry of the first matrix is not there and
    [interpolation_Pi] raises [IndexError], whatever the degree and the
    other CCDs. *)
Theorem interpolation_Pi_no_first_position (rest : list (list (R * R)))
  (d_comp_glob : nat) :
  interpolation_Pi [] d_comp_glob = Raise IndexError /\
  interpolation_Pi ([] :: rest) d_comp_glob = Raise IndexError.
Proof. apply interpolation_Pi_first_empty. Qed.

(** With a position in the first CCD the matrices are returned, as the two
    divisions leave them. *)
Lemma interpolation_Pi_Ok (p0 : R * R) (tile0 : list (R * R))
  (rest : list (list (R * R))) (d : nat) :
  (0 < global_row_norm ((p0 :: tile0) :: rest) d 0)%R /\
  interpolation_Pi ((p0 :: tile0) :: rest) d
  = Ok (spec_stage2 (spec_stage1 ((p0 :: tile0) :: rest) d)
          (1 * 1 / global_row_norm ((p0 :: tile0) :: rest) d 0)%R).
Proof.
  pose proof (stage1_constant p0 tile0 rest d) as Hc.
  split; [apply global_row_norm0_pos | ].
  set (position_list := (p0 :: tile0) :: rest) in *.
  unfold interpolation_Pi.
  rewrite sum_vals_spec. cbn [bind]. rewrite stage1_spec. cbn [bind].
  rewrite (list_get_nth (spec_stage1 position_list d) 0%nat [])
    by (unfold spec_stage1, position_list; cbn [map length]; lia).
  cbn [bind]. now rewrite Hc.
Qed.

(** X26: One matrix comes back per CCD, with one row per monomial of degree at
    most [d_comp_glob] and one column per position of the CCD. *)
Theorem interpolation_Pi_shapes (position_list : list (list (R * R)))
  (d_comp_glob : nat) (interp_Pi : list matrix) :
  interpolation_Pi position_list d_comp_glob = Ok interp_Pi ->
  Forall2 (fun pos M =>
             length M = ((d_comp_glob + 1) * (d_comp_glob + 2) / 2)%nat /\
             Forall (fun r => length r = length pos) M)
          position_list interp_Pi.
Proof.
  intros Hret.
  destruct position_list as [ | [ | p0 tile0] rest].
  - now rewrite (proj1 (interpolation_Pi_first_empty [] d_comp_glob))
      in Hret.
  - now rewrite (proj2 (interpolation_Pi_first_empty rest d_comp_glob))
      in Hret.
  - destruct (interpolation_Pi_Ok p0 tile0 rest d_comp_glob) as [_ Hok].
    set (position_list := (p0 :: tile0) :: rest) in *.
    assert (Heq : interp_Pi
                  = spec_stage2 (spec_stage1 position_list d_comp_glob)
                      (1 * 1 / global_row_norm position_list d_comp_glob 0)%R)
      by congruence.
    rewrite Heq. clearbody position_list.
    unfold spec_stage2, spec_stage1. rewrite map_map.
    apply Forall2_map_same. intros pos _. split.
    + unfold spec_norms.
      rewrite !length_map, length_combine, poly_pos_length, length_map,
        length_seq.
      apply Nat.min_id.
    + apply Forall_forall. intros r Hr.
      apply in_map_iff in Hr. destruct Hr as (r1 & <- & Hr1).
      apply in_map_iff in Hr1. destruct Hr1 as ([r0 n] & <- & Hr0).
      apply in_combine_l in Hr0. cbn [fst snd]. rewrite !length_map.
      now apply (poly_pos_row_length pos d_comp_glob).
Qed.

Lemma interpolation_Pi_shapes_witness :
  exists interp_Pi,
    interpolation_Pi [[(1%R, 2%R)]; []] 1 = Ok interp_Pi /\
    Forall2 (fun pos M => length M = 3%nat /\
                          Forall (fun r => length r = length pos) M)
            [[(1%R, 2%R)]; []] interp_Pi.
Proof.
  destruct (interpolation_Pi_Ok (1%R, 2%R) [] [[]] 1) as [_ Hok].
  eexists. split; [exact Hok | ].
  exact (interpolation_Pi_shapes _ 1 _ Hok).
Defined.

(** X27: The row of the constant monomial is all ones in every matrix that comes
    back, one entry per position of the CCD. *)
Theorem interpolation_Pi_constant_row (position_list : list (list (R * R)))
  (d_comp_glob : nat) (interp_Pi : list matrix) :
  interpolation_Pi position_list d_comp_glob = Ok interp_Pi ->
  Forall2 (fun pos M => M !! 0%nat = Some (map (fun _ => 1%R) pos))
          position_list interp_Pi.
Proof.
  intros Hret.
  destruct position_list as [ | [ | p0 tile0] rest].
  - now rewrite (proj1 (interpolation_Pi_first_empty [] d_comp_glob))
      in Hret.
  - now rewrite (proj2 (interpolation_Pi_first_empty rest d_comp_glob))
      in Hret.
  - destruct (interpolation_Pi_Ok p0 tile0 rest d_comp_glob) as [Hpos Hok].
    set (position_list := (p0 :: tile0) :: rest) in *.
    assert (Heq : interp_Pi
                  = spec_stage2 (spec_stage1 position_list d_comp_glob)
                      (1 * 1 / global_row_norm position_list d_comp_glob 0)%R)
      by congruence.
    rewrite Heq. clearbody position_list.
    unfold spec_stage2, spec_stage1. rewrite map_map.
    apply Forall2_map_same. intros pos _.
    unfold spec_norms.
    destruct ((d_comp_glob + 1) * (d_comp_glob + 2) / 2)%nat as [ | n] eqn:Hn.
    { pose proof (n_comp_glob_pos d_comp_glob). lia. }
    assert (Hhead : exists M,
               combine (poly_pos pos d_comp_glob)
                       (map (global_row_norm position_list d_comp_glob)
                            (seq 0 (S n)))
               = (map (fun _ => (1 * 1)%R) pos,
                  global_row_norm position_list d_comp_glob 0) :: M).
    { pose proof (poly_pos_row0 pos d_comp_glob) as Hr0.
      pose proof (poly_pos_length pos d_comp_glob) as Hl.
      rewrite Hn in Hl.
      destruct (poly_pos pos d_comp_glob) as [ | r0 M]; [discriminate | ].
      cbn [nth] in Hr0. subst r0. cbn [seq map combine]. eauto. }
    destruct Hhead as [M ->]. cbn [map fst snd lookup list_lookup].
    f_equal. rewrite !map_map. apply map_ext. intros _.
    field. lra.
Qed.

Lemma interpolation_Pi_constant_row_witness :
  exists interp_Pi,
    interpolation_Pi [[(1%R, 2%R); (3%R, 4%R)]] 1 = Ok interp_Pi /\
    Forall2 (fun pos M => M !! 0%nat = Some (map (fun _ => 1%R) pos))
            [[(1%R, 2%R); (3%R, 4%R)]] interp_Pi.
Proof.
  destruct (interpolation_Pi_Ok (1%R, 2%R) [(3%R, 4%R)] [] 1) as [_ Hok].
  eexists. split; [exact Hok | ].
  exact (interpolation_Pi_constant_row _ 1 _ Hok).
Defined.

(** ** [parse_folder] and [preprocess_data] *)

Lemma path_le_cases (a b : string) : path_le a b <-> str_lt a b \/ a = b.
Proof.
  unfold path_le, str_lt, String.leb.
  destruct (String.compare a b) eqn:Hc.
  - apply String.compare_eq_iff in Hc. tauto.
  - tauto.
  - split; [discriminate | ]. intros [H | ->]; [discriminate | ].
    pose proof (String.compare_antisym b b) as Ha. rewrite Hc in Ha.
    discriminate.
Qed.

Lemma path_le_trans (a b c : string) :
  path_le a b -> path_le b c -> path_le a c.
Proof.
  rewrite !path_le_cases. intros [Hab | ->] [Hbc | ->]; try tauto.
  left. now apply (str_lt_trans a b c).
Qed.

Lemma path_le_total (a b : string) : path_le a b \/ path_le b a.
Proof. apply String.leb_total. Qed.

Lemma insert_sorted_perm (x : string) (l : list string) :
  Permutation (insert_sorted x l) (x :: l).
Proof.
  induction l as [ | y l IH]; cbn; [reflexivity | ].
  destruct (String.leb x y); [reflexivity | ].
  rewrite IH. apply perm_swap.
Qed.

Lemma sort_paths_perm (l : list string) : Permutation (sort_paths l) l.
Proof.
  induction l as [ | x l IH]; cbn; [reflexivity | ].
  now rewrite insert_sorted_perm, IH.
Qed.

Lemma insert_sorted_sorted (x : string) (l : list string) :
  StronglySorted path_le l -> StronglySorted path_le (insert_sorted x l).
Proof.
  induction l as [ | y l IH]; cbn; intros Hs; [repeat constructor | ].
  inversion Hs as [ | ? ? Hl Hy]; subst.
  destruct (String.leb x y) eqn:Hxy.
  - constructor; [exact Hs | ]. constructor; [exact Hxy | ].
    apply Forall_forall. intros z Hz. rewrite Forall_forall in Hy.
    apply (path_le_trans x y z Hxy). now apply Hy.
  - constructor; [now apply IH | ].
    apply Forall_forall. intros z Hz.
    apply (Permutation_in _ (insert_sorted_perm x l)) in Hz.
    destruct Hz as [<- | Hz].
    + destruct (path_le_total x y) as [H | H]; [ | exact H].
      unfold path_le in H. congruence.
    + rewrite Forall_forall in Hy. now apply Hy.
Qed.

Lemma sort_paths_sorted (l : list string) :
  StronglySorted path_le (sort_paths l).
Proof.
  induction l as [ | x l IH]; cbn; [constructor | ].
  now apply insert_sorted_sorted.
Qed.

(** A list has one sorted arrangement. *)
Lemma sorted_perm_eq (l1 l2 : list string) :
  StronglySorted path_le l1 -> StronglySorted path_le l2 ->
  Permutation l1 l2 -> l1 = l2.
Proof.
  intros H1; revert l2; induction H1 as [ | a l1 Hs1 IH Ha]; intros l2 H2 Hp.
  - apply Permutation_nil in Hp. now subst.
  - destruct H2 as [ | b l2 Hs2 Hb].
    + apply Permutation_sym, Permutation_nil in Hp. discriminate.
    + assert (Hab : a = b).
      { assert (Hin_a : In a (b :: l2))
          by (apply (Permutation_in _ Hp); now left).
        assert (Hin_b : In b (a :: l1))
          by (apply (Permutation_in _ (Permutation_sym Hp)); now left).
        destruct Hin_a as [-> | Hin_a]; [reflexivity | ].
        destruct Hin_b as [-> | Hin_b]; [reflexivity | ].
        rewrite Forall_forall in Ha, Hb.
        apply String.leb_antisym; [now apply Ha | now apply Hb]. }
      subst b. f_equal. apply IH; [exact Hs2 | ].
      now apply Permutation_cons_inv in Hp.
Qed.

(** X6: [parse_folder] does not depend on the order in which [glob.glob] lists
    the files: two listings of the same files give the same outcome. *)
Theorem parse_folder_glob_order (glob_glob glob_glob' : string -> list string)
  (self : MccdInputs) (folder_path pattern : string) :
  Permutation (glob_glob (folder_path ++ pattern)%string)
              (glob_glob' (folder_path ++ pattern)%string) ->
  parse_folder glob_glob self folder_path pattern
  = parse_folder glob_glob' self folder_path pattern.
Proof.
  intros Hperm. unfold parse_folder.
  rewrite (sorted_perm_eq
             (sort_paths (glob_glob (folder_path ++ pattern)%string))
             (sort_paths (glob_glob' (folder_path ++ pattern)%string)));
    [reflexivity | apply sort_paths_sorted | apply sort_paths_sorted | ].
  now rewrite !sort_paths_perm.
Qed.

Lemma parse_folder_glob_order_witness :
  parse_folder glob_ab MccdInputs_default "dir/" "*.fits"
  = parse_folder glob_ba MccdInputs_default "dir/" "*.fits".
Proof.
  apply (parse_folder_glob_order glob_ab glob_ba MccdInputs_default
           "dir/" "*.fits").
  apply perm_swap.
Defined.

Lemma sorted_filter_paths (p : row -> bool) (rows : list row) :
  StronglySorted path_le (map row_path rows) ->
  StronglySorted path_le (map row_path (List.filter p rows)).
Proof.
  induction rows as [ | r rows IH]; cbn [map List.filter]; intros Hs;
    [constructor | ].
  inversion Hs as [ | ? ? Hrest Hr]; subst.
  destruct (p r); cbn [map]; [ | now apply IH].
  constructor; [now apply IH | ].
  rewrite Forall_forall in Hr. apply Forall_forall. intros z Hz.
  apply Hr. apply in_map_iff in Hz. destruct Hz as (r' & <- & Hr').
  apply in_map. now apply filter_In in Hr'.
Qed.

Lemma folder_rows_paths (self : MccdInputs) (paths : list string)
  (rows : list row) :
  mapM (fun path =>
          let* p0 := parse_path self path in
          let* p1 := parse_path self path in
          Ok (fst p0, snd p1, path))
       paths = Ok rows ->
  map row_path rows = paths.
Proof.
  intros Hm. apply mapM_Ok_inv in Hm.
  induction Hm as [ | path r paths rows Hr _ IH]; [reflexivity | ].
  cbn [map]. rewrite IH. f_equal.
  destruct (parse_path self path) as [p | ]; [ | discriminate].
  cbn [bind] in Hr. now injection Hr as <-.
Qed.

(** X7: What [preprocess_data] returns is the list of the ids it stores, and in
    every group it stores the catalogues come sorted by path, each of them
    a file that [glob.glob] listed. *)
Theorem preprocess_data_sorted_groups (glob_glob : string -> list string)
  (self st : MccdInputs) (folder_path pattern : string)
  (ids : option (list string)) :
  preprocess_data glob_glob self folder_path pattern = Ok (st, ids) ->
  ids = catalog_ids st /\
  exists groups,
    starcat_list st = Some groups /\
    Forall (fun g =>
              StronglySorted path_le (map row_path g) /\
              Forall (fun r => In (row_path r)
                                  (glob_glob (folder_path ++ pattern)%string))
                     g)
           groups.
Proof.
  unfold preprocess_data, parse_folder.
  destruct (mapM _ (sort_paths _)) as [rows | ] eqn:Hm; [ | discriminate].
  cbn [bind].
  destruct (group_starcats self rows) as [st' | ] eqn:Hg; [ | discriminate].
  cbn [bind]. intros [= <- <-]. split; [reflexivity | ].
  destruct (group_starcats_Ok self st' rows Hg) as (_ & _ & _ & Hgroups).
  pose proof (folder_rows_paths self _ rows Hm) as Hpaths.
  eexists. split; [exact Hgroups | ].
  apply Forall_forall. intros g Hin. apply in_map_iff in Hin.
  destruct Hin as (id & <- & _). split.
  - apply sorted_filter_paths. rewrite Hpaths. apply sort_paths_sorted.
  - apply Forall_forall. intros r Hr. apply filter_In in Hr.
    apply (Permutation_in _ (sort_paths_perm _)).
    rewrite <- Hpaths. now apply in_map.
Qed.

Lemma preprocess_data_sorted_groups_witness :
  exists st ids groups,
    preprocess_data glob_ab MccdInputs_default "dir/" "*.fits"
    = Ok (st, ids) /\
    starcat_list st = Some groups /\
    Forall (fun g => StronglySorted path_le (map row_path g)) groups.
Proof.
  destruct (preprocess_data glob_ab MccdInputs_default "dir/" "*.fits")
    as [[st ids] | ] eqn:Hp; [ | discriminate Hp].
  destruct (preprocess_data_sorted_groups glob_ab MccdInputs_default st
              "dir/" "*.fits" ids Hp) as (_ & groups & Hg & Hall).
  exists st, ids, groups. split; [reflexivity | ]. split; [exact Hg | ].
  eapply Forall_impl; [ | exact Hall]. now intros g [Hs _].
Defined.
